(** * Galactic Asteroid Belt: the frame update of game.go

    A shallow embedding of the game state ([Game]) and of the per-frame
    update ([Update]) of src/game.go, src/modes.go and src/main.go,
    followed by the properties of the specification.

    Conventions of the embedding.
    - Go's [int], [int64] and [time.Duration] are 64-bit two's complement
      integers: they are [Z] values and every arithmetic result goes
      through [wrap64].
    - [float64] is embedded as [Q]. Every float the update stores is an
      integer or a multiple of 1/4 (speed, boost factor, velocities), on
      which binary64 arithmetic is exact as long as magnitudes stay below
      2^51; the embedding computes these values exactly.  Rotations are
      kept in units of [math.Pi].
    - A Go slice is a header (length, capacity) over a backing array.  A
      panic (index or slice bounds out of range, nil dereference) is the
      result [None].
    - Sprites are held by pointer in the source.  Each sprite is referenced
      from one collection only, so a cell of a backing array holds the
      sprite's value; a mutation through the pointer is a write to the
      cell the pointer was read from. *)

From Stdlib Require Import ZArith QArith Lia Lqa Bool.
From stdpp Require Import base option list.

Open Scope Z_scope.

(** ** Machine integers and floats *)

Definition int_min : Z := - 2 ^ 63.
Definition int_max : Z := 2 ^ 63 - 1.

(** Two's complement wrap-around of a 64-bit signed result. *)
Definition wrap64 (z : Z) : Z := (z + 2 ^ 63) mod 2 ^ 64 - 2 ^ 63.

(** The whole part of a float: the fraction is discarded. *)
Definition truncate (f : Q) : Z := Z.quot (Qnum f) (Z.pos (Qden f)).

(** [int(f)] *)
Definition int_of_float (f : Q) : Z := wrap64 (truncate f).

(** [float64(n)]. *)
Definition float_of_int (n : Z) : Q := inject_Z n.

(** [time.Millisecond] and [time.Second], in nanoseconds. *)
Definition Millisecond : Z := 1000000.
Definition Second : Z := 1000000000.

(** ** Loops *)

(** A loop whose body may panic, over the values [xs]. *)
Fixpoint for_each {S X : Type} (body : X -> S -> option S) (xs : list X)
    (s : S) : option S :=
  match xs with
  | [] => Some s
  | x :: xs' =>
      match body x s with
      | Some s' => for_each body xs' s'
      | None => None
      end
  end.

(** [for i := range hs] where [hs] has length [n]: the header is copied
    once, so the number of iterations is fixed on entry. *)
Definition for_range {S : Type} (body : nat -> S -> option S) (n : nat)
    (s : S) : option S :=
  for_each body (seq 0 n) s.

(** ** Go slices *)

Record slice (A : Type) := Slice {
  arr : list A;   (* the backing array, from the slice's first cell on;
                     cells past [length arr] hold nil *)
  len : nat;
  cap : nat
}.
Arguments Slice {A} _ _ _.
Arguments arr {A} _.
Arguments len {A} _.
Arguments cap {A} _.

Section GoSlice.
Context {A : Type}.

(** The capacity chosen by the runtime when [append] has to reallocate:
    [growcap old needed].  The policy is the runtime's own. *)
Variable growcap : nat -> nat -> nat.

(** The nil slice. *)
Definition nil_slice : slice A := Slice [] 0 0.

(** The elements of a slice, [s[0] .. s[len-1]]. *)
Definition to_list (s : slice A) : list A := take (len s) (arr s).

(** What the runtime maintains for every slice value. *)
Definition slice_wf (s : slice A) : Prop :=
  (len s <= length (arr s))%nat /\ (length (arr s) <= cap s)%nat.

(** [s[i]] *)
Definition index (s : slice A) (i : nat) : option A :=
  if decide (i < len s)%nat then arr s !! i else None.

(** [s[:h]]: allowed up to the capacity. *)
Definition slice_to (s : slice A) (h : nat) : option (slice A) :=
  if decide (h <= cap s)%nat then Some (Slice (arr s) h (cap s)) else None.

(** [s[l:]...], the elements handed to a variadic [append]: the low bound
    may not exceed the length. *)
Definition slice_from (s : slice A) (l : nat) : option (list A) :=
  if decide (l <= len s)%nat
  then Some (take (len s - l) (drop l (arr s)))
  else None.

(** [append(s, xs...)]: in place when the capacity allows, otherwise into
    a fresh array. *)
Definition append (s : slice A) (xs : list A) : slice A :=
  let n := (len s + length xs)%nat in
  if decide (n <= cap s)%nat
  then Slice (take (len s) (arr s) ++ xs ++ drop n (arr s)) n (cap s)
  else Slice (take (len s) (arr s) ++ xs) n (growcap (cap s) n).

(** A write through the pointer held in cell [i]. *)
Definition set_cell (i : nat) (x : A) (s : slice A) : slice A :=
  Slice (<[i := x]> (arr s)) (len s) (cap s).

(** [append(s[:i], s[i+1:]...)].  The result never exceeds the capacity
    of [s], so the elements are moved within the array of [s]: a range
    copy of [s] taken before sees the cells shifted. *)
Definition remove_at (s : slice A) (i : nat) : option (slice A) :=
  d ← slice_to s i;
  xs ← slice_from s (S i);
  Some (append d xs).

(** The idiom of updateSpires, updateAsteroids, updateStars and of the
    explosion sweep:
<<
    temp := s[:0]
    for _, x := range s { ...; if keep { temp = append(temp, x) }; ... }
    s = temp
>>
    [step x] gives the state in which the body leaves the object [x]
    points to, and whether the pointer was appended.  [temp] never holds
    more elements than the loop has read, so every [append] is in place:
    [temp] and the range copy share one backing array, and the body reads
    cell [i] of [temp]'s array. *)
Definition filterInPlace (step : A -> A * bool) (s : slice A)
    : option (slice A) :=
  temp ← slice_to s 0;
  for_range
    (fun i temp =>
       x ← arr temp !! i;
       let '(x', keep) := step x in
       let temp := set_cell i x' temp in
       Some (if keep then append temp [x'] else temp))
    (len s) temp.

End GoSlice.

(** ** The sprite library (github.com/llrowat/spriteutils) *)

(** The images loaded at start-up (package variables of main.go). *)
Inductive EbitenImage :=
  | backgroundImage | shipImage | floorImage | topSpire | bottomSpire
  | asteroid1 | asteroid2 | asteroid3 | asteroid4
  | asteroidExplosionImage | starImage | shieldImage.

Record Sprite := mkSprite {
  Image : EbitenImage;
  X : Z;
  Y : Z;
  XVelocity : Q;
  YVelocity : Q;
  Rotation : Q   (* in units of math.Pi *)
}.

Definition set_X (v : Z) (s : Sprite) : Sprite :=
  mkSprite (Image s) v (Y s) (XVelocity s) (YVelocity s) (Rotation s).
Definition set_Y (v : Z) (s : Sprite) : Sprite :=
  mkSprite (Image s) (X s) v (XVelocity s) (YVelocity s) (Rotation s).
Definition set_XVelocity (v : Q) (s : Sprite) : Sprite :=
  mkSprite (Image s) (X s) (Y s) v (YVelocity s) (Rotation s).
Definition set_YVelocity (v : Q) (s : Sprite) : Sprite :=
  mkSprite (Image s) (X s) (Y s) (XVelocity s) v (Rotation s).
Definition set_Rotation (v : Q) (s : Sprite) : Sprite :=
  mkSprite (Image s) (X s) (Y s) (XVelocity s) (YVelocity s) v.

Record TransientSprite := mkTransientSprite {
  CreatedAtGameTime : Z;
  LifetimeDuration : Z;
  IsExpired : bool;
  TSprite : Sprite   (* the field Sprite *)
}.

Record SpriteFactory := mkSpriteFactory {
  Images : list EbitenImage;
  MaxX : Z;
  MinX : Z;
  MaxY : Z;
  MinY : Z
}.

(** ** modes.go *)

Inductive Mode := ModeTitle | ModeGame | ModeGameOver.

(** ** main.go: constants *)

Definition screenWidth : Z := 1028.
Definition screenHeight : Z := 720.

(** ** game.go: the game state *)

Definition outOfBoundsX : Z := -200.

Record Game := mkGame {
  mode : Mode;
  ship : option Sprite;
  shield : option Sprite;
  topGroundTiles : slice Sprite;
  bottomGroundTiles : slice Sprite;
  topSpireFactory : option SpriteFactory;
  bottomSpireFactory : option SpriteFactory;
  asteroidFactory : option SpriteFactory;
  starFactory : option SpriteFactory;
  spires : slice Sprite;
  asteroids : slice Sprite;
  asteroidExplosions : slice TransientSprite;
  stars : slice Sprite;
  distanceTravelled : Z;
  speed : Q;
  speedIncreaseThreshold : Z;
  boostFactor : Q;
  boostSeconds : Z;
  isBoosting : bool;
  lastBoostTime : Z;
  spireSpawnThreshold : Z;
  asteroidSpawnThreshold : Z;
  starSpawnThreshold : Z;
  frameCount : Z
}.

Definition set_mode (v : Mode) (g : Game) : Game :=
  mkGame v (ship g) (shield g) (topGroundTiles g) (bottomGroundTiles g)
    (topSpireFactory g) (bottomSpireFactory g) (asteroidFactory g)
    (starFactory g) (spires g) (asteroids g) (asteroidExplosions g)
    (stars g) (distanceTravelled g) (speed g) (speedIncreaseThreshold g)
    (boostFactor g) (boostSeconds g) (isBoosting g) (lastBoostTime g)
    (spireSpawnThreshold g) (asteroidSpawnThreshold g)
    (starSpawnThreshold g) (frameCount g).
Definition set_ship (v : option Sprite) (g : Game) : Game :=
  mkGame (mode g) v (shield g) (topGroundTiles g) (bottomGroundTiles g)
    (topSpireFactory g) (bottomSpireFactory g) (asteroidFactory g)
    (starFactory g) (spires g) (asteroids g) (asteroidExplosions g)
    (stars g) (distanceTravelled g) (speed g) (speedIncreaseThreshold g)
    (boostFactor g) (boostSeconds g) (isBoosting g) (lastBoostTime g)
    (spireSpawnThreshold g) (asteroidSpawnThreshold g)
    (starSpawnThreshold g) (frameCount g).
Definition set_shield (v : option Sprite) (g : Game) : Game :=
  mkGame (mode g) (ship g) v (topGroundTiles g) (bottomGroundTiles g)
    (topSpireFactory g) (bottomSpireFactory g) (asteroidFactory g)
    (starFactory g) (spires g) (asteroids g) (asteroidExplosions g)
    (stars g) (distanceTravelled g) (speed g) (speedIncreaseThreshold g)
    (boostFactor g) (boostSeconds g) (isBoosting g) (lastBoostTime g)
    (spireSpawnThreshold g) (asteroidSpawnThreshold g)
    (starSpawnThreshold g) (frameCount g).
Definition set_topGroundTiles (v : slice Sprite) (g : Game) : Game :=
  mkGame (mode g) (ship g) (shield g) v (bottomGroundTiles g)
    (topSpireFactory g) (bottomSpireFactory g) (asteroidFactory g)
    (starFactory g) (spires g) (asteroids g) (asteroidExplosions g)
    (stars g) (distanceTravelled g) (speed g) (speedIncreaseThreshold g)
    (boostFactor g) (boostSeconds g) (isBoosting g) (lastBoostTime g)
    (spireSpawnThreshold g) (asteroidSpawnThreshold g)
    (starSpawnThreshold g) (frameCount g).
Definition set_bottomGroundTiles (v : slice Sprite) (g : Game) : Game :=
  mkGame (mode g) (ship g) (shield g) (topGroundTiles g) v
    (topSpireFactory g) (bottomSpireFactory g) (asteroidFactory g)
    (starFactory g) (spires g) (asteroids g) (asteroidExplosions g)
    (stars g) (distanceTravelled g) (speed g) (speedIncreaseThreshold g)
    (boostFactor g) (boostSeconds g) (isBoosting g) (lastBoostTime g)
    (spireSpawnThreshold g) (asteroidSpawnThreshold g)
    (starSpawnThreshold g) (frameCount g).
Definition set_topSpireFactory (v : option SpriteFactory) (g : Game) : Game :=
  mkGame (mode g) (ship g) (shield g) (topGroundTiles g)
    (bottomGroundTiles g) v (bottomSpireFactory g) (asteroidFactory g)
    (starFactory g) (spires g) (asteroids g) (asteroidExplosions g)
    (stars g) (distanceTravelled g) (speed g) (speedIncreaseThreshold g)
    (boostFactor g) (boostSeconds g) (isBoosting g) (lastBoostTime g)
    (spireSpawnThreshold g) (asteroidSpawnThreshold g)
    (starSpawnThreshold g) (frameCount g).
Definition set_bottomSpireFactory (v : option SpriteFactory) (g : Game)
    : Game :=
  mkGame (mode g) (ship g) (shield g) (topGroundTiles g)
    (bottomGroundTiles g) (topSpireFactory g) v (asteroidFactory g)
    (starFactory g) (spires g) (asteroids g) (asteroidExplosions g)
    (stars g) (distanceTravelled g) (speed g) (speedIncreaseThreshold g)
    (boostFactor g) (boostSeconds g) (isBoosting g) (lastBoostTime g)
    (spireSpawnThreshold g) (asteroidSpawnThreshold g)
    (starSpawnThreshold g) (frameCount g).
Definition set_asteroidFactory (v : option SpriteFactory) (g : Game) : Game :=
  mkGame (mode g) (ship g) (shield g) (topGroundTiles g)
    (bottomGroundTiles g) (topSpireFactory g) (bottomSpireFactory g) v
    (starFactory g) (spires g) (asteroids g) (asteroidExplosions g)
    (stars g) (distanceTravelled g) (speed g) (speedIncreaseThreshold g)
    (boostFactor g) (boostSeconds g) (isBoosting g) (lastBoostTime g)
    (spireSpawnThreshold g) (asteroidSpawnThreshold g)
    (starSpawnThreshold g) (frameCount g).
Definition set_starFactory (v : option SpriteFactory) (g : Game) : Game :=
  mkGame (mode g) (ship g) (shield g) (topGroundTiles g)
    (bottomGroundTiles g) (topSpireFactory g) (bottomSpireFactory g)
    (asteroidFactory g) v (spires g) (asteroids g) (asteroidExplosions g)
    (stars g) (distanceTravelled g) (speed g) (speedIncreaseThreshold g)
    (boostFactor g) (boostSeconds g) (isBoosting g) (lastBoostTime g)
    (spireSpawnThreshold g) (asteroidSpawnThreshold g)
    (starSpawnThreshold g) (frameCount g).
Definition set_spires (v : slice Sprite) (g : Game) : Game :=
  mkGame (mode g) (ship g) (shield g) (topGroundTiles g)
    (bottomGroundTiles g) (topSpireFactory g) (bottomSpireFactory g)
    (asteroidFactory g) (starFactory g) v (asteroids g)
    (asteroidExplosions g) (stars g) (distanceTravelled g) (speed g)
    (speedIncreaseThreshold g) (boostFactor g) (boostSeconds g)
    (isBoosting g) (lastBoostTime g) (spireSpawnThreshold g)
    (asteroidSpawnThreshold g) (starSpawnThreshold g) (frameCount g).
Definition set_asteroids (v : slice Sprite) (g : Game) : Game :=
  mkGame (mode g) (ship g) (shield g) (topGroundTiles g)
    (bottomGroundTiles g) (topSpireFactory g) (bottomSpireFactory g)
    (asteroidFactory g) (starFactory g) (spires g) v (asteroidExplosions g)
    (stars g) (distanceTravelled g) (speed g) (speedIncreaseThreshold g)
    (boostFactor g) (boostSeconds g) (isBoosting g) (lastBoostTime g)
    (spireSpawnThreshold g) (asteroidSpawnThreshold g)
    (starSpawnThreshold g) (frameCount g).
Definition set_asteroidExplosions (v : slice TransientSprite) (g : Game)
    : Game :=
  mkGame (mode g) (ship g) (shield g) (topGroundTiles g)
    (bottomGroundTiles g) (topSpireFactory g) (bottomSpireFactory g)
    (asteroidFactory g) (starFactory g) (spires g) (asteroids g) v (stars g)
    (distanceTravelled g) (speed g) (speedIncreaseThreshold g)
    (boostFactor g) (boostSeconds g) (isBoosting g) (lastBoostTime g)
    (spireSpawnThreshold g) (asteroidSpawnThreshold g)
    (starSpawnThreshold g) (frameCount g).
Definition set_stars (v : slice Sprite) (g : Game) : Game :=
  mkGame (mode g) (ship g) (shield g) (topGroundTiles g)
    (bottomGroundTiles g) (topSpireFactory g) (bottomSpireFactory g)
    (asteroidFactory g) (starFactory g) (spires g) (asteroids g)
    (asteroidExplosions g) v (distanceTravelled g) (speed g)
    (speedIncreaseThreshold g) (boostFactor g) (boostSeconds g)
    (isBoosting g) (lastBoostTime g) (spireSpawnThreshold g)
    (asteroidSpawnThreshold g) (starSpawnThreshold g) (frameCount g).
Definition set_distanceTravelled (v : Z) (g : Game) : Game :=
  mkGame (mode g) (ship g) (shield g) (topGroundTiles g)
    (bottomGroundTiles g) (topSpireFactory g) (bottomSpireFactory g)
    (asteroidFactory g) (starFactory g) (spires g) (asteroids g)
    (asteroidExplosions g) (stars g) v (speed g) (speedIncreaseThreshold g)
    (boostFactor g) (boostSeconds g) (isBoosting g) (lastBoostTime g)
    (spireSpawnThreshold g) (asteroidSpawnThreshold g)
    (starSpawnThreshold g) (frameCount g).
Definition set_speed (v : Q) (g : Game) : Game :=
  mkGame (mode g) (ship g) (shield g) (topGroundTiles g)
    (bottomGroundTiles g) (topSpireFactory g) (bottomSpireFactory g)
    (asteroidFactory g) (starFactory g) (spires g) (asteroids g)
    (asteroidExplosions g) (stars g) (distanceTravelled g) v
    (speedIncreaseThreshold g) (boostFactor g) (boostSeconds g)
    (isBoosting g) (lastBoostTime g) (spireSpawnThreshold g)
    (asteroidSpawnThreshold g) (starSpawnThreshold g) (frameCount g).
Definition set_speedIncreaseThreshold (v : Z) (g : Game) : Game :=
  mkGame (mode g) (ship g) (shield g) (topGroundTiles g)
    (bottomGroundTiles g) (topSpireFactory g) (bottomSpireFactory g)
    (asteroidFactory g) (starFactory g) (spires g) (asteroids g)
    (asteroidExplosions g) (stars g) (distanceTravelled g) (speed g) v
    (boostFactor g) (boostSeconds g) (isBoosting g) (lastBoostTime g)
    (spireSpawnThreshold g) (asteroidSpawnThreshold g)
    (starSpawnThreshold g) (frameCount g).
Definition set_boostFactor (v : Q) (g : Game) : Game :=
  mkGame (mode g) (ship g) (shield g) (topGroundTiles g)
    (bottomGroundTiles g) (topSpireFactory g) (bottomSpireFactory g)
    (asteroidFactory g) (starFactory g) (spires g) (asteroids g)
    (asteroidExplosions g) (stars g) (distanceTravelled g) (speed g)
    (speedIncreaseThreshold g) v (boostSeconds g) (isBoosting g)
    (lastBoostTime g) (spireSpawnThreshold g) (asteroidSpawnThreshold g)
    (starSpawnThreshold g) (frameCount g).
Definition set_boostSeconds (v : Z) (g : Game) : Game :=
  mkGame (mode g) (ship g) (shield g) (topGroundTiles g)
    (bottomGroundTiles g) (topSpireFactory g) (bottomSpireFactory g)
    (asteroidFactory g) (starFactory g) (spires g) (asteroids g)
    (asteroidExplosions g) (stars g) (distanceTravelled g) (speed g)
    (speedIncreaseThreshold g) (boostFactor g) v (isBoosting g)
    (lastBoostTime g) (spireSpawnThreshold g) (asteroidSpawnThreshold g)
    (starSpawnThreshold g) (frameCount g).
Definition set_isBoosting (v : bool) (g : Game) : Game :=
  mkGame (mode g) (ship g) (shield g) (topGroundTiles g)
    (bottomGroundTiles g) (topSpireFactory g) (bottomSpireFactory g)
    (asteroidFactory g) (starFactory g) (spires g) (asteroids g)
    (asteroidExplosions g) (stars g) (distanceTravelled g) (speed g)
    (speedIncreaseThreshold g) (boostFactor g) (boostSeconds g) v
    (lastBoostTime g) (spireSpawnThreshold g) (asteroidSpawnThreshold g)
    (starSpawnThreshold g) (frameCount g).
Definition set_lastBoostTime (v : Z) (g : Game) : Game :=
  mkGame (mode g) (ship g) (shield g) (topGroundTiles g)
    (bottomGroundTiles g) (topSpireFactory g) (bottomSpireFactory g)
    (asteroidFactory g) (starFactory g) (spires g) (asteroids g)
    (asteroidExplosions g) (stars g) (distanceTravelled g) (speed g)
    (speedIncreaseThreshold g) (boostFactor g) (boostSeconds g)
    (isBoosting g) v (spireSpawnThreshold g) (asteroidSpawnThreshold g)
    (starSpawnThreshold g) (frameCount g).
Definition set_spireSpawnThreshold (v : Z) (g : Game) : Game :=
  mkGame (mode g) (ship g) (shield g) (topGroundTiles g)
    (bottomGroundTiles g) (topSpireFactory g) (bottomSpireFactory g)
    (asteroidFactory g) (starFactory g) (spires g) (asteroids g)
    (asteroidExplosions g) (stars g) (distanceTravelled g) (speed g)
    (speedIncreaseThreshold g) (boostFactor g) (boostSeconds g)
    (isBoosting g) (lastBoostTime g) v (asteroidSpawnThreshold g)
    (starSpawnThreshold g) (frameCount g).
Definition set_asteroidSpawnThreshold (v : Z) (g : Game) : Game :=
  mkGame (mode g) (ship g) (shield g) (topGroundTiles g)
    (bottomGroundTiles g) (topSpireFactory g) (bottomSpireFactory g)
    (asteroidFactory g) (starFactory g) (spires g) (asteroids g)
    (asteroidExplosions g) (stars g) (distanceTravelled g) (speed g)
    (speedIncreaseThreshold g) (boostFactor g) (boostSeconds g)
    (isBoosting g) (lastBoostTime g) (spireSpawnThreshold g) v
    (starSpawnThreshold g) (frameCount g).
Definition set_starSpawnThreshold (v : Z) (g : Game) : Game :=
  mkGame (mode g) (ship g) (shield g) (topGroundTiles g)
    (bottomGroundTiles g) (topSpireFactory g) (bottomSpireFactory g)
    (asteroidFactory g) (starFactory g) (spires g) (asteroids g)
    (asteroidExplosions g) (stars g) (distanceTravelled g) (speed g)
    (speedIncreaseThreshold g) (boostFactor g) (boostSeconds g)
    (isBoosting g) (lastBoostTime g) (spireSpawnThreshold g)
    (asteroidSpawnThreshold g) v (frameCount g).
Definition set_frameCount (v : Z) (g : Game) : Game :=
  mkGame (mode g) (ship g) (shield g) (topGroundTiles g)
    (bottomGroundTiles g) (topSpireFactory g) (bottomSpireFactory g)
    (asteroidFactory g) (starFactory g) (spires g) (asteroids g)
    (asteroidExplosions g) (stars g) (distanceTravelled g) (speed g)
    (speedIncreaseThreshold g) (boostFactor g) (boostSeconds g)
    (isBoosting g) (lastBoostTime g) (spireSpawnThreshold g)
    (asteroidSpawnThreshold g) (starSpawnThreshold g) v.

(** ** What one frame reads from outside the game state

    The keyboard and mouse polled by [Update], and the values the random
    source yields in the frame. *)
Record Input := mkInput {
  keySpaceJustPressed : bool;   (* inpututil.IsKeyJustPressed(KeySpace) *)
  keyRJustPressed : bool;       (* inpututil.IsKeyJustPressed(KeyR) *)
  keySpacePressed : bool;       (* ebiten.IsKeyPressed(KeySpace) *)
  mouseLeftPressed : bool;      (* ebiten.IsMouseButtonPressed(Left) *)
  randIntn2 : Z;                (* rand.Intn(2) of the spire spawn *)
  randIntn10 : Z;               (* rand.Intn(10) of the asteroid impulse *)
  randIntn6 : Z;                (* rand.Intn(6) of the asteroid impulse *)
  GenerateSprite : SpriteFactory -> Sprite;
                                (* the sprite a factory produces *)
  randFloat64 : nat -> Q        (* rand.Float64() of the explosion created
                                   while [n] explosions are listed *)
}.

Section GameLoop.

(** *** Outside the repository *)

(** The runtime's growth policy of [append]. *)
Variable growcap : nat -> nat -> nat.

(** [img.Size()] of the loaded images. *)
Variable imageSize : EbitenImage -> Z * Z.

(** How the sprite library turns a velocity into a whole number of
    pixels. *)
Variable displacement : Q -> Z.

(** [a.IsColliding(b)]: the bounding boxes of [a] and [b] overlap. *)
Variable Sprite_IsColliding : Sprite -> Sprite -> bool.

(** [s.ApplyImpulse(dx, dy)] *)
Variable Sprite_ApplyImpulse : Sprite -> Q -> Q -> Sprite.

(** [t.Update(gameTime)] of a transient sprite. *)
Variable TransientSprite_Update : TransientSprite -> Z -> TransientSprite.

(** Modelled from the spec: [Sprite.Update] of the sprite library, which
    is not part of the sources.  "Mutated every frame by simple Euler
    integration (position += velocity)". *)
Definition Sprite_Update (s : Sprite) : Sprite :=
  set_Y (wrap64 (Y s + displacement (YVelocity s)))
    (set_X (wrap64 (X s + displacement (XVelocity s))) s).

(** [time.Duration(g.frameCount) * time.Second / 60] *)
Definition gameTime (g : Game) : Z :=
  Z.quot (wrap64 (frameCount g * Second)) 60.

(** *** initializeGround *)

Definition imageWidth : Z := fst (imageSize floorImage).
Definition imageHeight : Z := snd (imageSize floorImage).

Definition topTile (x : Z) (g : Game) : Sprite :=
  mkSprite floorImage x 0 (- speed g)%Q 0%Q 1%Q.

Definition bottomTile (x : Z) (g : Game) : Sprite :=
  mkSprite floorImage x (wrap64 (screenHeight - imageHeight))
    (- speed g)%Q 0%Q 0%Q.

(** The loop [for i := 0; i*imageWidth < screenWidth + imageWidth*2; i++].
    [fuel] bounds the number of tests of the condition; running out of
    it is the loop that does not end. *)
Fixpoint groundLoop (fuel : nat) (i : Z) (g : Game) : option Game :=
  match fuel with
  | O => None
  | S fuel' =>
      if wrap64 (i * imageWidth)
           <? wrap64 (screenWidth + wrap64 (imageWidth * 2))
      then
        let x := wrap64 (wrap64 (imageWidth * i) - distanceTravelled g) in
        let g := set_topGroundTiles
                   (append growcap (topGroundTiles g) [topTile x g]) g in
        let g := set_bottomGroundTiles
                   (append growcap (bottomGroundTiles g) [bottomTile x g]) g in
        groundLoop fuel' (wrap64 (i + 1)) g
      else Some g
  end.

(** For a positive image width the condition fails at the latest when
    [i] reaches [screenWidth + 2]. *)
Definition groundFuel : nat := 1032.

Definition initializeGround (g : Game) : option Game :=
  let g := set_topGroundTiles nil_slice g in
  let g := set_bottomGroundTiles nil_slice g in
  groundLoop groundFuel 0 g.

(** *** The factories *)

Definition initializeSpireFactories (g : Game) : Game :=
  let spireHeight := snd (imageSize topSpire) in
  let g := set_spires nil_slice g in
  let g := set_topSpireFactory
             (Some (mkSpriteFactory [topSpire]
                      (screenWidth + 150) (screenWidth + 150) 0 (-200))) g in
  set_bottomSpireFactory
    (Some (mkSpriteFactory [bottomSpire]
             (screenWidth + 150) (screenWidth + 150)
             (wrap64 (wrap64 (screenHeight - spireHeight) + 200))
             (wrap64 (screenHeight - spireHeight)))) g.

Definition initializeAsteroidFactories (g : Game) : Game :=
  let g := set_asteroids nil_slice g in
  set_asteroidFactory
    (Some (mkSpriteFactory [asteroid1; asteroid2; asteroid3; asteroid4]
             (screenWidth + 100) (screenWidth + 100)
             (screenHeight - 100) 100)) g.

Definition initializeStarFactory (g : Game) : Game :=
  let g := set_stars nil_slice g in
  set_starFactory
    (Some (mkSpriteFactory [starImage]
             (screenWidth + 100) (screenWidth + 100)
             (screenHeight - 100) 100)) g.

(** *** resetGame, init, newGame *)

Definition resetGame (g : Game) : option Game :=
  let g := set_ship
             (Some (mkSprite shipImage (screenWidth / 4) (screenHeight / 2)
                      0%Q 0%Q 0%Q)) g in
  let g := set_shield None g in
  let g := set_distanceTravelled 0 g in
  let g := set_frameCount 0 g in
  let g := set_isBoosting false g in
  let g := set_boostFactor 2%Q g in
  let g := set_lastBoostTime 0 g in
  let g := set_speed 1%Q g in
  let g := set_speedIncreaseThreshold 500 g in
  let g := set_spireSpawnThreshold 600 g in
  let g := set_asteroidSpawnThreshold 200 g in
  let g := set_starSpawnThreshold 50 g in
  let g := set_asteroidExplosions nil_slice g in
  g ← initializeGround g;
  let g := initializeSpireFactories g in
  let g := initializeAsteroidFactories g in
  Some (initializeStarFactory g).

(** [&Game{}]: every field at its zero value. *)
Definition zeroGame : Game :=
  mkGame ModeTitle None None nil_slice nil_slice None None None None
    nil_slice nil_slice nil_slice nil_slice 0 0%Q 0 0%Q 0 false 0 0 0 0 0.

Definition init (g : Game) : option Game := resetGame g.

Definition newGame : option Game := init zeroGame.

(** *** shipMovement and checkShieldOn *)

Definition shipMovement (inp : Input) (g : Game) : option Game :=
  s ← ship g;
  let s := if mouseLeftPressed inp || keySpacePressed inp
           then set_YVelocity (YVelocity s - (1 # 2))%Q s
           else s in
  let s := set_YVelocity (YVelocity s + (1 # 4))%Q s in
  let s := Sprite_Update s in
  let s := set_Rotation (YVelocity s / 96 / 2)%Q s in
  Some (set_ship (Some s) g).

Definition checkShieldOn (g : Game) : option Game :=
  if isBoosting g then
    s ← ship g;
    Some (set_shield
            (Some (mkSprite shieldImage (wrap64 (X s - 17))
                     (wrap64 (Y s - 15)) 0%Q 0%Q 0%Q)) g)
  else Some (set_shield None g).

(** *** updateGround *)

(** [for _, tile := range tiles { tile.XVelocity = -g.speed; tile.Update() }] *)
Definition moveTiles (v : Q) (tiles : slice Sprite) : option (slice Sprite) :=
  for_range
    (fun i tiles =>
       tile ← arr tiles !! i;
       Some (set_cell i (Sprite_Update (set_XVelocity v tile)) tiles))
    (len tiles) tiles.

(** The recycling of the leading tile; [mk] builds the trailing tile from
    its [X]. *)
Definition recycleTile (mk : Z -> Sprite) (tiles : slice Sprite)
    : option (slice Sprite) :=
  first ← index tiles 0;
  if X first <=? wrap64 (- imageWidth) then
    tiles ← remove_at growcap tiles 0;
    last ← index tiles (len tiles - 1);
    Some (append growcap tiles [mk (wrap64 (X last + imageWidth))])
  else Some tiles.

Definition updateGround (g : Game) : option Game :=
  top ← moveTiles (- speed g)%Q (topGroundTiles g);
  let g := set_topGroundTiles top g in
  bottom ← moveTiles (- speed g)%Q (bottomGroundTiles g);
  let g := set_bottomGroundTiles bottom g in
  top ← recycleTile (fun x => topTile x g) (topGroundTiles g);
  let g := set_topGroundTiles top g in
  bottom ← recycleTile (fun x => bottomTile x g) (bottomGroundTiles g);
  Some (set_bottomGroundTiles bottom g).

(** *** updateSpires, updateAsteroids, updateStars *)

Definition updateSpires (g : Game) : option Game :=
  temp ← filterInPlace growcap
         (fun spire =>
            let spire := Sprite_Update (set_XVelocity (- speed g)%Q spire) in
            (spire, X spire >? outOfBoundsX))
         (spires g);
  Some (set_spires temp g).

Definition updateAsteroids (g : Game) : option Game :=
  temp ← filterInPlace growcap
         (fun asteroid =>
            let asteroid := Sprite_Update asteroid in
            (asteroid, X asteroid >? outOfBoundsX))
         (asteroids g);
  Some (set_asteroids temp g).

Definition updateStars (g : Game) : option Game :=
  temp ← filterInPlace growcap
         (fun star =>
            let star := Sprite_Update (set_XVelocity (- speed g)%Q star) in
            (star, X star >? outOfBoundsX))
         (stars g);
  Some (set_stars temp g).

(** *** createAsteroidExplosion *)

Definition createAsteroidExplosion (inp : Input) (g : Game)
    (asteroid : Sprite) : TransientSprite :=
  mkTransientSprite (gameTime g) (Millisecond * 100) false
    (mkSprite asteroidExplosionImage (X asteroid) (Y asteroid)
       (- speed g)%Q 0%Q (randFloat64 inp (len (asteroidExplosions g)))).

(** *** checkCollisions *)

(** The two statements every asteroid branch of checkCollisions runs:
<<
    g.asteroidExplosions = append(g.asteroidExplosions,
                                  g.createAsteroidExplosion(asteroid))
    g.asteroids = append(g.asteroids[:i], g.asteroids[i+1:]...)
>> *)
Definition destroyAsteroid (inp : Input) (i : nat) (asteroid : Sprite)
    (g : Game) : option Game :=
  let g := set_asteroidExplosions
             (append growcap (asteroidExplosions g)
                [createAsteroidExplosion inp g asteroid]) g in
  asteroids' ← remove_at growcap (asteroids g) i;
  Some (set_asteroids asteroids' g).

(** [for i, asteroid := range g.asteroids { if asteroid.IsColliding(o) ... }]:
    the range copy keeps the length found on entry and reads the array
    that the removals shift. *)
Definition asteroidsAgainst (inp : Input) (o : Sprite) (g : Game)
    : option Game :=
  for_range
    (fun i g =>
       asteroid ← arr (asteroids g) !! i;
       if Sprite_IsColliding asteroid o
       then destroyAsteroid inp i asteroid g
       else Some g)
    (len (asteroids g)) g.

(** One of the three loops over obstacles that do not move during the
    loop (top tiles, bottom tiles, spires). *)
Definition obstacleCollisions (inp : Input) (obstacles : list Sprite)
    (g : Game) : option Game :=
  for_each
    (fun o g =>
       s ← ship g;
       let g := if Sprite_IsColliding s o then set_mode ModeGameOver g
                else g in
       asteroidsAgainst inp o g)
    obstacles g.

Definition asteroidCollisions (inp : Input) (g : Game) : option Game :=
  for_range
    (fun i g =>
       asteroid ← arr (asteroids g) !! i;
       g ← match shield g with
           | Some sh =>
               if Sprite_IsColliding sh asteroid
               then destroyAsteroid inp i asteroid g
               else Some g
           | None => Some g
           end;
       s ← ship g;
       Some (if Sprite_IsColliding s asteroid then set_mode ModeGameOver g
             else g))
    (len (asteroids g)) g.

Definition starCollisions (g : Game) : option Game :=
  for_range
    (fun i g =>
       star ← arr (stars g) !! i;
       s ← ship g;
       if Sprite_IsColliding s star then
         stars' ← remove_at growcap (stars g) i;
         let g := set_stars stars' g in
         let g := set_isBoosting true g in
         let g := set_lastBoostTime (gameTime g) g in
         Some (set_speed (speed g + boostFactor g)%Q g)
       else Some g)
    (len (stars g)) g.

Definition checkCollisions (inp : Input) (g : Game) : option Game :=
  g ← obstacleCollisions inp (to_list (topGroundTiles g)) g;
  g ← obstacleCollisions inp (to_list (bottomGroundTiles g)) g;
  g ← obstacleCollisions inp (to_list (spires g)) g;
  g ← asteroidCollisions inp g;
  starCollisions g.

(** *** Update *)

(** Lines 124-135: distance, speed ramp-up, boost expiry. *)
Definition advanceCounters (g : Game) : Game :=
  let g := set_distanceTravelled
             (wrap64 (distanceTravelled g + int_of_float (speed g))) g in
  let g := if distanceTravelled g >? speedIncreaseThreshold g
           then
             let g := set_speedIncreaseThreshold
                        (wrap64 (speedIncreaseThreshold g
                                 + speedIncreaseThreshold g)) g in
             set_speed (speed g + 1)%Q g
           else g in
  if isBoosting g
     && (wrap64 (gameTime g - lastBoostTime g) >? Second * 5)
  then set_isBoosting false (set_speed (speed g - boostFactor g)%Q g)
  else g.

(** Lines 147-168: the threshold-triggered spawns. *)
Definition spawnSpire (inp : Input) (g : Game) : option Game :=
  if distanceTravelled g >? spireSpawnThreshold g then
    g ← (if Z.rem (randIntn2 inp) 2 =? 0
         then
           f ← topSpireFactory g;
           Some (set_spires
                   (append growcap (spires g) [GenerateSprite inp f]) g)
         else
           f ← bottomSpireFactory g;
           Some (set_spires
                   (append growcap (spires g) [GenerateSprite inp f]) g));
    Some (set_spireSpawnThreshold (wrap64 (spireSpawnThreshold g + 600)) g)
  else Some g.

Definition spawnAsteroid (inp : Input) (g : Game) : option Game :=
  if distanceTravelled g >? asteroidSpawnThreshold g then
    f ← asteroidFactory g;
    let g := set_asteroids
               (append growcap (asteroids g) [GenerateSprite inp f]) g in
    let i := (len (asteroids g) - 1)%nat in
    a ← index (asteroids g) i;
    let a := Sprite_ApplyImpulse a
               (float_of_int (randIntn10 inp) - 15)%Q
               (float_of_int (randIntn6 inp) - 3)%Q in
    let g := set_asteroids (set_cell i a (asteroids g)) g in
    Some (set_asteroidSpawnThreshold
            (wrap64 (asteroidSpawnThreshold g + 200)) g)
  else Some g.

Definition spawnStar (inp : Input) (g : Game) : option Game :=
  if distanceTravelled g >? starSpawnThreshold g then
    f ← starFactory g;
    let g := set_stars (append growcap (stars g) [GenerateSprite inp f]) g in
    Some (set_starSpawnThreshold (wrap64 (starSpawnThreshold g + 2000)) g)
  else Some g.

(** Lines 170-178: the sweep of expired explosions. *)
Definition sweepExplosions (g : Game) : option Game :=
  temp ← filterInPlace growcap
         (fun e => (TransientSprite_Update e (gameTime g), negb (IsExpired e)))
         (asteroidExplosions g);
  Some (set_asteroidExplosions temp g).

(** The state in which [updateGround] is entered. *)
Definition beforeGround (inp : Input) (g : Game) : option Game :=
  let g := advanceCounters g in
  g ← shipMovement inp g;
  checkShieldOn g.

(** The state in which [checkCollisions] is entered. *)
Definition beforeCollisions (inp : Input) (g : Game) : option Game :=
  g ← beforeGround inp g;
  g ← updateGround g;
  g ← updateSpires g;
  g ← updateAsteroids g;
  updateStars g.

(** What follows [checkCollisions] in the frame. *)
Definition afterCollisions (inp : Input) (g : Game) : option Game :=
  g ← spawnSpire inp g;
  g ← spawnAsteroid inp g;
  g ← spawnStar inp g;
  g ← sweepExplosions g;
  Some (set_frameCount (wrap64 (frameCount g + 1)) g).

Definition updateGame (inp : Input) (g : Game) : option Game :=
  g ← beforeCollisions inp g;
  g ← checkCollisions inp g;
  afterCollisions inp g.

Definition Update (inp : Input) (g : Game) : option Game :=
  match mode g with
  | ModeTitle =>
      if keySpaceJustPressed inp then Some (set_mode ModeGame g) else Some g
  | ModeGame => updateGame inp g
  | ModeGameOver =>
      if keyRJustPressed inp then
        g ← resetGame g;
        Some (set_mode ModeTitle g)
      else Some g
  end.

(** ** The vocabulary of the properties *)

(** The states the program can be in at the start of a frame. *)
Inductive reachable : Game -> Prop :=
  | reachable_new g : newGame = Some g -> reachable g
  | reachable_step g inp g' :
      reachable g -> Update inp g = Some g' -> reachable g'.

(** Consecutive tiles are one image width apart, in [int] arithmetic. *)
Definition contiguous (tiles : list Sprite) : Prop :=
  forall i a b,
    tiles !! i = Some a -> tiles !! S i = Some b ->
    X b = wrap64 (X a + imageWidth).

(** What holds of the two rows of ground tiles. *)
Definition ground_ok (tiles : slice Sprite) : Prop :=
  slice_wf tiles /\ (2 <= len tiles)%nat /\ contiguous (to_list tiles).

(** What holds of the boost state. *)
Definition speed_ok (g : Game) : Prop :=
  boostFactor g = 2%Q /\ (1 <= speed g)%Q
  /\ (isBoosting g = true -> 3 <= speed g)%Q.

(** A run of frames that are all played in Game mode and in which the
    distance counter does not leave the range of [int]. *)
Inductive game_run : Game -> Game -> Prop :=
  | game_run_nil g : game_run g g
  | game_run_step g inp g1 g2 :
      mode g = ModeGame ->
      distanceTravelled g + truncate (speed g) <= int_max ->
      Update inp g = Some g1 ->
      game_run g1 g2 ->
      game_run g g2.

(** What [filterInPlace] keeps of an element. *)
Definition kept {A : Type} (step : A -> A * bool) (x : A) : option A :=
  if snd (step x) then Some (fst (step x)) else None.

(** What the first loop of updateGround does to a tile. *)
Definition moveTile (v : Q) (tile : Sprite) : Sprite :=
  Sprite_Update (set_XVelocity v tile).

(** One row of ground tiles before ([s]) and after ([s']) updateGround:
    the row keeps its length and its backing array; every tile is moved;
    if the moved leading tile is at or left of [-imageWidth], it leaves
    the row and a tile built by [mk] enters at the trailing end, one image
    width to the right of the last tile. *)
Definition row_updated (v : Q) (mk : Z -> Sprite) (s s' : slice Sprite)
    : Prop :=
  let moved := map (moveTile v) (to_list s) in
  len s' = len s /\ cap s' = cap s
  /\ exists first last,
       moved !! 0%nat = Some first
       /\ moved !! (len s - 1)%nat = Some last
       /\ to_list s'
          = if X first <=? wrap64 (- imageWidth)
            then drop 1 moved ++ [mk (wrap64 (X last + imageWidth))]
            else moved.

(** The [X] that initializeGround gives tile [k]. *)
Definition tileX (k : Z) (g : Game) : Z :=
  wrap64 (wrap64 (imageWidth * k) - distanceTravelled g).

(** The fields written by the loops over obstacles and asteroids. *)
Definition obstacle_frame (g t : Game) : Prop :=
  t = set_mode (mode t)
        (set_asteroids (asteroids t)
           (set_asteroidExplosions (asteroidExplosions t) g)).

(** The fields written when asteroids are destroyed. *)
Definition asteroid_frame (g t : Game) : Prop :=
  t = set_asteroids (asteroids t)
        (set_asteroidExplosions (asteroidExplosions t) g).

(** The fields written by the loop over stars. *)
Definition star_frame (g t : Game) : Prop :=
  t = set_stars (stars t)
        (set_isBoosting (isBoosting t)
           (set_lastBoostTime (lastBoostTime t) (set_speed (speed t) g))).

(** The fields that the frame leaves to [advanceCounters], [updateGround]
    and [checkCollisions]. *)
Definition core (g : Game) :=
  (mode g, distanceTravelled g, speed g, speedIncreaseThreshold g,
   boostFactor g, boostSeconds g, isBoosting g, lastBoostTime g,
   topGroundTiles g, bottomGroundTiles g, frameCount g).

(** What resetGame returns: the two rows of ground tiles over the state
    in which every other field has its initial value. *)
Definition initialState (m : Mode) (bs : Z) (t b : slice Sprite) : Game :=
  mkGame m
    (Some (mkSprite shipImage (screenWidth / 4) (screenHeight / 2) 0 0 0))
    None t b
    (Some (mkSpriteFactory [topSpire]
             (screenWidth + 150) (screenWidth + 150) 0 (-200)))
    (Some (mkSpriteFactory [bottomSpire]
             (screenWidth + 150) (screenWidth + 150)
             (wrap64 (wrap64 (screenHeight - snd (imageSize topSpire)) + 200))
             (wrap64 (screenHeight - snd (imageSize topSpire)))))
    (Some (mkSpriteFactory [asteroid1; asteroid2; asteroid3; asteroid4]
             (screenWidth + 100) (screenWidth + 100)
             (screenHeight - 100) 100))
    (Some (mkSpriteFactory [starImage]
             (screenWidth + 100) (screenWidth + 100)
             (screenHeight - 100) 100))
    nil_slice nil_slice nil_slice nil_slice
    0 1 500 2 bs false 0 600 200 50 0.

(** The counters of a reachable state. *)
Definition counters_ok (g : Game) : Prop :=
  speed_ok g /\ int_min <= distanceTravelled g <= int_max.

(** What a sweep does with the sprites [before], each moved by [move]:
    the moved sprites right of the out-of-bounds line are kept, in order,
    and no other. *)
Definition swept (move : Sprite -> Sprite) (before after : list Sprite)
    : Prop :=
  after = filter (fun s => outOfBoundsX < X s) (map move before)
  /\ forall s, s ∈ before ->
       (X (move s) <= outOfBoundsX -> move s ∉ after)
       /\ (outOfBoundsX < X (move s) -> move s ∈ after).

(** The three loops of checkCollisions over tiles and spires. *)
Definition obstaclePhase (inp : Input) (g : Game) : option Game :=
  g ← obstacleCollisions inp (to_list (topGroundTiles g)) g;
  g ← obstacleCollisions inp (to_list (bottomGroundTiles g)) g;
  obstacleCollisions inp (to_list (spires g)) g.

(** The body of the loop of starCollisions. *)
Definition starBody (i : nat) (g : Game) : option Game :=
  star ← arr (stars g) !! i;
  s ← ship g;
  if Sprite_IsColliding s star then
    stars' ← remove_at growcap (stars g) i;
    let g := set_stars stars' g in
    let g := set_isBoosting true g in
    let g := set_lastBoostTime (gameTime g) g in
    Some (set_speed (speed g + boostFactor g)%Q g)
  else Some g.

(** Fields that no frame writes. *)
Definition static (g : Game) :=
  (topSpireFactory g, bottomSpireFactory g, asteroidFactory g,
   starFactory g, boostSeconds g).

(** The explosion that checkCollisions lists for an asteroid of [g]. *)
Definition explosionOf (g : Game) (e : TransientSprite) : Prop :=
  exists a,
    a ∈ to_list (asteroids g)
    /\ CreatedAtGameTime e = gameTime g
    /\ LifetimeDuration e = Millisecond * 100
    /\ IsExpired e = false
    /\ Image (TSprite e) = asteroidExplosionImage
    /\ X (TSprite e) = X a /\ Y (TSprite e) = Y a
    /\ XVelocity (TSprite e) = (- speed g)%Q
    /\ YVelocity (TSprite e) = 0%Q.

(** The ship of [g] overlaps a tile, a spire or an asteroid of [g]. *)
Definition shipHits (g : Game) : Prop :=
  exists s o,
    ship g = Some s
    /\ (o ∈ to_list (topGroundTiles g) \/ o ∈ to_list (bottomGroundTiles g)
        \/ o ∈ to_list (spires g) \/ o ∈ to_list (asteroids g))
    /\ Sprite_IsColliding s o = true.

(** What the loops of checkCollisions over tiles, spires and asteroids
    keep, between the state [g] in which checkCollisions is entered and a
    later state [t]. *)
Definition destroying (g t : Game) : Prop :=
  obstacle_frame g t
  /\ slice_wf (asteroids t) /\ slice_wf (asteroidExplosions t)
  /\ (len (asteroids t) <= len (asteroids g))%nat
  /\ (len (asteroids t) + len (asteroidExplosions t)
      = len (asteroids g) + len (asteroidExplosions g))%nat
  /\ (forall j a, (j < len (asteroids g))%nat ->
        arr (asteroids t) !! j = Some a -> a ∈ to_list (asteroids g))
  /\ sublist (to_list (asteroids t)) (to_list (asteroids g))
  /\ (exists new,
        to_list (asteroidExplosions t) = to_list (asteroidExplosions g) ++ new
        /\ Forall (explosionOf g) new)
  /\ (mode t = mode g \/ (mode t = ModeGameOver /\ shipHits g)).

(** The slices of the four collections. *)
Definition slices_ok (g : Game) : Prop :=
  slice_wf (spires g) /\ slice_wf (asteroids g)
  /\ slice_wf (asteroidExplosions g) /\ slice_wf (stars g).

(** The factories and the boost duration field as resetGame leaves them. *)
Definition configured (g : Game) : Prop :=
  static g = static (initialState ModeTitle 0 nil_slice nil_slice).

(** The tiles that initializeGround lays when the distance is 0. *)
Definition initialTop (k : Z) : Sprite :=
  mkSprite floorImage (imageWidth * k) 0 (- (1))%Q 0 1.
Definition initialBottom (k : Z) : Sprite :=
  mkSprite floorImage (imageWidth * k) (wrap64 (screenHeight - imageHeight))
    (- (1))%Q 0 0.

(** Both rows hold the floor image, the top row turned by [math.Pi], and
    their tiles are at the same [X], index by index. *)
Definition rows_aligned (top bottom : list Sprite) : Prop :=
  map X top = map X bottom
  /\ Forall (fun s => Image s = floorImage /\ Rotation s = 1%Q) top
  /\ Forall (fun s => Image s = floorImage /\ Rotation s = 0%Q) bottom.

(** [g], with the mode set to GameOver when [b] holds. *)
Definition gameOverIf (b : bool) (g : Game) : Game :=
  if b then set_mode ModeGameOver g else g.

(** The boost factor is 2 and the speed is the float of an integer. *)
Definition whole_speed (g : Game) : Prop :=
  boostFactor g = 2%Q /\ exists n : Z, speed g = inject_Z n.

(** A run of frames that return, none of which restarts the game. *)
Inductive frames : Game -> Game -> Prop :=
  | frames_nil g : frames g g
  | frames_step g inp g1 g2 :
      Update inp g = Some g1 ->
      (mode g = ModeGameOver -> keyRJustPressed inp = false) ->
      frames g1 g2 ->
      frames g g2.

(** The speed is at least [S], and at least [S] plus the boost factor
    while a boost is active. *)
Definition floor_ok (S : Q) (g : Game) : Prop :=
  boostFactor g = 2%Q /\ (S <= speed g)%Q
  /\ (isBoosting g = true -> S + 2 <= speed g)%Q.

(** The longest game considered: 10^9 frames, 193 days at 60 frames per
    second.  Within them no counter leaves the range of [int]. *)
Definition maxFrames : Z := 1000000000.

(** The widths of the ship and of a star, together. *)
Definition reach : Z :=
  fst (imageSize shipImage) + fst (imageSize starImage).

(** The star factory yields one of its images, at an [X] within its
    bounds. *)
Definition stars_generated (inp : Input) (g : Game) : Prop :=
  forall f, starFactory g = Some f ->
    Image (GenerateSprite inp f) ∈ Images f
    /\ MinX f <= X (GenerateSprite inp f) <= MaxX f.

(** The states of the sessions in which no game lasts more than
    [maxFrames] frames and the stars come from the star factory. *)
Inductive session : Game -> Prop :=
  | session_new g : newGame = Some g -> session g
  | session_step g inp g' :
      session g ->
      (mode g = ModeGame ->
       frameCount g < maxFrames /\ stars_generated inp g) ->
      Update inp g = Some g' ->
      session g'.

(** Every sprite of the list is at least [reach] pixels left of the
    sprites after it. *)
Fixpoint spaced (l : list Sprite) : Prop :=
  match l with
  | [] => True
  | a :: l' => Forall (fun b => X a + reach <= X b) l' /\ spaced l'
  end.

(** The speed without the boost factor of an active boost, for the speed
    [float64(n)]. *)
Definition baseSpeed (n : Z) (g : Game) : Z :=
  n - (if isBoosting g then 2 else 0).

(** What holds of a listed star when the distance is [d] and the next
    star is due beyond [T]: it has moved [lead] pixels or more since
    it was spawned, and far enough to be [reach] pixels away when the
    next star is spawned. *)
Definition star_ok (lead base T d : Z) (x : Sprite) : Prop :=
  Image x = starImage
  /\ outOfBoundsX < X x <= screenWidth + 100 - lead
  /\ (reach <= base
      \/ 1998 <= 3 * (screenWidth + 100 - X x) + (T - d) + base).

(** What holds of the stars and of the counters at the start of a
    frame. *)
Definition stars_ok (g : Game) : Prop :=
  exists n : Z,
    speed g = inject_Z n /\ boostFactor g = 2%Q
    /\ 1 <= baseSpeed n g
    /\ 0 <= frameCount g <= maxFrames
    /\ n <= 1 + 3 * frameCount g
    /\ 0 <= distanceTravelled g <= (1 + 3 * maxFrames) * frameCount g
    /\ 0 <= starSpawnThreshold g <= 50 + 2000 * frameCount g
    /\ (1998 < baseSpeed n g
        \/ distanceTravelled g <= starSpawnThreshold g)
    /\ 0 <= lastBoostTime g <= gameTime g
    /\ (exists s, ship g = Some s /\ Image s = shipImage)
    /\ slice_wf (stars g)
    /\ spaced (to_list (stars g))
    /\ Forall (star_ok 0 (baseSpeed n g) (starSpawnThreshold g)
                 (distanceTravelled g))
         (to_list (stars g)).

(** ** Properties of the embedding *)

(** *** Machine integers *)

Lemma wrap64_id z : int_min <= z <= int_max -> wrap64 z = z.
Proof.
  unfold int_min, int_max, wrap64. intros Hz.
  rewrite Z.mod_small by lia. lia.
Qed.

Lemma wrap64_range z : int_min <= wrap64 z <= int_max.
Proof.
  unfold int_min, int_max, wrap64.
  pose proof (Z.mod_pos_bound (z + 2 ^ 63) (2 ^ 64)). lia.
Qed.

Lemma wrap64_add_l a b : wrap64 (wrap64 a + b) = wrap64 (a + b).
Proof.
  unfold wrap64. f_equal.
  replace ((a + 2 ^ 63) mod 2 ^ 64 - 2 ^ 63 + b + 2 ^ 63)
    with ((a + 2 ^ 63) mod 2 ^ 64 + b) by lia.
  rewrite Zplus_mod_idemp_l. f_equal. lia.
Qed.

Lemma wrap64_add_r a b : wrap64 (a + wrap64 b) = wrap64 (a + b).
Proof. rewrite Z.add_comm, wrap64_add_l. f_equal. lia. Qed.

(** *** Loops *)

Lemma for_each_app {S X : Type} (body : X -> S -> option S) xs ys s :
  for_each body (xs ++ ys) s = for_each body xs s ≫= for_each body ys.
Proof.
  revert s. induction xs as [|x xs IH]; intros s; simpl; [done|].
  destruct (body x s); simpl; auto.
Qed.

(** A property kept by every iteration is kept by the loop. *)
Lemma for_each_inv {S X : Type} (P : S -> Prop) (body : X -> S -> option S)
    xs s s' :
  (forall x t t', x ∈ xs -> P t -> body x t = Some t' -> P t') ->
  P s -> for_each body xs s = Some s' -> P s'.
Proof.
  revert s. induction xs as [|x xs IH]; intros s Hbody Hs Hrun; simpl in Hrun.
  - by inversion Hrun; subst.
  - destruct (body x s) as [t|] eqn:Hx; [|done].
    apply (IH t); auto.
    + intros y u u' Hy. apply Hbody. by right.
    + apply (Hbody x s); auto. by left.
Qed.

(** Iterations that leave the state alone. *)
Lemma for_each_skip {S X : Type} (body : X -> S -> option S) xs s :
  (forall x, x ∈ xs -> body x s = Some s) -> for_each body xs s = Some s.
Proof.
  induction xs as [|x xs IH]; intros Hbody; simpl; [done|].
  rewrite Hbody by (by left). apply IH. intros y Hy. apply Hbody. by right.
Qed.

(** *** Slices *)

Hypothesis growcap_ok : forall c n, (n <= growcap c n)%nat.

Lemma nil_slice_wf {A : Type} : slice_wf (@nil_slice A).
Proof. split; simpl; lia. Qed.

Lemma len_append {A : Type} (s : slice A) xs :
  len (append growcap s xs) = (len s + length xs)%nat.
Proof. unfold append. by case_decide. Qed.

Lemma append_wf {A : Type} (s : slice A) xs :
  slice_wf s -> slice_wf (append growcap s xs).
Proof.
  intros [H1 H2]. unfold append, slice_wf. case_decide; simpl.
  - rewrite !length_app, length_take, length_drop. lia.
  - rewrite length_app, length_take.
    pose proof (growcap_ok (cap s) (len s + length xs)). lia.
Qed.

Lemma to_list_append {A : Type} (s : slice A) xs :
  slice_wf s -> to_list (append growcap s xs) = to_list s ++ xs.
Proof.
  intros [H1 H2]. unfold append, to_list. case_decide; simpl.
  - rewrite app_assoc, take_app_le by (rewrite length_app, length_take; lia).
    rewrite take_ge; [done|]. rewrite length_app, length_take. lia.
  - rewrite take_ge; [done|]. rewrite length_app, length_take. lia.
Qed.

(** Removing cell [i < len s] shifts the tail down by one, in place. *)
Lemma remove_at_Some {A : Type} (s : slice A) i :
  slice_wf s -> (i < len s)%nat ->
  remove_at growcap s i
  = Some (Slice (take i (arr s)
                   ++ take (len s - S i) (drop (S i) (arr s))
                   ++ drop (len s - 1) (arr s))
                (len s - 1) (cap s)).
Proof.
  intros [H1 H2] Hi. unfold remove_at, slice_to, slice_from.
  rewrite decide_True by lia. simpl. rewrite decide_True by lia. simpl.
  unfold append. simpl.
  assert (Hl : length (take (len s - S i) (drop (S i) (arr s)))
               = (len s - S i)%nat)
    by (rewrite length_take, length_drop; lia).
  rewrite Hl, decide_True by lia.
  replace (i + (len s - S i))%nat with (len s - 1)%nat by lia.
  done.
Qed.

(** Removing a cell at or past the length panics. *)
Lemma remove_at_None {A : Type} (s : slice A) i :
  (len s <= i)%nat -> remove_at growcap s i = None.
Proof.
  intros Hi. unfold remove_at, slice_to, slice_from.
  destruct (decide (i <= cap s)%nat); simpl; [|done].
  by rewrite decide_False by lia.
Qed.

Lemma remove_at_to_list {A : Type} (s s' : slice A) i :
  slice_wf s -> remove_at growcap s i = Some s' ->
  to_list s' = delete i (to_list s) /\ len s' = (len s - 1)%nat
  /\ cap s' = cap s /\ length (arr s') = length (arr s) /\ slice_wf s'
  /\ (i < len s)%nat.
Proof.
  intros Hwf Hrm.
  destruct (decide (i < len s)%nat) as [Hi|Hi];
    [|rewrite remove_at_None in Hrm by lia; done].
  rewrite remove_at_Some in Hrm by done. inversion Hrm; subst; clear Hrm.
  destruct Hwf as [H1 H2]. unfold to_list, slice_wf; simpl.
  assert (Hl : length (take (len s - S i) (drop (S i) (arr s)))
               = (len s - S i)%nat)
    by (rewrite length_take, length_drop; lia).
  assert (Hlen : length (take i (arr s)
                   ++ take (len s - S i) (drop (S i) (arr s))
                   ++ drop (len s - 1) (arr s)) = length (arr s))
    by (rewrite !length_app, Hl, length_take, length_drop; lia).
  rewrite Hlen. repeat split; try lia.
  rewrite app_assoc, take_app_le, take_ge
    by (rewrite length_app, Hl, length_take; lia).
  rewrite delete_take_drop, take_take, skipn_firstn_comm.
  by rewrite Nat.min_l by lia.
Qed.

(** *** The in-place filter *)

Lemma append1_in_place {A : Type} (s : slice A) x :
  (len s < cap s)%nat ->
  append growcap s [x]
  = Slice (take (len s) (arr s) ++ x :: drop (S (len s)) (arr s))
      (S (len s)) (cap s).
Proof.
  intros H. unfold append. simpl. rewrite decide_True by lia.
  by rewrite Nat.add_1_r.
Qed.

Lemma filterInPlace_loop {A : Type} (step : A -> A * bool) (a0 : list A)
    (c k i : nat) (t : slice A) :
  (i + k <= length a0)%nat -> (length a0 <= c)%nat ->
  (len t <= i)%nat -> cap t = c -> length (arr t) = length a0 ->
  to_list t = omap (kept step) (take i a0) ->
  drop i (arr t) = drop i a0 ->
  exists t',
    for_each
      (fun i temp =>
         x ← arr temp !! i;
         let '(x', keep) := step x in
         let temp := set_cell i x' temp in
         Some (if keep then append growcap temp [x'] else temp))
      (seq i k) t = Some t'
    /\ to_list t' = omap (kept step) (take (i + k) a0)
    /\ cap t' = c /\ length (arr t') = length a0
    /\ (len t' <= i + k)%nat.
Proof.
  revert i t.
  induction k as [|k IH]; intros i t Hik Hc Hlen Hcap Harr Hkept Hdrop.
  - exists t. simpl. rewrite Nat.add_0_r. auto.
  - simpl.
    destruct (lookup_lt_is_Some_2 a0 i ltac:(lia)) as [x Hx].
    assert (Hxt : arr t !! i = Some x).
    { rewrite <- (Nat.add_0_r i), <- lookup_drop, Hdrop, lookup_drop.
      by rewrite Nat.add_0_r. }
    rewrite Hxt. simpl. unfold kept in *.
    destruct (step x) as [x' keep] eqn:Hstep.
    replace (i + S k)%nat with (S i + k)%nat by lia.
    assert (Hdrop' : drop (S i) (<[i:=x']> (arr t)) = drop (S i) a0).
    { rewrite drop_insert_lt by lia.
      apply (f_equal (drop 1)) in Hdrop.
      by rewrite !drop_drop, Nat.add_1_r in Hdrop. }
    destruct keep.
    + rewrite append1_in_place by (simpl; lia). simpl.
      apply IH; simpl; try lia.
      * rewrite length_app, length_take. simpl.
        rewrite length_drop, length_insert. lia.
      * unfold to_list in *. simpl.
        rewrite (take_S_r _ _ _ Hx), omap_app. simpl. rewrite Hstep. simpl.
        rewrite <- Hkept, take_insert_ge by lia.
        rewrite cons_middle, app_assoc, take_app_length'; [done|].
        rewrite length_app, length_take. simpl. lia.
      * rewrite cons_middle, app_assoc, drop_app_ge
          by (rewrite length_app, length_take, length_insert; simpl; lia).
        rewrite length_app, length_take, length_insert. simpl.
        rewrite drop_drop. rewrite <- Hdrop'. f_equal. lia.
    + apply IH; simpl; try lia.
      * by rewrite length_insert.
      * unfold to_list in *. simpl.
        rewrite (take_S_r _ _ _ Hx), omap_app. simpl. rewrite Hstep. simpl.
        by rewrite app_nil_r, <- Hkept, take_insert_ge by lia.
      * done.
Qed.

(** The in-place filter returns, and keeps in order the elements whose
    step says so, each in the state the step leaves it in. *)
Lemma filterInPlace_spec {A : Type} (step : A -> A * bool) (s : slice A) :
  slice_wf s ->
  exists t, filterInPlace growcap step s = Some t
    /\ to_list t = omap (kept step) (to_list s)
    /\ slice_wf t /\ cap t = cap s.
Proof.
  intros [H1 H2]. unfold filterInPlace, slice_to.
  rewrite decide_True by lia. simpl. unfold for_range.
  destruct (filterInPlace_loop step (arr s) (cap s) (len s) 0
              (Slice (arr s) 0 (cap s))) as (t & Ht & Hl & Hc & Ha & Hn);
    simpl; auto; try lia.
  exists t. split; [done|]. split; [done|]. split; [|done].
  unfold slice_wf. lia.
Qed.

(** *** updateGround *)

Lemma moveTiles_loop (v : Q) (a0 : list Sprite) (n c k i : nat)
    (t : slice Sprite) :
  (i + k <= length a0)%nat ->
  len t = n -> cap t = c ->
  arr t = map (moveTile v) (take i a0) ++ drop i a0 ->
  for_each
    (fun i tiles =>
       tile ← arr tiles !! i;
       Some (set_cell i (Sprite_Update (set_XVelocity v tile)) tiles))
    (seq i k) t
  = Some (Slice (map (moveTile v) (take (i + k) a0) ++ drop (i + k) a0) n c).
Proof.
  revert i t. induction k as [|k IH]; intros i t Hik Hn Hc Harr; simpl.
  - rewrite Nat.add_0_r, <- Harr, <- Hn, <- Hc. by destruct t.
  - destruct (lookup_lt_is_Some_2 a0 i ltac:(lia)) as [x Hx].
    assert (Hi : length (map (moveTile v) (take i a0)) = i)
      by (rewrite length_map, length_take; lia).
    assert (Hxt : arr t !! i = Some x).
    { rewrite Harr, lookup_app_r by lia.
      rewrite Hi, Nat.sub_diag, lookup_drop. by rewrite Nat.add_0_r. }
    rewrite Hxt. simpl.
    replace (i + S k)%nat with (S i + k)%nat by lia.
    apply IH; simpl; try lia.
    rewrite Harr, insert_app_r_alt by lia.
    rewrite Hi, Nat.sub_diag, (drop_S _ _ _ Hx). simpl.
    rewrite (take_S_r _ _ _ Hx), map_app, <- app_assoc. done.
Qed.

(** Every tile of the row is moved; nothing else changes. *)
Lemma moveTiles_spec (v : Q) (s : slice Sprite) :
  slice_wf s ->
  moveTiles v s
  = Some (Slice (map (moveTile v) (to_list s) ++ drop (len s) (arr s))
            (len s) (cap s)).
Proof.
  intros [H1 H2]. unfold moveTiles, for_range.
  rewrite (moveTiles_loop v (arr s) (len s) (cap s) (len s) 0 s);
    auto; simpl; by rewrite ?drop_0.
Qed.

Lemma moveTile_X v tile :
  X (moveTile v tile) = wrap64 (X tile + displacement v).
Proof. done. Qed.

Lemma contiguous_moved v tiles :
  contiguous tiles -> contiguous (map (moveTile v) tiles).
Proof.
  intros Hc i a b Ha Hb.
  rewrite list_lookup_fmap in Ha, Hb.
  destruct (tiles !! i) as [a0|] eqn:Ha0; [|done].
  destruct (tiles !! S i) as [b0|] eqn:Hb0; [|done].
  simpl in *. inversion Ha; inversion Hb; subst.
  rewrite !moveTile_X, (Hc i a0 b0) by done.
  rewrite !wrap64_add_l. f_equal. lia.
Qed.

Lemma contiguous_recycled tiles (last new : Sprite) (n : nat) :
  contiguous tiles -> length tiles = S (S n) ->
  tiles !! S n = Some last -> X new = wrap64 (X last + imageWidth) ->
  contiguous (drop 1 tiles ++ [new]).
Proof.
  intros Hc Hlen Hlast Hnew i a b Ha Hb.
  assert (Hd : length (drop 1 tiles) = S n) by (rewrite length_drop; lia).
  destruct (decide (S i < S n)%nat) as [Hlt|Hge].
  - rewrite lookup_app_l, lookup_drop in Ha, Hb by lia.
    by apply (Hc (1 + i)%nat).
  - assert (i = n).
    { apply lookup_lt_Some in Hb. rewrite length_app, Hd in Hb.
      simpl in Hb. lia. }
    subst i. rewrite lookup_app_l, lookup_drop in Ha by lia.
    rewrite lookup_app_r, Hd, Nat.sub_diag in Hb by lia.
    simpl in *. congruence.
Qed.

(** The recycling step on a row of at least two tiles. *)
Lemma recycleTile_spec (mk : Z -> Sprite) (s : slice Sprite) :
  slice_wf s -> (2 <= len s)%nat ->
  exists first last s',
    to_list s !! 0%nat = Some first
    /\ to_list s !! (len s - 1)%nat = Some last
    /\ recycleTile mk s = Some s'
    /\ len s' = len s /\ cap s' = cap s /\ slice_wf s'
    /\ to_list s'
       = if X first <=? wrap64 (- imageWidth)
         then drop 1 (to_list s) ++ [mk (wrap64 (X last + imageWidth))]
         else to_list s.
Proof.
  intros Hwf Hlen. pose proof Hwf as [H1 H2].
  destruct (lookup_lt_is_Some_2 (to_list s) 0) as [first Hf];
    [unfold to_list; rewrite length_take; lia|].
  destruct (lookup_lt_is_Some_2 (to_list s) (len s - 1)) as [last Hl];
    [unfold to_list; rewrite length_take; lia|].
  exists first, last. unfold recycleTile, index.
  rewrite decide_True by lia.
  assert (Hf' : arr s !! 0%nat = Some first)
    by (unfold to_list in Hf; by rewrite lookup_take_lt in Hf by lia).
  rewrite Hf'. simpl.
  destruct (X first <=? wrap64 (- imageWidth)) eqn:Hx.
  - destruct (remove_at growcap s 0) as [s1|] eqn:Hrm;
      [|rewrite remove_at_Some in Hrm by (done || lia); done].
    destruct (remove_at_to_list _ _ _ Hwf Hrm)
      as (Hl1 & Hn1 & Hc1 & Ha1 & Hwf1 & _).
    simpl. rewrite decide_True by lia.
    assert (Hlast : arr s1 !! (len s1 - 1)%nat = Some last).
    { assert (H : to_list s1 !! (len s1 - 1)%nat = Some last).
      { rewrite Hl1, Hn1. rewrite list_lookup_delete_ge by lia.
        rewrite <- Hl. f_equal. lia. }
      unfold to_list in H. by rewrite lookup_take_lt in H by lia. }
    rewrite Hlast. simpl. eexists. split; [done|]. split; [done|].
    split; [done|]. rewrite len_append. simpl.
    split; [lia|]. split.
    { unfold append. simpl. rewrite decide_True by lia. simpl. done. }
    split; [by apply append_wf|].
    rewrite to_list_append, Hl1 by done.
    by rewrite delete_take_drop.
  - exists s. repeat (split; [done|]). done.
Qed.

Lemma to_list_length {A : Type} (s : slice A) :
  slice_wf s -> length (to_list s) = len s.
Proof. intros [H1 H2]. unfold to_list. rewrite length_take. lia. Qed.

Lemma moved_slice (v : Q) (s : slice Sprite) :
  slice_wf s ->
  let s1 := Slice (map (moveTile v) (to_list s) ++ drop (len s) (arr s))
              (len s) (cap s) in
  slice_wf s1 /\ to_list s1 = map (moveTile v) (to_list s).
Proof.
  intros Hwf. pose proof (to_list_length s Hwf) as Hl.
  destruct Hwf as [H1 H2]. unfold slice_wf, to_list in *. simpl.
  rewrite length_app, length_map, length_drop, Hl.
  split; [lia|].
  rewrite take_app_length'; [done|]. by rewrite length_map.
Qed.

Lemma row_updated_ok (v : Q) (mk : Z -> Sprite) (s s1 : slice Sprite) :
  ground_ok s ->
  moveTiles v s = Some s1 ->
  (forall x, X (mk x) = x) ->
  exists s', recycleTile mk s1 = Some s'
    /\ row_updated v mk s s' /\ ground_ok s'.
Proof.
  intros (Hwf & Hlen & Hc) Hmv Hmk.
  rewrite moveTiles_spec in Hmv by done. inversion Hmv; subst s1; clear Hmv.
  destruct (moved_slice v s Hwf) as [Hwf1 Hl1].
  destruct (recycleTile_spec mk _ Hwf1 Hlen)
    as (first & last & s2 & Hf & Hl & Hrun & Hn & Hcap & Hwf2 & Hlist).
  simpl in Hn, Hcap, Hl. rewrite Hl1 in Hf, Hl, Hlist.
  exists s2. split; [done|]. split.
  - split; [done|]. split; [done|]. by exists first, last.
  - split; [done|]. split; [lia|]. rewrite Hlist.
    pose proof (contiguous_moved v _ Hc) as Hcm.
    destruct (X first <=? wrap64 (- imageWidth)); [|done].
    apply (contiguous_recycled _ last _ (len s - 2)); auto.
    + rewrite length_map, to_list_length by done. lia.
    + rewrite <- Hl. f_equal. lia.
Qed.

(** updateGround on two rows of at least two contiguous tiles each. *)
Lemma updateGround_ok (g : Game) :
  ground_ok (topGroundTiles g) -> ground_ok (bottomGroundTiles g) ->
  exists g',
    updateGround g = Some g'
    /\ g' = set_bottomGroundTiles (bottomGroundTiles g')
              (set_topGroundTiles (topGroundTiles g') g)
    /\ row_updated (- speed g)%Q (fun x => topTile x g)
         (topGroundTiles g) (topGroundTiles g')
    /\ row_updated (- speed g)%Q (fun x => bottomTile x g)
         (bottomGroundTiles g) (bottomGroundTiles g')
    /\ ground_ok (topGroundTiles g') /\ ground_ok (bottomGroundTiles g').
Proof.
  intros Ht Hb. unfold updateGround.
  destruct (moveTiles (- speed g)%Q (topGroundTiles g)) as [t1|] eqn:Ht1;
    [|rewrite moveTiles_spec in Ht1 by apply Ht; done].
  destruct (moveTiles (- speed g)%Q (bottomGroundTiles g)) as [b1|] eqn:Hb1;
    [|rewrite moveTiles_spec in Hb1 by apply Hb; done].
  destruct (row_updated_ok _ (fun x => topTile x g) _ t1 Ht Ht1)
    as (t2 & Hrt & Hut & Hokt); [done|].
  destruct (row_updated_ok _ (fun x => bottomTile x g) _ b1 Hb Hb1)
    as (b2 & Hrb & Hub & Hokb); [done|].
  simpl. rewrite Hb1. simpl.
  change (recycleTile _ t1) with (recycleTile (fun x => topTile x g) t1).
  rewrite Hrt. simpl.
  change (recycleTile _ b1) with (recycleTile (fun x => bottomTile x g) b1).
  rewrite Hrb. simpl.
  eexists. split; [done|]. simpl. by destruct g.
Qed.

(** *** initializeGround *)

Hypothesis imageWidth_ok : 0 < imageWidth <= 2 ^ 31.

Lemma tileX_eq (k : Z) (g : Game) :
  tileX k g = wrap64 (imageWidth * k - distanceTravelled g).
Proof.
  unfold tileX.
  replace (wrap64 (imageWidth * k) - distanceTravelled g)
    with (wrap64 (imageWidth * k) + - distanceTravelled g) by lia.
  by rewrite wrap64_add_l.
Qed.

Lemma contiguous_initial (mk : Z -> Sprite) (g : Game) (m : Z) :
  (forall x, X (mk x) = x) ->
  contiguous ((fun k => mk (tileX k g)) <$> seqZ 0 m).
Proof.
  intros Hmk i a b Ha Hb. rewrite list_lookup_fmap in Ha, Hb.
  destruct (seqZ 0 m !! i) as [ka|] eqn:Hka; [|done].
  destruct (seqZ 0 m !! S i) as [kb|] eqn:Hkb; [|done].
  apply lookup_seqZ in Hka as [-> _]. apply lookup_seqZ in Hkb as [-> _].
  simpl in *. inversion Ha; inversion Hb; subst. rewrite !Hmk.
  rewrite !tileX_eq, wrap64_add_l. f_equal. lia.
Qed.

Lemma groundLoop_spec (g0 : Game) (fuel n : nat) (t b : slice Sprite) :
  Z.of_nat n <= 1030 -> 1031 <= Z.of_nat fuel + Z.of_nat n ->
  slice_wf t -> slice_wf b ->
  to_list t = (fun k => topTile (tileX k g0) g0) <$> seqZ 0 (Z.of_nat n) ->
  to_list b = (fun k => bottomTile (tileX k g0) g0) <$> seqZ 0 (Z.of_nat n) ->
  exists (m : nat) (t' b' : slice Sprite),
    groundLoop fuel (Z.of_nat n)
      (set_bottomGroundTiles b (set_topGroundTiles t g0))
    = Some (set_bottomGroundTiles b' (set_topGroundTiles t' g0))
    /\ (n <= m)%nat
    /\ screenWidth + imageWidth * 2 <= Z.of_nat m * imageWidth
    /\ slice_wf t' /\ slice_wf b'
    /\ to_list t'
       = (fun k => topTile (tileX k g0) g0) <$> seqZ 0 (Z.of_nat m)
    /\ to_list b'
       = (fun k => bottomTile (tileX k g0) g0) <$> seqZ 0 (Z.of_nat m).
Proof.
  revert n t b.
  induction fuel as [|fuel IH]; intros n t b Hn Hfuel Hwt Hwb Ht Hb; [lia|].
  simpl.
  assert (Hw : wrap64 (imageWidth * 2) = imageWidth * 2)
    by (apply wrap64_id; unfold int_min, int_max; lia).
  assert (Hi : wrap64 (Z.of_nat n * imageWidth) = Z.of_nat n * imageWidth)
    by (apply wrap64_id; unfold int_min, int_max; nia).
  assert (Hs : wrap64 (screenWidth + imageWidth * 2)
               = screenWidth + imageWidth * 2)
    by (apply wrap64_id; unfold int_min, int_max, screenWidth; lia).
  rewrite Hw, Hi, Hs.
  destruct (Z.of_nat n * imageWidth <? screenWidth + imageWidth * 2) eqn:Hc.
  - apply Z.ltb_lt in Hc.
    assert (Hn' : Z.of_nat n < 1030) by (unfold screenWidth in Hc; nia).
    replace (wrap64 (Z.of_nat n + 1)) with (Z.of_nat (S n))
      by (rewrite wrap64_id; unfold int_min, int_max; lia).
    destruct (IH (S n)
                (append growcap t [topTile (tileX (Z.of_nat n) g0) g0])
                (append growcap b [bottomTile (tileX (Z.of_nat n) g0) g0]))
      as (m & t' & b' & Hrun & Hm & Hend & Hwt' & Hwb' & Ht' & Hb');
      try lia; try (by apply append_wf).
    + rewrite to_list_append, Ht, seqZ_S, fmap_app by done. done.
    + rewrite to_list_append, Hb, seqZ_S, fmap_app by done. done.
    + exists m, t', b'. split; [exact Hrun|]. repeat (split; [done || lia|]).
      done.
  - apply Z.ltb_ge in Hc. exists n, t, b. repeat (split; [done || lia|]).
    done.
Qed.

(** For an image width between 1 and 2^31 initializeGround returns: both
    rows hold the same number [m >= 3] of tiles, the least that covers
    the screen and two more widths, tile [k] at [tileX k]. *)
Lemma initializeGround_spec (g : Game) :
  exists (m : nat) (t b : slice Sprite),
    initializeGround g
    = Some (set_bottomGroundTiles b (set_topGroundTiles t g))
    /\ (3 <= m)%nat
    /\ slice_wf t /\ slice_wf b /\ len t = m /\ len b = m
    /\ to_list t = (fun k => topTile (tileX k g) g) <$> seqZ 0 (Z.of_nat m)
    /\ to_list b
       = (fun k => bottomTile (tileX k g) g) <$> seqZ 0 (Z.of_nat m).
Proof.
  unfold initializeGround.
  assert (Hfuel : 1031 <= Z.of_nat groundFuel + Z.of_nat 0)
    by (unfold groundFuel; lia).
  generalize dependent groundFuel. intros fuel Hfuel.
  destruct (groundLoop_spec g fuel 0 nil_slice nil_slice)
    as (m & t & b & Hrun & Hm & Hend & Hwt & Hwb & Ht & Hb);
    try lia; try apply nil_slice_wf; try done.
  exists m, t, b.
  split; [exact Hrun|].
  split; [unfold screenWidth in Hend; nia|].
  repeat (split; [done|]).
  rewrite <- (to_list_length t), <- (to_list_length b), Ht, Hb by done.
  rewrite !length_fmap, !length_seqZ. split; [lia|]. split; [lia|done].
Qed.

Lemma initializeGround_ok (g g' : Game) :
  initializeGround g = Some g' ->
  g' = set_bottomGroundTiles (bottomGroundTiles g')
         (set_topGroundTiles (topGroundTiles g') g)
  /\ ground_ok (topGroundTiles g') /\ ground_ok (bottomGroundTiles g').
Proof.
  destruct (initializeGround_spec g)
    as (m & t & b & Hrun & Hm & Hwt & Hwb & Hlt & Hlb & Ht & Hb).
  rewrite Hrun. intros H; inversion H; subst g'; clear H. simpl.
  split; [done|]. unfold ground_ok. rewrite Ht, Hb.
  split; (split; [done|]; split; [lia|]).
  - by apply (contiguous_initial (fun x => topTile x g)).
  - by apply (contiguous_initial (fun x => bottomTile x g)).
Qed.

(** *** Which fields each part of the frame writes *)

Lemma obstacle_frame_refl g : obstacle_frame g g.
Proof. by destruct g. Qed.

Lemma obstacle_frame_trans g t u :
  obstacle_frame g t -> obstacle_frame t u -> obstacle_frame g u.
Proof.
  unfold obstacle_frame. intros H1 H2. rewrite H2, H1. reflexivity.
Qed.

Lemma asteroid_frame_refl g : asteroid_frame g g.
Proof. by destruct g. Qed.

Lemma asteroid_frame_trans g t u :
  asteroid_frame g t -> asteroid_frame t u -> asteroid_frame g u.
Proof.
  unfold asteroid_frame. intros H1 H2. rewrite H2, H1. reflexivity.
Qed.

Lemma asteroid_frame_obstacle g t : asteroid_frame g t -> obstacle_frame g t.
Proof.
  unfold asteroid_frame, obstacle_frame. intros H. rewrite H. reflexivity.
Qed.

Lemma star_frame_refl g : star_frame g g.
Proof. by destruct g. Qed.

Lemma star_frame_trans g t u :
  star_frame g t -> star_frame t u -> star_frame g u.
Proof.
  unfold star_frame. intros H1 H2. rewrite H2, H1. reflexivity.
Qed.

Lemma destroyAsteroid_frame inp i a g g' :
  destroyAsteroid inp i a g = Some g' -> asteroid_frame g g'.
Proof.
  unfold destroyAsteroid. simpl.
  destruct (remove_at growcap (asteroids g) i); simpl; [|done].
  intros H; inversion H. by destruct g.
Qed.

Lemma asteroidsAgainst_frame inp o g g' :
  asteroidsAgainst inp o g = Some g' -> asteroid_frame g g'.
Proof.
  unfold asteroidsAgainst, for_range.
  apply (for_each_inv (asteroid_frame g)); [|apply asteroid_frame_refl].
  intros i t t' _ Ht. destruct (arr (asteroids t) !! i) as [a|]; [|done].
  simpl. destruct (Sprite_IsColliding a o).
  - intros H. eapply asteroid_frame_trans; [exact Ht|].
    by eapply destroyAsteroid_frame.
  - by intros [= <-].
Qed.

Lemma obstacleCollisions_frame inp os g g' :
  obstacleCollisions inp os g = Some g' -> obstacle_frame g g'.
Proof.
  unfold obstacleCollisions.
  apply (for_each_inv (obstacle_frame g)); [|apply obstacle_frame_refl].
  intros o t t' _ Ht. destruct (ship t) as [s|]; [|done]. simpl.
  intros H. apply asteroidsAgainst_frame, asteroid_frame_obstacle in H.
  eapply obstacle_frame_trans; [exact Ht|].
  eapply obstacle_frame_trans; [|exact H].
  destruct (Sprite_IsColliding s o); by destruct t.
Qed.

Lemma asteroidCollisions_frame inp g g' :
  asteroidCollisions inp g = Some g' -> obstacle_frame g g'.
Proof.
  unfold asteroidCollisions, for_range.
  apply (for_each_inv (obstacle_frame g)); [|apply obstacle_frame_refl].
  intros i t t' _ Ht. destruct (arr (asteroids t) !! i) as [a|]; [|done].
  simpl.
  assert (Hd : forall u, match shield t with
                         | Some sh =>
                             if Sprite_IsColliding sh a
                             then destroyAsteroid inp i a t
                             else Some t
                         | None => Some t
                         end = Some u -> obstacle_frame t u).
  { intros u. destruct (shield t) as [sh|]; [|by intros [= <-]; destruct t].
    destruct (Sprite_IsColliding sh a);
      [intros H; by eapply asteroid_frame_obstacle, destroyAsteroid_frame|].
    intros [= <-]. by destruct t. }
  destruct (match shield t with Some _ => _ | None => _ end) as [u|];
    [|done].
  specialize (Hd u eq_refl). simpl.
  destruct (ship u) as [s|]; [|done]. simpl. intros [= <-].
  eapply obstacle_frame_trans; [exact Ht|].
  eapply obstacle_frame_trans; [exact Hd|].
  destruct (Sprite_IsColliding s a); by destruct u.
Qed.

Lemma starCollisions_frame g g' :
  starCollisions g = Some g' -> star_frame g g'.
Proof.
  unfold starCollisions, for_range.
  apply (for_each_inv (star_frame g)); [|apply star_frame_refl].
  intros i t t' _ Ht. destruct (arr (stars t) !! i) as [a|]; [|done].
  simpl. destruct (ship t) as [s|]; [|done]. simpl.
  destruct (Sprite_IsColliding s a); [|by intros [= <-]].
  destruct (remove_at growcap (stars t) i); [|done]. simpl.
  intros [= <-]. eapply star_frame_trans; [exact Ht|]. by destruct t.
Qed.

Lemma filterInPlace_Some_wf {A : Type} (step : A -> A * bool) (s t : slice A) :
  slice_wf s -> filterInPlace growcap step s = Some t ->
  to_list t = omap (kept step) (to_list s) /\ slice_wf t /\ cap t = cap s.
Proof.
  intros Hwf Hrun. destruct (filterInPlace_spec step s Hwf) as (t' & Ht & H).
  rewrite Hrun in Ht. by inversion Ht; subst.
Qed.

Lemma shipMovement_frame inp g g' :
  shipMovement inp g = Some g' -> g' = set_ship (ship g') g.
Proof.
  unfold shipMovement. destruct (ship g); [|done]. simpl.
  intros [= <-]. by destruct g.
Qed.

Lemma checkShieldOn_frame g g' :
  checkShieldOn g = Some g' -> g' = set_shield (shield g') g.
Proof.
  unfold checkShieldOn. destruct (isBoosting g).
  - destruct (ship g); [|done]. simpl. intros [= <-]. by destruct g.
  - intros [= <-]. by destruct g.
Qed.

Lemma updateGround_frame g g' :
  updateGround g = Some g' ->
  g' = set_bottomGroundTiles (bottomGroundTiles g')
         (set_topGroundTiles (topGroundTiles g') g).
Proof.
  unfold updateGround.
  destruct (moveTiles _ (topGroundTiles g)) as [t1|]; [|done]. simpl.
  destruct (moveTiles _ (bottomGroundTiles g)) as [b1|]; [|done]. simpl.
  destruct (recycleTile _ t1) as [t2|]; [|done]. simpl.
  destruct (recycleTile _ b1) as [b2|]; [|done]. simpl.
  intros [= <-]. by destruct g.
Qed.

Lemma updateSpires_frame g g' :
  updateSpires g = Some g' -> g' = set_spires (spires g') g.
Proof.
  unfold updateSpires. destruct (filterInPlace _ _ _); [|done]. simpl.
  intros [= <-]. by destruct g.
Qed.

Lemma updateAsteroids_frame g g' :
  updateAsteroids g = Some g' -> g' = set_asteroids (asteroids g') g.
Proof.
  unfold updateAsteroids. destruct (filterInPlace _ _ _); [|done]. simpl.
  intros [= <-]. by destruct g.
Qed.

Lemma updateStars_frame g g' :
  updateStars g = Some g' -> g' = set_stars (stars g') g.
Proof.
  unfold updateStars. destruct (filterInPlace _ _ _); [|done]. simpl.
  intros [= <-]. by destruct g.
Qed.

Lemma spawnSpire_frame inp g g' :
  spawnSpire inp g = Some g' ->
  g' = set_spireSpawnThreshold (spireSpawnThreshold g')
         (set_spires (spires g') g).
Proof.
  unfold spawnSpire.
  destruct (distanceTravelled g >? spireSpawnThreshold g);
    [|by intros [= <-]; destruct g].
  destruct (Z.rem (randIntn2 inp) 2 =? 0).
  - destruct (topSpireFactory g); [|done]. simpl.
    intros [= <-]. by destruct g.
  - destruct (bottomSpireFactory g); [|done]. simpl.
    intros [= <-]. by destruct g.
Qed.

Lemma spawnAsteroid_frame inp g g' :
  spawnAsteroid inp g = Some g' ->
  g' = set_asteroidSpawnThreshold (asteroidSpawnThreshold g')
         (set_asteroids (asteroids g') g).
Proof.
  unfold spawnAsteroid.
  destruct (distanceTravelled g >? asteroidSpawnThreshold g);
    [|by intros [= <-]; destruct g].
  destruct (asteroidFactory g); [|done]. simpl.
  destruct (index _ _); [|done]. simpl.
  intros [= <-]. by destruct g.
Qed.

Lemma spawnStar_frame inp g g' :
  spawnStar inp g = Some g' ->
  g' = set_starSpawnThreshold (starSpawnThreshold g')
         (set_stars (stars g') g).
Proof.
  unfold spawnStar.
  destruct (distanceTravelled g >? starSpawnThreshold g);
    [|by intros [= <-]; destruct g].
  destruct (starFactory g); [|done]. simpl.
  intros [= <-]. by destruct g.
Qed.

Lemma sweepExplosions_frame g g' :
  sweepExplosions g = Some g' ->
  g' = set_asteroidExplosions (asteroidExplosions g') g.
Proof.
  unfold sweepExplosions. destruct (filterInPlace _ _ _); [|done]. simpl.
  intros [= <-]. by destruct g.
Qed.

Lemma core_fields (g g' : Game) :
  core g' = core g ->
  mode g' = mode g /\ distanceTravelled g' = distanceTravelled g
  /\ speed g' = speed g /\ boostFactor g' = boostFactor g
  /\ isBoosting g' = isBoosting g /\ lastBoostTime g' = lastBoostTime g
  /\ topGroundTiles g' = topGroundTiles g
  /\ bottomGroundTiles g' = bottomGroundTiles g
  /\ frameCount g' = frameCount g.
Proof. unfold core. intros [=]. done. Qed.

Lemma beforeGround_core inp g g' :
  beforeGround inp g = Some g' -> core g' = core (advanceCounters g).
Proof.
  unfold beforeGround.
  destruct (shipMovement inp (advanceCounters g)) as [g1|] eqn:H1; [|done].
  simpl. intros H2.
  apply shipMovement_frame in H1. apply checkShieldOn_frame in H2.
  rewrite H2, H1. reflexivity.
Qed.

Lemma afterGround_core g g' :
  (g1 ← updateSpires g; g2 ← updateAsteroids g1; updateStars g2)
  = Some g' ->
  core g' = core g /\ ship g' = ship g /\ shield g' = shield g.
Proof.
  destruct (updateSpires g) as [g1|] eqn:H1; [|done]. simpl.
  destruct (updateAsteroids g1) as [g2|] eqn:H2; [|done]. simpl.
  intros H3.
  apply updateSpires_frame in H1. apply updateAsteroids_frame in H2.
  apply updateStars_frame in H3.
  rewrite H3, H2, H1. done.
Qed.

Lemma afterCollisions_core inp g g' :
  afterCollisions inp g = Some g' ->
  mode g' = mode g /\ distanceTravelled g' = distanceTravelled g
  /\ speed g' = speed g /\ boostFactor g' = boostFactor g
  /\ isBoosting g' = isBoosting g /\ lastBoostTime g' = lastBoostTime g
  /\ topGroundTiles g' = topGroundTiles g
  /\ bottomGroundTiles g' = bottomGroundTiles g
  /\ frameCount g' = wrap64 (frameCount g + 1).
Proof.
  unfold afterCollisions.
  destruct (spawnSpire inp g) as [g1|] eqn:H1; [|done]. simpl.
  destruct (spawnAsteroid inp g1) as [g2|] eqn:H2; [|done]. simpl.
  destruct (spawnStar inp g2) as [g3|] eqn:H3; [|done]. simpl.
  destruct (sweepExplosions g3) as [g4|] eqn:H4; [|done]. simpl.
  intros [= <-].
  apply spawnSpire_frame in H1. apply spawnAsteroid_frame in H2.
  apply spawnStar_frame in H3. apply sweepExplosions_frame in H4.
  simpl. rewrite H4, H3, H2, H1. done.
Qed.

Lemma checkCollisions_phases inp g g' :
  checkCollisions inp g = Some g' ->
  exists ga, obstacle_frame g ga /\ star_frame ga g'
    /\ starCollisions ga = Some g'.
Proof.
  unfold checkCollisions.
  destruct (obstacleCollisions inp _ g) as [g1|] eqn:H1; [|done]. simpl.
  destruct (obstacleCollisions inp _ g1) as [g2|] eqn:H2; [|done]. simpl.
  destruct (obstacleCollisions inp _ g2) as [g3|] eqn:H3; [|done]. simpl.
  destruct (asteroidCollisions inp g3) as [g4|] eqn:H4; [|done]. simpl.
  intros H5. exists g4. split; [|split; [by apply starCollisions_frame|done]].
  apply obstacleCollisions_frame in H1, H2, H3.
  apply asteroidCollisions_frame in H4.
  eauto using obstacle_frame_trans.
Qed.

(** *** The boost state *)

Lemma speed_ok_same (g g' : Game) :
  boostFactor g' = boostFactor g -> speed g' = speed g ->
  isBoosting g' = isBoosting g -> speed_ok g -> speed_ok g'.
Proof. unfold speed_ok. by intros -> -> ->. Qed.

Lemma advanceCounters_speed_ok g : speed_ok g -> speed_ok (advanceCounters g).
Proof.
  intros (Hbf & Hs & Hb). unfold advanceCounters. simpl.
  destruct (wrap64 (distanceTravelled g + int_of_float (speed g))
            >? speedIncreaseThreshold g); simpl;
    (destruct (isBoosting g) eqn:Hboost; simpl;
     [specialize (Hb eq_refl);
      match goal with |- context [if ?c then _ else _] => destruct c end|]);
    unfold speed_ok; simpl; rewrite ?Hbf;
    (split; [done|]; split; [lra|]; intros Hx; try congruence; lra).
Qed.

Lemma starCollisions_speed_ok g g' :
  starCollisions g = Some g' -> speed_ok g -> speed_ok g'.
Proof.
  unfold starCollisions, for_range. intros Hrun Hok. revert Hrun.
  apply (for_each_inv speed_ok); [|done].
  intros i t t' _ (Hbf & Hs & Hb).
  destruct (arr (stars t) !! i) as [a|]; [|done]. simpl.
  destruct (ship t) as [s|]; [|done]. simpl.
  destruct (Sprite_IsColliding s a); [|by intros [= <-]].
  destruct (remove_at growcap (stars t) i); [|done]. simpl.
  intros [= <-]. unfold speed_ok. simpl. rewrite Hbf.
  split; [done|]. split; [|intros _]; lra.
Qed.

Lemma checkCollisions_speed_ok inp g g' :
  checkCollisions inp g = Some g' -> speed_ok g -> speed_ok g'.
Proof.
  intros Hrun Hok.
  destruct (checkCollisions_phases _ _ _ Hrun) as (ga & Hf & _ & Hstars).
  apply (starCollisions_speed_ok ga); [done|].
  apply (speed_ok_same g); try done; by rewrite Hf.
Qed.

Lemma updateGame_phases inp g g' :
  updateGame inp g = Some g' ->
  exists gb gc gd,
    beforeGround inp g = Some gb /\ updateGround gb = Some gc
    /\ beforeCollisions inp g = Some gd
    /\ core gb = core (advanceCounters g)
    /\ core gd = core gc /\ ship gd = ship gc /\ shield gd = shield gc
    /\ exists ge, checkCollisions inp gd = Some ge
         /\ afterCollisions inp ge = Some g'.
Proof.
  unfold updateGame, beforeCollisions.
  destruct (beforeGround inp g) as [gb|] eqn:Hb; [|done]. simpl.
  destruct (updateGround gb) as [gc|] eqn:Hc; [|done]. simpl.
  destruct (g1 ← updateSpires gc; g2 ← updateAsteroids g1; updateStars g2)
    as [gd|] eqn:Hd; [|done].
  simpl. destruct (checkCollisions inp gd) as [ge|] eqn:He; [|done]. simpl.
  intros Ha. exists gb, gc, gd.
  destruct (afterGround_core _ _ Hd) as (H1 & H2 & H3).
  split; [done|]. split; [done|]. split; [done|].
  split; [by apply (beforeGround_core inp)|].
  split; [done|]. split; [done|]. split; [done|]. by exists ge.
Qed.

Lemma updateGame_speed_ok inp g g' :
  updateGame inp g = Some g' -> speed_ok g -> speed_ok g'.
Proof.
  intros Hrun Hok.
  destruct (updateGame_phases _ _ _ Hrun)
    as (gb & gc & gd & Hb & Hc & _ & Hcb & Hcd & _ & _ & ge & He & Ha).
  apply afterCollisions_core in Ha as (_ & _ & Hs & Hbf & Hboost & _).
  apply (speed_ok_same ge); try done.
  apply (checkCollisions_speed_ok _ _ _ He).
  apply updateGround_frame in Hc.
  apply core_fields in Hcb as (_ & _ & Hs1 & Hbf1 & Hboost1 & _).
  apply core_fields in Hcd as (_ & _ & Hs2 & Hbf2 & Hboost2 & _).
  apply (speed_ok_same (advanceCounters g));
    [| | |by apply advanceCounters_speed_ok].
  - rewrite Hbf2, Hc. simpl. done.
  - rewrite Hs2, Hc. simpl. done.
  - rewrite Hboost2, Hc. simpl. done.
Qed.

(** *** resetGame *)

Lemma resetGame_spec (g : Game) :
  exists t b,
    resetGame g = Some (initialState (mode g) (boostSeconds g) t b)
    /\ ground_ok t /\ ground_ok b.
Proof.
  unfold resetGame.
  match goal with
  | |- context [initializeGround ?g0] =>
      destruct (initializeGround_spec g0)
        as (m & t & b & Hrun & Hm & Hwt & Hwb & Hlt & Hlb & Ht & Hb);
      pose proof (initializeGround_ok g0 _ Hrun) as (_ & Hokt & Hokb);
      rewrite Hrun
  end.
  clear Hrun. exists t, b. split; [reflexivity|done].
Qed.

(** *** Invariants of the reachable states *)

Opaque groundFuel.

Lemma groundLoop_frame fuel i g g' :
  groundLoop fuel i g = Some g' ->
  g' = set_bottomGroundTiles (bottomGroundTiles g')
         (set_topGroundTiles (topGroundTiles g') g).
Proof.
  revert i g. induction fuel as [|fuel IH]; intros i g; simpl; [done|].
  destruct (_ <? _).
  - intros H. apply IH in H. rewrite H. reflexivity.
  - intros [= <-]. by destruct g.
Qed.

Lemma resetGame_counters g g' :
  resetGame g = Some g' ->
  mode g' = mode g /\ distanceTravelled g' = 0 /\ speed g' = 1%Q
  /\ speedIncreaseThreshold g' = 500 /\ boostFactor g' = 2%Q
  /\ isBoosting g' = false /\ lastBoostTime g' = 0
  /\ spireSpawnThreshold g' = 600 /\ asteroidSpawnThreshold g' = 200
  /\ starSpawnThreshold g' = 50 /\ frameCount g' = 0
  /\ spires g' = nil_slice /\ asteroids g' = nil_slice
  /\ stars g' = nil_slice /\ asteroidExplosions g' = nil_slice
  /\ shield g' = None.
Proof.
  unfold resetGame, initializeGround.
  match goal with
  | |- context [groundLoop ?f ?i ?g0] =>
      destruct (groundLoop f i g0) as [g1|] eqn:Hrun; [|done];
      apply groundLoop_frame in Hrun
  end.
  simpl. intros [= <-]. simpl. rewrite Hrun. simpl. done.
Qed.

Lemma int_zero_range : int_min <= 0 <= int_max.
Proof. unfold int_min, int_max. lia. Qed.

Lemma advanceCounters_distance g :
  distanceTravelled (advanceCounters g)
  = wrap64 (distanceTravelled g + int_of_float (speed g)).
Proof.
  unfold advanceCounters. simpl.
  destruct (_ >? _); simpl; destruct (isBoosting g); simpl; try done;
    by destruct (_ >? _).
Qed.

Lemma advanceCounters_tiles g :
  topGroundTiles (advanceCounters g) = topGroundTiles g
  /\ bottomGroundTiles (advanceCounters g) = bottomGroundTiles g
  /\ mode (advanceCounters g) = mode g.
Proof.
  unfold advanceCounters. simpl.
  destruct (_ >? _); simpl; destruct (isBoosting g); simpl; try done;
    by destruct (_ >? _).
Qed.

Lemma checkCollisions_core inp g g' :
  checkCollisions inp g = Some g' ->
  distanceTravelled g' = distanceTravelled g
  /\ topGroundTiles g' = topGroundTiles g
  /\ bottomGroundTiles g' = bottomGroundTiles g
  /\ boostFactor g' = boostFactor g /\ frameCount g' = frameCount g
  /\ ship g' = ship g /\ shield g' = shield g /\ spires g' = spires g.
Proof.
  intros Hrun.
  destruct (checkCollisions_phases _ _ _ Hrun) as (ga & Hf & Hs & _).
  rewrite Hs, Hf. done.
Qed.

Lemma updateGame_distance inp g g' :
  updateGame inp g = Some g' ->
  distanceTravelled g'
  = wrap64 (distanceTravelled g + int_of_float (speed g)).
Proof.
  intros Hrun.
  destruct (updateGame_phases _ _ _ Hrun)
    as (gb & gc & gd & Hb & Hc & _ & Hcb & Hcd & _ & _ & ge & He & Ha).
  apply afterCollisions_core in Ha as (_ & -> & _).
  apply checkCollisions_core in He as (-> & _).
  apply core_fields in Hcd as (_ & -> & _).
  apply updateGround_frame in Hc. rewrite Hc. simpl.
  apply core_fields in Hcb as (_ & -> & _).
  apply advanceCounters_distance.
Qed.

Lemma Update_counters_ok inp g g' :
  Update inp g = Some g' -> counters_ok g -> counters_ok g'.
Proof.
  unfold Update, counters_ok. intros Hrun [Hs Hd].
  destruct (mode g).
  - destruct (keySpaceJustPressed inp); by inversion Hrun; subst.
  - split; [by eapply updateGame_speed_ok|].
    rewrite (updateGame_distance _ _ _ Hrun). apply wrap64_range.
  - destruct (keyRJustPressed inp); [|by inversion Hrun; subst].
    destruct (resetGame g) as [g1|] eqn:Hreset; [|done].
    simpl in Hrun. inversion Hrun; subst; clear Hrun.
    apply resetGame_counters in Hreset
      as (_ & Hdist & Hsp & _ & Hbf & Hb & _).
    unfold speed_ok. simpl. rewrite Hdist, Hsp, Hbf, Hb.
    split; [|apply int_zero_range]. split; [done|]. split; [lra|done].
Qed.

Lemma reachable_counters_ok g : reachable g -> counters_ok g.
Proof.
  induction 1 as [g Hnew|g inp g' _ IH Hstep].
  - apply resetGame_counters in Hnew as (_ & Hdist & Hsp & _ & Hbf & Hb & _).
    unfold counters_ok, speed_ok. rewrite Hdist, Hsp, Hbf, Hb.
    split; [|apply int_zero_range]. split; [done|]. split; [lra|done].
  - by eapply Update_counters_ok.
Qed.

Lemma updateGame_ground_ok inp g g' :
  updateGame inp g = Some g' ->
  ground_ok (topGroundTiles g) -> ground_ok (bottomGroundTiles g) ->
  ground_ok (topGroundTiles g') /\ ground_ok (bottomGroundTiles g').
Proof.
  intros Hrun Ht Hb.
  destruct (updateGame_phases _ _ _ Hrun)
    as (gb & gc & gd & Hgb & Hc & _ & Hcb & Hcd & _ & _ & ge & He & Ha).
  apply afterCollisions_core in Ha as (_ & _ & _ & _ & _ & _ & -> & -> & _).
  apply checkCollisions_core in He as (_ & -> & -> & _).
  apply core_fields in Hcd as (_ & _ & _ & _ & _ & _ & -> & -> & _).
  apply core_fields in Hcb as (_ & _ & _ & _ & _ & _ & Htb & Hbb & _).
  destruct (advanceCounters_tiles g) as (Hta & Hba & _).
  rewrite Hta in Htb. rewrite Hba in Hbb.
  destruct (updateGround_ok gb) as (gc' & Hc' & _ & _ & _ & Hokt & Hokb);
    [by rewrite Htb|by rewrite Hbb|].
  rewrite Hc in Hc'. by inversion Hc'; subst.
Qed.

Lemma reachable_ground_ok g :
  reachable g ->
  ground_ok (topGroundTiles g) /\ ground_ok (bottomGroundTiles g).
Proof.
  induction 1 as [g Hnew|g inp g' _ [IHt IHb] Hstep].
  - unfold newGame, init in Hnew.
    destruct (resetGame_spec zeroGame) as (t & b & Hrun & Ht & Hb).
    rewrite Hrun in Hnew. by inversion Hnew; subst.
  - unfold Update in Hstep. destruct (mode g).
    + destruct (keySpaceJustPressed inp); by inversion Hstep; subst.
    + by eapply updateGame_ground_ok.
    + destruct (keyRJustPressed inp); [|by inversion Hstep; subst].
      destruct (resetGame_spec g) as (t & b & Hrun & Ht & Hb).
      rewrite Hrun in Hstep. by inversion Hstep; subst.
Qed.

(** ** The properties of the specification *)

(** C9.  In every reachable state the speed is at least 1.  The speed
    starts at 1, the boost factor is always 2, and while a boost is active
    the speed is at least 3, so the single subtraction of the boost factor
    at the expiry of the boost leaves at least 1. *)
Theorem speed_at_least_one (g : Game) :
  reachable g ->
  (1 <= speed g)%Q
  /\ boostFactor g = 2%Q
  /\ (isBoosting g = true -> 3 <= speed g)%Q.
Proof.
  intros Hr. destruct (reachable_counters_ok g Hr) as [(Hbf & Hs & Hb) _].
  auto.
Qed.

Lemma truncate_nonneg (f : Q) : (0 <= f)%Q -> 0 <= truncate f.
Proof.
  intros Hf. apply Z.quot_pos; [|lia].
  unfold Qle in Hf. simpl in Hf. lia.
Qed.

Lemma Update_distance_step inp g g' :
  counters_ok g -> mode g = ModeGame ->
  distanceTravelled g + truncate (speed g) <= int_max ->
  Update inp g = Some g' ->
  distanceTravelled g <= distanceTravelled g'.
Proof.
  intros [(_ & Hs & _) Hd] Hmode Hmax Hrun.
  unfold Update in Hrun. rewrite Hmode in Hrun.
  rewrite (updateGame_distance _ _ _ Hrun).
  unfold int_of_float. rewrite wrap64_add_r.
  pose proof (truncate_nonneg (speed g) ltac:(lra)).
  rewrite wrap64_id; lia.
Qed.

Lemma game_run_reachable g g' : reachable g -> game_run g g' -> reachable g'.
Proof.
  intros Hr Hrun. induction Hrun as [|g inp g1 g2 _ _ Hstep _ IH]; [done|].
  apply IH. by eapply reachable_step.
Qed.

(** C4.  Along every run of Game-mode frames from a reachable state the
    distance travelled does not decrease, as long as the counter stays in
    the range of [int]; and the frame that restarts from GameOver leaves
    the distance at 0. *)
Theorem distance_monotone :
  (forall g g', reachable g -> game_run g g' ->
     distanceTravelled g <= distanceTravelled g')
  /\ (forall inp g g',
        mode g = ModeGameOver -> keyRJustPressed inp = true ->
        Update inp g = Some g' -> distanceTravelled g' = 0).
Proof.
  split.
  - intros g g' Hr Hrun.
    induction Hrun as [|g inp g1 g2 Hmode Hmax Hstep _ IH]; [lia|].
    transitivity (distanceTravelled g1).
    + eapply Update_distance_step; eauto using reachable_counters_ok.
    + apply IH. by eapply reachable_step.
  - intros inp g g' Hmode Hkey Hrun. unfold Update in Hrun.
    rewrite Hmode, Hkey in Hrun.
    destruct (resetGame g) as [g1|] eqn:Hreset; [|done].
    simpl in Hrun. inversion Hrun; subst; clear Hrun. simpl.
    by apply resetGame_counters in Hreset as (_ & Hdist & _).
Qed.

(** C3.  In the frame played from a reachable state, updateGround returns;
    each row of ground tiles keeps its length and its backing array; when
    the moved leading tile is at or left of [-imageWidth] it leaves the row
    and a tile enters at the trailing end at the last tile's [X] plus
    [imageWidth]; and consecutive tiles are one image width apart, before
    and after. *)
Theorem ground_ring_buffer (inp : Input) (g gb : Game) :
  reachable g -> mode g = ModeGame -> beforeGround inp g = Some gb ->
  exists gc,
    updateGround gb = Some gc
    /\ row_updated (- speed gb)%Q (fun x => topTile x gb)
         (topGroundTiles g) (topGroundTiles gc)
    /\ row_updated (- speed gb)%Q (fun x => bottomTile x gb)
         (bottomGroundTiles g) (bottomGroundTiles gc)
    /\ contiguous (to_list (topGroundTiles g))
    /\ contiguous (to_list (bottomGroundTiles g))
    /\ contiguous (to_list (topGroundTiles gc))
    /\ contiguous (to_list (bottomGroundTiles gc)).
Proof.
  intros Hr _ Hb. destruct (reachable_ground_ok g Hr) as [Ht Hbt].
  apply beforeGround_core, core_fields in Hb
    as (_ & _ & _ & _ & _ & _ & Htb & Hbb & _).
  destruct (advanceCounters_tiles g) as (Hta & Hba & _).
  rewrite Hta in Htb. rewrite Hba in Hbb.
  destruct (updateGround_ok gb) as (gc & Hc & _ & Hut & Hub & Hokt & Hokb);
    [by rewrite Htb|by rewrite Hbb|].
  exists gc. rewrite Htb in Hut. rewrite Hbb in Hub.
  repeat (split; [done || apply Ht || apply Hbt || apply Hokt|]).
  apply Hokb.
Qed.

Lemma omap_kept_filter (move : Sprite -> Sprite) (l : list Sprite) :
  omap (kept (fun s => (move s, X (move s) >? outOfBoundsX))) l
  = filter (fun s => outOfBoundsX < X s) (map move l).
Proof.
  induction l as [|s l IH]; [done|].
  assert (Hc : forall f : Sprite -> option Sprite,
             omap f (s :: l)
             = match f s with Some y => y :: omap f l | None => omap f l end)
    by done.
  rewrite Hc, IH, fmap_cons, filter_cons. unfold kept. simpl.
  destruct (X (move s) >? outOfBoundsX) eqn:Hx.
  - by rewrite decide_True by lia.
  - by rewrite decide_False by lia.
Qed.

Lemma swept_filter (move : Sprite -> Sprite) (l : list Sprite) :
  swept move l (filter (fun s => outOfBoundsX < X s) (map move l)).
Proof.
  split; [done|]. intros s Hs. split.
  - intros Hx Hin. apply list_elem_of_filter in Hin as [Hgt _]. lia.
  - intros Hx. apply list_elem_of_filter. split; [done|].
    by apply list_elem_of_fmap_2.
Qed.

(** C5.  updateSpires, updateAsteroids and updateStars return; the
    collection then holds exactly the moved sprites whose [X] is greater
    than [outOfBoundsX = -200]: a sprite whose [X] is at or below it after
    the move is no longer in the collection, one right of it is. *)
Theorem out_of_bounds_removed (g : Game) :
  (slice_wf (spires g) ->
   exists g', updateSpires g = Some g'
     /\ swept (moveTile (- speed g)%Q)
          (to_list (spires g)) (to_list (spires g')))
  /\ (slice_wf (asteroids g) ->
      exists g', updateAsteroids g = Some g'
        /\ swept Sprite_Update
             (to_list (asteroids g)) (to_list (asteroids g')))
  /\ (slice_wf (stars g) ->
      exists g', updateStars g = Some g'
        /\ swept (moveTile (- speed g)%Q)
             (to_list (stars g)) (to_list (stars g'))).
Proof.
  split; [|split]; intros Hwf.
  - unfold updateSpires.
    destruct (filterInPlace_spec
                (fun s => (moveTile (- speed g)%Q s,
                           X (moveTile (- speed g)%Q s) >? outOfBoundsX))
                (spires g) Hwf) as (t & Hrun & Hl & _).
    unfold moveTile in Hrun. rewrite Hrun. simpl. eexists. split; [done|].
    simpl. rewrite Hl, omap_kept_filter. apply swept_filter.
  - unfold updateAsteroids.
    destruct (filterInPlace_spec
                (fun s =>
                   (Sprite_Update s, X (Sprite_Update s) >? outOfBoundsX))
                (asteroids g) Hwf) as (t & Hrun & Hl & _).
    rewrite Hrun. simpl. eexists. split; [done|].
    simpl. rewrite Hl, omap_kept_filter. apply swept_filter.
  - unfold updateStars.
    destruct (filterInPlace_spec
                (fun s => (moveTile (- speed g)%Q s,
                           X (moveTile (- speed g)%Q s) >? outOfBoundsX))
                (stars g) Hwf) as (t & Hrun & Hl & _).
    unfold moveTile in Hrun. rewrite Hrun. simpl. eexists. split; [done|].
    simpl. rewrite Hl, omap_kept_filter. apply swept_filter.
Qed.

(** C6.  shipMovement leaves the ship with its previous vertical velocity
    plus the gravity constant 1/4, minus the thrust constant 1/2 exactly
    when the space key or the left mouse button is down. *)
Theorem ship_vertical_velocity (inp : Input) (g : Game) (s : Sprite) :
  ship g = Some s ->
  exists g' s',
    shipMovement inp g = Some g' /\ ship g' = Some s'
    /\ (YVelocity s'
        == YVelocity s + (1 # 4)
           - (if mouseLeftPressed inp || keySpacePressed inp
              then 1 # 2 else 0))%Q.
Proof.
  intros Hs. unfold shipMovement. rewrite Hs. simpl.
  eexists _, _. split; [done|]. split; [done|]. simpl.
  destruct (mouseLeftPressed inp || keySpacePressed inp); simpl; lra.
Qed.

(** C7.  In GameOver mode, the frame in which the restart key is pressed
    returns with every counter at its initial value, with the four entity
    collections empty, and in Title mode. *)
Theorem restart_resets (inp : Input) (g : Game) :
  mode g = ModeGameOver -> keyRJustPressed inp = true ->
  exists g',
    Update inp g = Some g'
    /\ mode g' = ModeTitle
    /\ distanceTravelled g' = 0 /\ speed g' = 1%Q
    /\ speedIncreaseThreshold g' = 500
    /\ spireSpawnThreshold g' = 600 /\ asteroidSpawnThreshold g' = 200
    /\ starSpawnThreshold g' = 50 /\ frameCount g' = 0
    /\ isBoosting g' = false
    /\ spires g' = nil_slice /\ asteroids g' = nil_slice
    /\ stars g' = nil_slice /\ asteroidExplosions g' = nil_slice.
Proof.
  intros Hmode Hkey. unfold Update. rewrite Hmode, Hkey.
  destruct (resetGame_spec g) as (t & b & Hrun & _).
  rewrite Hrun. simpl. eexists. split; [done|]. simpl. done.
Qed.

(** C10.  A frame in Title mode changes nothing but the mode, which
    becomes Game exactly when the start key was just pressed; a frame in
    GameOver mode without the restart key changes nothing. *)
Theorem title_and_gameover_frames (inp : Input) (g : Game) :
  (mode g = ModeTitle ->
   exists g',
     Update inp g = Some g'
     /\ g' = set_mode (mode g') g
     /\ mode g' = if keySpaceJustPressed inp then ModeGame else ModeTitle)
  /\ (mode g = ModeGameOver -> keyRJustPressed inp = false ->
      Update inp g = Some g).
Proof.
  unfold Update. split.
  - intros Hmode. rewrite Hmode. destruct (keySpaceJustPressed inp).
    + eexists. split; [done|]. simpl. done.
    + exists g. split; [done|]. rewrite Hmode. split; [|done].
      destruct g. simpl in *. by subst.
  - intros Hmode Hkey. by rewrite Hmode, Hkey.
Qed.

(** *** Collisions of the ship with obstacles *)

Lemma checkCollisions_split inp g :
  checkCollisions inp g
  = (ga ← obstaclePhase inp g; gx ← asteroidCollisions inp ga;
     starCollisions gx).
Proof.
  unfold checkCollisions, obstaclePhase.
  destruct (obstacleCollisions inp _ g) as [g1|]; [|done]. simpl.
  destruct (obstacleCollisions inp _ g1) as [g2|]; [|done]. simpl.
  by destruct (obstacleCollisions inp _ g2) as [g3|].
Qed.

Lemma obstacleCollisions_game_over inp os g g' s :
  obstacleCollisions inp os g = Some g' -> ship g = Some s ->
  mode g = ModeGameOver
  \/ (exists o, o ∈ os /\ Sprite_IsColliding s o = true) ->
  mode g' = ModeGameOver.
Proof.
  unfold obstacleCollisions. revert g.
  induction os as [|o os IH]; intros g Hrun Hs Hhit; simpl in Hrun.
  - inversion Hrun; subst. destruct Hhit as [|(o & Ho & _)]; [done|].
    by apply elem_of_nil in Ho.
  - rewrite Hs in Hrun. simpl in Hrun.
    destruct (asteroidsAgainst inp o _) as [t|] eqn:Ht; [|done].
    apply asteroidsAgainst_frame in Ht.
    apply (IH t Hrun); [rewrite Ht; by destruct (Sprite_IsColliding s o)|].
    destruct Hhit as [Hm|(o' & Ho' & Hc)].
    + left. rewrite Ht. simpl. by destruct (Sprite_IsColliding s o).
    + apply elem_of_cons in Ho' as [->|Ho'].
      * left. rewrite Ht. simpl. by rewrite Hc.
      * right. by exists o'.
Qed.

Lemma asteroidCollisions_body_mode inp i t t' :
  (asteroid ← arr (asteroids t) !! i;
   g ← match shield t with
       | Some sh =>
           if Sprite_IsColliding sh asteroid
           then destroyAsteroid inp i asteroid t
           else Some t
       | None => Some t
       end;
   s ← ship g;
   Some (if Sprite_IsColliding s asteroid then set_mode ModeGameOver g
         else g)) = Some t' ->
  mode t = ModeGameOver -> mode t' = ModeGameOver.
Proof.
  destruct (arr (asteroids t) !! i) as [a|]; [|done]. simpl.
  intros Hrun Hm.
  assert (Hd : forall u, match shield t with
                         | Some sh =>
                             if Sprite_IsColliding sh a
                             then destroyAsteroid inp i a t
                             else Some t
                         | None => Some t
                         end = Some u -> mode u = ModeGameOver).
  { intros u. destruct (shield t) as [sh|]; [|by intros [= <-]].
    destruct (Sprite_IsColliding sh a); [|by intros [= <-]].
    intros H. apply destroyAsteroid_frame in H. by rewrite H. }
  destruct (match shield t with Some _ => _ | None => _ end) as [u|];
    [|done].
  specialize (Hd u eq_refl). simpl in Hrun.
  destruct (ship u) as [s|]; [|done]. simpl in Hrun.
  inversion Hrun; subst. by destruct (Sprite_IsColliding s a).
Qed.

(** The ship check reaches the asteroid in cell [i] when no asteroid in
    an earlier cell is destroyed by the shield. *)
Lemma asteroidCollisions_game_over inp g g' s i a :
  asteroidCollisions inp g = Some g' -> ship g = Some s ->
  slice_wf (asteroids g) ->
  to_list (asteroids g) !! i = Some a -> Sprite_IsColliding s a = true ->
  (forall j b sh, (j < i)%nat -> to_list (asteroids g) !! j = Some b ->
                  shield g = Some sh -> Sprite_IsColliding sh b = false) ->
  mode g' = ModeGameOver.
Proof.
  intros Hrun Hs Hwf Ha Hhit Hshield.
  assert (Hi : (i < len (asteroids g))%nat).
  { apply lookup_lt_Some in Ha. unfold to_list in Ha.
    rewrite length_take in Ha. lia. }
  unfold asteroidCollisions, for_range in Hrun.
  replace (len (asteroids g)) with (i + S (len (asteroids g) - S i))%nat
    in Hrun by lia.
  rewrite seq_app, for_each_app in Hrun. simpl in Hrun.
  match type of Hrun with
  | (for_each ?body _ _ ≫= _) = _ =>
      destruct (for_each body (seq 0 i) g) as [t|] eqn:Hpre; [|done]
  end.
  simpl in Hrun.
  (* the cells before [i] leave the ship, the shield and the asteroids *)
  assert (Ht : asteroids t = asteroids g /\ ship t = ship g
               /\ shield t = shield g).
  { revert Hpre.
    apply (for_each_inv
             (fun t => asteroids t = asteroids g /\ ship t = ship g
                       /\ shield t = shield g)); [|done].
    intros j u u' Hj (Hua & Hus & Hush). apply elem_of_seq in Hj.
    rewrite Hua, Hush.
    destruct (lookup_lt_is_Some_2 (to_list (asteroids g)) j) as [b Hb];
      [rewrite to_list_length by done; lia|].
    assert (Hb' : arr (asteroids g) !! j = Some b)
      by (unfold to_list in Hb; by rewrite lookup_take_lt in Hb by lia).
    rewrite Hb'. simpl.
    destruct (shield g) as [sh|] eqn:Hsh.
    - rewrite (Hshield j b sh) by (done || lia). simpl. rewrite Hus, Hs.
      simpl. intros [= <-].
      destruct (Sprite_IsColliding s b); simpl; repeat split; congruence.
    - simpl. rewrite Hus, Hs. simpl. intros [= <-].
      destruct (Sprite_IsColliding s b); simpl; repeat split; congruence. }
  destruct Ht as (Hta & Hts & Htsh).
  (* cell [i] *)
  assert (Ha' : arr (asteroids t) !! i = Some a).
  { rewrite Hta. unfold to_list in Ha. by rewrite lookup_take_lt in Ha by lia. }
  rewrite Ha' in Hrun. simpl in Hrun.
  assert (Hd : forall u, match shield t with
                         | Some sh =>
                             if Sprite_IsColliding sh a
                             then destroyAsteroid inp i a t
                             else Some t
                         | None => Some t
                         end = Some u -> ship u = Some s).
  { intros u. destruct (shield t) as [sh|]; [|by intros [= <-]; congruence].
    destruct (Sprite_IsColliding sh a); [|by intros [= <-]; congruence].
    intros H. apply destroyAsteroid_frame in H. rewrite H. simpl. congruence. }
  destruct (match shield t with Some _ => _ | None => _ end) as [u|];
    [|done].
  specialize (Hd u eq_refl). simpl in Hrun. rewrite Hd in Hrun.
  simpl in Hrun. rewrite Hhit in Hrun.
  (* the remaining cells keep the mode *)
  revert Hrun.
  apply (for_each_inv (fun t => mode t = ModeGameOver)); [|done].
  intros j v v' _ Hv Hbody. by eapply asteroidCollisions_body_mode.
Qed.

Lemma asteroidCollisions_mode inp g g' :
  asteroidCollisions inp g = Some g' ->
  mode g = ModeGameOver -> mode g' = ModeGameOver.
Proof.
  unfold asteroidCollisions, for_range. intros Hrun Hm. revert Hrun.
  apply (for_each_inv (fun t => mode t = ModeGameOver)); [|done].
  intros j v v' _ Hv Hbody. by eapply asteroidCollisions_body_mode.
Qed.

Lemma obstaclePhase_game_over inp g ga s :
  obstaclePhase inp g = Some ga -> ship g = Some s ->
  (exists o,
     (o ∈ to_list (topGroundTiles g) \/ o ∈ to_list (bottomGroundTiles g)
      \/ o ∈ to_list (spires g))
     /\ Sprite_IsColliding s o = true) ->
  mode ga = ModeGameOver.
Proof.
  unfold obstaclePhase. intros Hrun Hs (o & Ho & Hc).
  destruct (obstacleCollisions inp _ g) as [g1|] eqn:H1; [|done].
  simpl in Hrun.
  destruct (obstacleCollisions inp _ g1) as [g2|] eqn:H2; [|done].
  simpl in Hrun.
  pose proof (obstacleCollisions_frame _ _ _ _ H1) as F1.
  pose proof (obstacleCollisions_frame _ _ _ _ H2) as F2.
  assert (Hs1 : ship g1 = Some s) by (rewrite F1; done).
  assert (Hs2 : ship g2 = Some s) by (rewrite F2; done).
  assert (Hb1 : bottomGroundTiles g1 = bottomGroundTiles g)
    by (rewrite F1; done).
  assert (Hsp2 : spires g2 = spires g) by (rewrite F2, F1; done).
  destruct Ho as [Ho|[Ho|Ho]].
  - apply (obstacleCollisions_game_over _ _ _ _ s Hrun Hs2). left.
    apply (obstacleCollisions_game_over _ _ _ _ s H2 Hs1). left.
    apply (obstacleCollisions_game_over _ _ _ _ s H1 Hs). right. by exists o.
  - apply (obstacleCollisions_game_over _ _ _ _ s Hrun Hs2). left.
    apply (obstacleCollisions_game_over _ _ _ _ s H2 Hs1). right.
    exists o. by rewrite Hb1.
  - apply (obstacleCollisions_game_over _ _ _ _ s Hrun Hs2). right.
    exists o. by rewrite Hsp2.
Qed.

Lemma obstaclePhase_frame inp g ga :
  obstaclePhase inp g = Some ga -> obstacle_frame g ga.
Proof.
  unfold obstaclePhase. intros Hrun.
  destruct (obstacleCollisions inp _ g) as [g1|] eqn:H1; [|done].
  simpl in Hrun.
  destruct (obstacleCollisions inp _ g1) as [g2|] eqn:H2; [|done].
  simpl in Hrun.
  apply obstacleCollisions_frame in H1, H2, Hrun.
  eauto using obstacle_frame_trans.
Qed.

(** Destroying asteroids keeps the slice of asteroids well formed. *)
Lemma asteroidsAgainst_wf inp o g g' :
  asteroidsAgainst inp o g = Some g' ->
  slice_wf (asteroids g) -> slice_wf (asteroids g').
Proof.
  unfold asteroidsAgainst, for_range. intros Hrun Hwf. revert Hrun.
  apply (for_each_inv (fun t => slice_wf (asteroids t))); [|done].
  intros i t t' _ Ht. destruct (arr (asteroids t) !! i) as [a|]; [|done].
  simpl. destruct (Sprite_IsColliding a o); [|by intros [= <-]].
  unfold destroyAsteroid. simpl.
  destruct (remove_at growcap (asteroids t) i) as [s'|] eqn:Hrm; [|done].
  simpl. intros [= <-]. simpl.
  by apply (remove_at_to_list _ _ _ Ht) in Hrm as (_ & _ & _ & _ & Hwf' & _).
Qed.

Lemma obstacleCollisions_wf inp os g g' :
  obstacleCollisions inp os g = Some g' ->
  slice_wf (asteroids g) -> slice_wf (asteroids g').
Proof.
  unfold obstacleCollisions. intros Hrun Hwf. revert Hrun.
  apply (for_each_inv (fun t => slice_wf (asteroids t))); [|done].
  intros o t t' _ Ht. destruct (ship t) as [s|]; [|done]. simpl.
  intros H. apply asteroidsAgainst_wf in H; [done|].
  by destruct (Sprite_IsColliding s o).
Qed.

Lemma obstaclePhase_wf inp g ga :
  obstaclePhase inp g = Some ga ->
  slice_wf (asteroids g) -> slice_wf (asteroids ga).
Proof.
  unfold obstaclePhase. intros Hrun Hwf.
  destruct (obstacleCollisions inp _ g) as [g1|] eqn:H1; [|done].
  simpl in Hrun.
  destruct (obstacleCollisions inp _ g1) as [g2|] eqn:H2; [|done].
  simpl in Hrun.
  eauto using obstacleCollisions_wf.
Qed.

(** C2 (amended).  In a Game-mode frame that completes, let [gd] be the
    state in which checkCollisions is entered and [ga] the state after its
    loops over tiles and spires.  If the ship overlaps a top tile, a
    bottom tile or a spire of [gd], or an asteroid that is still listed in
    [ga] and is not preceded there by an asteroid overlapping the active
    shield, the mode after the frame is GameOver, whatever the number of
    overlaps; and the following frames leave the state alone until the
    restart key is pressed. *)
Theorem obstacle_collision_game_over (inp : Input) (g gd ga g' : Game)
    (s : Sprite) :
  mode g = ModeGame ->
  beforeCollisions inp g = Some gd ->
  obstaclePhase inp gd = Some ga ->
  Update inp g = Some g' ->
  ship gd = Some s -> slice_wf (asteroids gd) ->
  (exists o,
     (o ∈ to_list (topGroundTiles gd) \/ o ∈ to_list (bottomGroundTiles gd)
      \/ o ∈ to_list (spires gd))
     /\ Sprite_IsColliding s o = true)
  \/ (exists i a,
        to_list (asteroids ga) !! i = Some a
        /\ Sprite_IsColliding s a = true
        /\ forall j b sh,
             (j < i)%nat -> to_list (asteroids ga) !! j = Some b ->
             shield ga = Some sh -> Sprite_IsColliding sh b = false) ->
  mode g' = ModeGameOver
  /\ forall inp', keyRJustPressed inp' = false -> Update inp' g' = Some g'.
Proof.
  intros Hmode Hgd Hga Hrun Hs Hwf Hhit.
  assert (Hover : mode g' = ModeGameOver).
  { unfold Update in Hrun. rewrite Hmode in Hrun.
    unfold updateGame in Hrun. rewrite Hgd in Hrun. simpl in Hrun.
    rewrite checkCollisions_split, Hga in Hrun. simpl in Hrun.
    destruct (asteroidCollisions inp ga) as [gx|] eqn:Hgx; [|done].
    simpl in Hrun.
    destruct (starCollisions gx) as [ge|] eqn:Hge; [|done].
    simpl in Hrun.
    apply afterCollisions_core in Hrun as (-> & _).
    apply starCollisions_frame in Hge. rewrite Hge. simpl.
    pose proof (obstaclePhase_frame _ _ _ Hga) as Fa.
    assert (Hsa : ship ga = Some s) by (rewrite Fa; done).
    destruct Hhit as [Ho|(i & a & Ha & Hc & Hsh)].
    - apply (asteroidCollisions_mode _ _ _ Hgx).
      by apply (obstaclePhase_game_over inp gd ga s).
    - apply (asteroidCollisions_game_over inp ga gx s i a); auto.
      by apply (obstaclePhase_wf inp gd). }
  split; [done|]. intros inp' Hkey. unfold Update. by rewrite Hover, Hkey.
Qed.

(** *** Stars and the boost *)

Lemma starCollisions_unfold g :
  starCollisions g = for_each starBody (seq 0 (len (stars g))) g.
Proof. done. Qed.

(** The array after the removal of cell [i]. *)
Lemma remove_at_lookup {A : Type} (s s' : slice A) (i j : nat) :
  slice_wf s -> remove_at growcap s i = Some s' ->
  arr s' !! j
  = if decide (j < i)%nat then arr s !! j
    else if decide (j < len s - 1)%nat then arr s !! S j
    else arr s !! j.
Proof.
  intros Hwf Hrm. pose proof Hwf as [H1 H2].
  destruct (remove_at_to_list _ _ _ Hwf Hrm) as (_ & _ & _ & _ & _ & Hi).
  rewrite remove_at_Some in Hrm by done. inversion Hrm; subst; clear Hrm.
  simpl.
  assert (Hl : length (take (len s - S i) (drop (S i) (arr s)))
               = (len s - S i)%nat)
    by (rewrite length_take, length_drop; lia).
  destruct (decide (j < i)%nat).
  - rewrite lookup_app_l by (rewrite length_take; lia).
    by rewrite lookup_take_lt.
  - rewrite lookup_app_r by (rewrite length_take; lia).
    rewrite length_take, Nat.min_l by lia.
    destruct (decide (j < len s - 1)%nat).
    + rewrite lookup_app_l by lia.
      rewrite lookup_take_lt, lookup_drop by lia. f_equal. lia.
    + rewrite lookup_app_r by lia.
      rewrite Hl, lookup_drop. f_equal. lia.
Qed.

(** One star overlaps the ship: it leaves the collection, the boost
    starts, and the speed grows by the boost factor. *)
Lemma starCollisions_single (g : Game) (s a : Sprite) (i : nat) :
  ship g = Some s -> slice_wf (stars g) ->
  to_list (stars g) !! i = Some a -> Sprite_IsColliding s a = true ->
  (forall j b, j <> i -> to_list (stars g) !! j = Some b ->
               Sprite_IsColliding s b = false) ->
  exists g',
    starCollisions g = Some g'
    /\ to_list (stars g') = delete i (to_list (stars g))
    /\ isBoosting g' = true
    /\ lastBoostTime g' = gameTime g
    /\ speed g' = (speed g + boostFactor g)%Q
    /\ star_frame g g'.
Proof.
  intros Hs Hwf Ha Hhit Hothers. pose proof Hwf as [H1 H2].
  assert (Hi : (i < len (stars g))%nat).
  { apply lookup_lt_Some in Ha. rewrite to_list_length in Ha; done. }
  assert (Hcell : forall j x, (j < len (stars g))%nat ->
                    arr (stars g) !! j = Some x ->
                    to_list (stars g) !! j = Some x).
  { intros j x Hj Hx. unfold to_list. by rewrite lookup_take_lt. }
  assert (Ha' : arr (stars g) !! i = Some a)
    by (unfold to_list in Ha; by rewrite lookup_take_lt in Ha).
  destruct (remove_at growcap (stars g) i) as [s1|] eqn:Hrm;
    [|rewrite remove_at_Some in Hrm by done; done].
  destruct (remove_at_to_list _ _ _ Hwf Hrm)
    as (Hl1 & Hn1 & Hc1 & Hlen1 & Hwf1 & _).
  exists (set_speed (speed g + boostFactor g)%Q
            (set_lastBoostTime (gameTime g)
               (set_isBoosting true (set_stars s1 g)))).
  split; [|simpl; repeat (split; [done|]); by destruct g].
  rewrite starCollisions_unfold.
  replace (len (stars g)) with (i + S (len (stars g) - S i))%nat at 1 by lia.
  rewrite seq_app, for_each_app. simpl.
  rewrite for_each_skip; simpl.
  2:{ intros j Hj. apply elem_of_seq in Hj. unfold starBody.
      destruct (lookup_lt_is_Some_2 (arr (stars g)) j) as [b Hb]; [lia|].
      rewrite Hb, Hs. simpl.
      rewrite (Hothers j b); [done|lia|apply Hcell; [lia|done]]. }
  unfold starBody at 1. rewrite Ha', Hs. simpl. rewrite Hhit, Hrm. simpl.
  rewrite for_each_skip; [done|].
  intros j Hj. apply elem_of_seq in Hj. unfold starBody. simpl.
  rewrite (remove_at_lookup _ _ _ j Hwf Hrm).
  rewrite decide_False by lia.
  destruct (decide (j < len (stars g) - 1)%nat).
  - destruct (lookup_lt_is_Some_2 (arr (stars g)) (S j)) as [b Hb]; [lia|].
    rewrite Hb, Hs. simpl.
    rewrite (Hothers (S j) b); [done|lia|apply Hcell; [lia|done]].
  - destruct (lookup_lt_is_Some_2 (arr (stars g)) j) as [b Hb]; [lia|].
    rewrite Hb, Hs. simpl.
    rewrite (Hothers j b); [done|lia|apply Hcell; [lia|done]].
Qed.

(** Two stars overlap the ship and one of them is the last of the
    collection: the removal of the last one panics. *)
Lemma starCollisions_panics (g : Game) (s a b : Sprite) (j : nat) :
  ship g = Some s -> slice_wf (stars g) ->
  (j < len (stars g) - 1)%nat ->
  to_list (stars g) !! j = Some a -> Sprite_IsColliding s a = true ->
  to_list (stars g) !! (len (stars g) - 1)%nat = Some b ->
  Sprite_IsColliding s b = true ->
  starCollisions g = None.
Proof.
  intros Hs Hwf Hj Ha Hhita Hb Hhitb. pose proof Hwf as [H1 H2].
  set (n := len (stars g)) in *.
  assert (Ha' : arr (stars g) !! j = Some a)
    by (unfold to_list in Ha; by rewrite lookup_take_lt in Ha by lia).
  assert (Hb' : arr (stars g) !! (n - 1)%nat = Some b)
    by (unfold to_list in Hb; by rewrite lookup_take_lt in Hb by lia).
  (* what every iteration keeps *)
  set (I1 := fun t : Game =>
         ship t = Some s /\ slice_wf (stars t)
         /\ arr (stars t) !! (n - 1)%nat = Some b
         /\ (stars t = stars g \/ (len (stars t) < n)%nat)).
  set (I2 := fun t : Game =>
         ship t = Some s /\ slice_wf (stars t)
         /\ arr (stars t) !! (n - 1)%nat = Some b
         /\ (len (stars t) < n)%nat).
  assert (Hstep : forall k t t',
            I1 t -> starBody k t = Some t' ->
            I1 t' /\ (I2 t -> I2 t')
            /\ (arr (stars t) !! k = Some a -> I2 t')).
  { intros k t t' (Hts & Htwf & Htb & Htl). unfold starBody.
    destruct (arr (stars t) !! k) as [x|] eqn:Hx; [|done]. simpl.
    rewrite Hts. simpl.
    destruct (Sprite_IsColliding s x) eqn:Hhit.
    - destruct (remove_at growcap (stars t) k) as [s1|] eqn:Hrm; [|done].
      simpl. intros [= <-].
      destruct (remove_at_to_list _ _ _ Htwf Hrm)
        as (_ & Hn1 & _ & _ & Hwf1 & Hk).
      assert (Hlen : (len (stars t) <= n)%nat)
        by (destruct Htl as [->|]; unfold n; lia).
      assert (Hcell : arr s1 !! (n - 1)%nat = Some b).
      { rewrite (remove_at_lookup _ _ _ (n - 1) Htwf Hrm).
        rewrite decide_False by lia. by rewrite decide_False by lia. }
      assert (I2' : I2 (set_speed (speed t + boostFactor t)
                          (set_lastBoostTime (gameTime t)
                             (set_isBoosting true (set_stars s1 t)))))
        by (unfold I2; simpl; repeat split; try done; try apply Hwf1; lia).
      split; [|done].
      destruct I2' as (? & ? & ? & ?). unfold I1. auto.
    - intros [= <-]. split; [done|]. split; [done|].
      intros [= ->]. congruence. }
  rewrite starCollisions_unfold. fold n.
  replace n with (j + (1 + ((n - 1 - S j) + 1)))%nat at 1 by lia.
  rewrite !seq_app, !for_each_app. simpl.
  destruct (for_each starBody (seq 0 j) g) as [t1|] eqn:Hp1; [|done].
  simpl.
  assert (Ht1 : I1 t1).
  { revert Hp1. apply (for_each_inv I1).
    - intros k t t' _ Ht Hk. by apply (Hstep k t t').
    - unfold I1. auto. }
  destruct (starBody j t1) as [t2|] eqn:Hp2; [|done]. simpl.
  assert (Ht2 : I2 t2).
  { destruct (Hstep j t1 t2 Ht1 Hp2) as (_ & H22 & Hja).
    destruct Ht1 as (? & ? & ? & [Heq|Hlt]).
    - apply Hja. by rewrite Heq.
    - apply H22. unfold I2. auto. }
  rewrite for_each_app.
  destruct (for_each starBody (seq (j + 1) (n - 1 - S j)) t2) as [t3|] eqn:Hp3;
    [|done].
  simpl.
  assert (Ht3 : I2 t3).
  { revert Hp3. apply (for_each_inv I2); [|done].
    intros k t t' _ Ht Hk.
    destruct (Hstep k t t') as (_ & H22 & _); auto.
    destruct Ht as (? & ? & ? & ?). unfold I1. auto. }
  destruct Ht3 as (Hts & Htwf & Htb & Htl).
  replace (j + 1 + (n - 1 - S j))%nat with (n - 1)%nat by lia.
  unfold starBody. rewrite Htb, Hts. simpl. rewrite Hhitb.
  by rewrite remove_at_None by lia.
Qed.

(** When the boost ends: in [advanceCounters] the boost flag is cleared,
    and the boost factor subtracted from the speed, exactly when the game
    time exceeds the start of the boost by more than five seconds. *)
Lemma advanceCounters_boost (g : Game) :
  isBoosting g = true ->
  let ramp := wrap64 (distanceTravelled g + int_of_float (speed g))
              >? speedIncreaseThreshold g in
  let expired := wrap64 (gameTime g - lastBoostTime g) >? Second * 5 in
  isBoosting (advanceCounters g) = negb expired
  /\ speed (advanceCounters g)
     = let v := if ramp then (speed g + 1)%Q else speed g in
       if expired then (v - boostFactor g)%Q else v.
Proof.
  intros Hb. unfold advanceCounters. simpl.
  destruct (_ >? speedIncreaseThreshold g); simpl; rewrite Hb; simpl;
    by destruct (_ >? Second * 5).
Qed.

(** Game time is counted in frames of 1/60 s: a boost started in frame
    [f0] has lasted more than five seconds in frame [f] exactly when more
    than 300 frames separate them. *)
Lemma boost_expires_after_300_frames (f0 f : Z) :
  0 <= f0 <= f -> f <= 9000000000 ->
  (wrap64 (Z.quot (wrap64 (f * Second)) 60 - Z.quot (wrap64 (f0 * Second)) 60)
   >? Second * 5)
  = (f - f0 >? 300).
Proof.
  intros Hf Hmax. unfold Second.
  rewrite !(wrap64_id (_ * 1000000000)) by (unfold int_min, int_max; lia).
  rewrite !Z.quot_div_nonneg by lia.
  pose proof (Z.div_mod (f * 1000000000) 60 ltac:(lia)).
  pose proof (Z.mod_pos_bound (f * 1000000000) 60 ltac:(lia)).
  pose proof (Z.div_mod (f0 * 1000000000) 60 ltac:(lia)).
  pose proof (Z.mod_pos_bound (f0 * 1000000000) 60 ltac:(lia)).
  rewrite wrap64_id by (unfold int_min, int_max; lia).
  rewrite !Z.gtb_ltb.
  destruct (300 <? f - f0) eqn:Hd;
    [apply Z.ltb_lt in Hd; apply Z.ltb_lt
    |apply Z.ltb_ge in Hd; apply Z.ltb_ge]; lia.
Qed.

(** ** Further properties of the frame *)

(** *** Fields that no frame writes *)

Lemma advanceCounters_frame g :
  advanceCounters g
  = set_isBoosting (isBoosting (advanceCounters g))
      (set_speed (speed (advanceCounters g))
         (set_speedIncreaseThreshold
            (speedIncreaseThreshold (advanceCounters g))
            (set_distanceTravelled (distanceTravelled (advanceCounters g))
               g))).
Proof.
  unfold advanceCounters. simpl.
  destruct (_ >? speedIncreaseThreshold g); simpl;
    destruct (isBoosting g); simpl; try (by destruct g);
    destruct (_ >? Second * 5); by destruct g.
Qed.

Lemma afterCollisions_frame inp g g' :
  afterCollisions inp g = Some g' ->
  g' = set_frameCount (frameCount g')
         (set_asteroidExplosions (asteroidExplosions g')
            (set_starSpawnThreshold (starSpawnThreshold g')
               (set_stars (stars g')
                  (set_asteroidSpawnThreshold (asteroidSpawnThreshold g')
                     (set_asteroids (asteroids g')
                        (set_spireSpawnThreshold (spireSpawnThreshold g')
                           (set_spires (spires g') g))))))).
Proof.
  unfold afterCollisions.
  destruct (spawnSpire inp g) as [g1|] eqn:H1; [|done]. simpl.
  destruct (spawnAsteroid inp g1) as [g2|] eqn:H2; [|done]. simpl.
  destruct (spawnStar inp g2) as [g3|] eqn:H3; [|done]. simpl.
  destruct (sweepExplosions g3) as [g4|] eqn:H4; [|done]. simpl.
  intros [= <-].
  apply spawnSpire_frame in H1. apply spawnAsteroid_frame in H2.
  apply spawnStar_frame in H3. apply sweepExplosions_frame in H4.
  simpl. rewrite H4, H3, H2, H1. done.
Qed.

Lemma beforeCollisions_frame inp g gd :
  beforeCollisions inp g = Some gd ->
  gd = set_stars (stars gd)
         (set_asteroids (asteroids gd)
            (set_spires (spires gd)
               (set_bottomGroundTiles (bottomGroundTiles gd)
                  (set_topGroundTiles (topGroundTiles gd)
                     (set_shield (shield gd)
                        (set_ship (ship gd) (advanceCounters g))))))).
Proof.
  unfold beforeCollisions, beforeGround.
  destruct (shipMovement inp (advanceCounters g)) as [g1|] eqn:H1; [|done].
  simpl.
  destruct (checkShieldOn g1) as [g2|] eqn:H2; [|done]. simpl.
  destruct (updateGround g2) as [g3|] eqn:H3; [|done]. simpl.
  destruct (updateSpires g3) as [g4|] eqn:H4; [|done]. simpl.
  destruct (updateAsteroids g4) as [g5|] eqn:H5; [|done]. simpl.
  intros H6.
  apply shipMovement_frame in H1. apply checkShieldOn_frame in H2.
  apply updateGround_frame in H3. apply updateSpires_frame in H4.
  apply updateAsteroids_frame in H5. apply updateStars_frame in H6.
  rewrite H6, H5, H4, H3, H2, H1. done.
Qed.

Lemma checkCollisions_frame inp g g' :
  checkCollisions inp g = Some g' ->
  g' = set_stars (stars g')
         (set_isBoosting (isBoosting g')
            (set_lastBoostTime (lastBoostTime g')
               (set_speed (speed g')
                  (set_mode (mode g')
                     (set_asteroids (asteroids g')
                        (set_asteroidExplosions (asteroidExplosions g')
                           g)))))).
Proof.
  intros Hrun.
  destruct (checkCollisions_phases _ _ _ Hrun) as (ga & Hf & Hs & _).
  rewrite Hs, Hf. done.
Qed.

Lemma updateGame_static inp g g' :
  updateGame inp g = Some g' ->
  static g' = static g /\ ship g' = ship (default g (shipMovement inp g)).
Proof.
  unfold updateGame.
  destruct (beforeCollisions inp g) as [gd|] eqn:Hd; [|done]. simpl.
  destruct (checkCollisions inp gd) as [ge|] eqn:He; [|done]. simpl.
  intros Ha.
  pose proof (beforeCollisions_frame _ _ _ Hd) as Fd.
  apply checkCollisions_frame in He. apply afterCollisions_frame in Ha.
  pose proof (advanceCounters_frame g) as Fc.
  split.
  - rewrite Ha, He, Fd, Fc. done.
  - rewrite Ha, He. simpl.
    revert Hd. unfold beforeCollisions, beforeGround.
    destruct (shipMovement inp (advanceCounters g)) as [g1|] eqn:H1; [|done].
    simpl.
    destruct (checkShieldOn g1) as [g2|] eqn:H2; [|done]. simpl.
    destruct (updateGround g2) as [g3|] eqn:H3; [|done]. simpl.
    destruct (updateSpires g3) as [g4|] eqn:H4; [|done]. simpl.
    destruct (updateAsteroids g4) as [g5|] eqn:H5; [|done]. simpl.
    intros H6.
    apply checkShieldOn_frame in H2.
    apply updateGround_frame in H3. apply updateSpires_frame in H4.
    apply updateAsteroids_frame in H5. apply updateStars_frame in H6.
    rewrite H6, H5, H4, H3, H2. simpl.
    revert H1. unfold shipMovement. rewrite Fc. simpl.
    destruct (ship g); [|done]. simpl. by intros [= <-].
Qed.

(** *** What checkCollisions destroys *)

Lemma destroying_refl g :
  slice_wf (asteroids g) -> slice_wf (asteroidExplosions g) ->
  destroying g g.
Proof.
  intros Ha He. unfold destroying.
  split; [apply obstacle_frame_refl|].
  repeat (split; [done || lia|]).
  split.
  { intros j a Hj Hcell. apply (list_elem_of_lookup_2 _ j).
    unfold to_list. by rewrite lookup_take_lt. }
  split; [done|].
  split; [|by left].
  exists []. by rewrite app_nil_r.
Qed.

Lemma destroyAsteroid_destroying inp g t t' i a :
  destroying g t -> (i < len (asteroids g))%nat ->
  arr (asteroids t) !! i = Some a ->
  destroyAsteroid inp i a t = Some t' -> destroying g t'.
Proof.
  intros (Hf & Hwa & Hwe & Hle & Hsum & Hcells & Hsub & (new & Hnew & Hall)
          & Hmode) Hi Ha.
  unfold destroyAsteroid. simpl.
  destruct (remove_at growcap (asteroids t) i) as [s'|] eqn:Hrm; [|done].
  simpl. intros [= <-].
  destruct (remove_at_to_list _ _ _ Hwa Hrm)
    as (Hl' & Hn' & Hc' & Hlen' & Hwf' & Hi').
  unfold destroying. simpl.
  split. { unfold obstacle_frame in *. rewrite Hf. reflexivity. }
  split; [done|]. split; [by apply append_wf|].
  split; [lia|]. split; [rewrite len_append; simpl; lia|].
  split.
  { intros j b Hj. rewrite (remove_at_lookup _ _ _ j Hwa Hrm).
    destruct (decide (j < i)%nat); [by apply Hcells|].
    destruct (decide (j < len (asteroids t) - 1)%nat);
      apply Hcells; lia. }
  split.
  { rewrite Hl'. etrans; [apply sublist_delete|done]. }
  split; [|done].
  exists (new ++ [createAsteroidExplosion inp t a]).
  rewrite to_list_append, Hnew, app_assoc by done. split; [done|].
  apply Forall_app. split; [done|]. apply Forall_singleton.
  exists a. split; [by apply (Hcells i)|].
  unfold createAsteroidExplosion, gameTime. simpl.
  unfold obstacle_frame in Hf. rewrite Hf. simpl. done.
Qed.

Lemma asteroidsAgainst_destroying inp o g t t' :
  destroying g t -> asteroidsAgainst inp o t = Some t' -> destroying g t'.
Proof.
  intros Ht. unfold asteroidsAgainst, for_range.
  assert (Hle : (len (asteroids t) <= len (asteroids g))%nat) by apply Ht.
  apply (for_each_inv (destroying g)); [|done].
  intros i u u' Hi Hu. apply elem_of_seq in Hi.
  destruct (arr (asteroids u) !! i) as [a|] eqn:Ha; [|done]. simpl.
  destruct (Sprite_IsColliding a o); [|by intros [= <-]].
  apply (destroyAsteroid_destroying inp g u u' i a); auto. lia.
Qed.

Lemma destroying_game_over g t :
  destroying g t -> shipHits g -> destroying g (set_mode ModeGameOver t).
Proof.
  intros (Hf & Hwa & Hwe & Hle & Hsum & Hcells & Hsub & Hnew & Hmode) Hhit.
  unfold destroying. simpl.
  split. { unfold obstacle_frame in *. rewrite Hf. reflexivity. }
  repeat (split; [done|]). by right.
Qed.

Lemma destroying_ship g t : destroying g t -> ship t = ship g.
Proof. intros (Hf & _). unfold obstacle_frame in Hf. by rewrite Hf. Qed.

Lemma obstacleCollisions_destroying inp os g t t' :
  destroying g t ->
  (forall o, o ∈ os ->
     o ∈ to_list (topGroundTiles g) \/ o ∈ to_list (bottomGroundTiles g)
     \/ o ∈ to_list (spires g)) ->
  obstacleCollisions inp os t = Some t' -> destroying g t'.
Proof.
  intros Ht Hos. unfold obstacleCollisions.
  apply (for_each_inv (destroying g)); [|done].
  intros o u u' Ho Hu. rewrite (destroying_ship g u Hu).
  destruct (ship g) as [s|] eqn:Hs; [|done]. simpl.
  apply asteroidsAgainst_destroying.
  destruct (Sprite_IsColliding s o) eqn:Hc; [|done].
  apply destroying_game_over; [done|].
  exists s, o. split; [done|]. split; [|done].
  destruct (Hos o Ho) as [H|[H|H]]; auto.
Qed.

Lemma asteroidCollisions_destroying inp g t t' :
  destroying g t -> asteroidCollisions inp t = Some t' -> destroying g t'.
Proof.
  intros Ht. unfold asteroidCollisions, for_range.
  assert (Hle : (len (asteroids t) <= len (asteroids g))%nat) by apply Ht.
  apply (for_each_inv (destroying g)); [|done].
  intros i u u' Hi Hu. apply elem_of_seq in Hi.
  destruct (arr (asteroids u) !! i) as [a|] eqn:Ha; [|done]. simpl.
  assert (Hin : a ∈ to_list (asteroids g)).
  { destruct Hu as (_ & _ & _ & _ & _ & Hcells & _).
    apply (Hcells i); [lia|done]. }
  assert (Hd : forall v, match shield u with
                         | Some sh =>
                             if Sprite_IsColliding sh a
                             then destroyAsteroid inp i a u
                             else Some u
                         | None => Some u
                         end = Some v -> destroying g v).
  { intros v. destruct (shield u) as [sh|]; [|by intros [= <-]].
    destruct (Sprite_IsColliding sh a); [|by intros [= <-]].
    apply (destroyAsteroid_destroying inp g u v i a); auto. lia. }
  destruct (match shield u with Some _ => _ | None => _ end) as [v|];
    [|done].
  specialize (Hd v eq_refl). simpl.
  rewrite (destroying_ship g v Hd).
  destruct (ship g) as [s|] eqn:Hs; [|done]. simpl. intros [= <-].
  destruct (Sprite_IsColliding s a) eqn:Hc; [|done].
  apply destroying_game_over; [done|].
  exists s, a. split; [done|]. split; [|done]. by do 3 right.
Qed.

(** The state [ga] in which the loop over stars is entered. *)
Lemma checkCollisions_destroying inp g g' :
  slice_wf (asteroids g) -> slice_wf (asteroidExplosions g) ->
  checkCollisions inp g = Some g' ->
  exists ga, destroying g ga /\ starCollisions ga = Some g'.
Proof.
  intros Hwa Hwe. unfold checkCollisions.
  destruct (obstacleCollisions inp _ g) as [g1|] eqn:H1; [|done]. simpl.
  destruct (obstacleCollisions inp _ g1) as [g2|] eqn:H2; [|done]. simpl.
  destruct (obstacleCollisions inp _ g2) as [g3|] eqn:H3; [|done]. simpl.
  destruct (asteroidCollisions inp g3) as [g4|] eqn:H4; [|done]. simpl.
  intros H5. exists g4. split; [|done].
  pose proof (destroying_refl g Hwa Hwe) as D0.
  assert (D1 : destroying g g1)
    by (apply (obstacleCollisions_destroying _ _ _ _ _ D0) in H1; auto).
  assert (D2 : destroying g g2).
  { apply (obstacleCollisions_destroying _ _ _ _ _ D1) in H2; [done|].
    destruct D1 as (F1 & _). unfold obstacle_frame in F1. rewrite F1.
    simpl. auto. }
  assert (D3 : destroying g g3).
  { apply (obstacleCollisions_destroying _ _ _ _ _ D2) in H3; [done|].
    destruct D2 as (F2 & _). unfold obstacle_frame in F2. rewrite F2.
    simpl. auto. }
  by apply (asteroidCollisions_destroying inp g g3).
Qed.

Lemma starCollisions_wf g g' :
  starCollisions g = Some g' -> slice_wf (stars g) ->
  slice_wf (stars g') /\ sublist (to_list (stars g')) (to_list (stars g)).
Proof.
  unfold starCollisions, for_range. intros Hrun Hwf. revert Hrun.
  apply (for_each_inv
           (fun t => slice_wf (stars t)
                     /\ sublist (to_list (stars t)) (to_list (stars g))));
    [|done].
  intros i t t' _ [Ht Hsub]. destruct (arr (stars t) !! i) as [a|]; [|done].
  simpl. destruct (ship t) as [s|]; [|done]. simpl.
  destruct (Sprite_IsColliding s a); [|by intros [= <-]].
  destruct (remove_at growcap (stars t) i) as [s'|] eqn:Hrm; [|done].
  simpl. intros [= <-]. simpl.
  apply (remove_at_to_list _ _ _ Ht) in Hrm as (Hl & _ & _ & _ & Hwf' & _).
  split; [done|]. rewrite Hl. etrans; [apply sublist_delete|done].
Qed.

(** *** The frame returns outside checkCollisions *)

Lemma set_cell_wf {A : Type} (s : slice A) i x :
  slice_wf s -> slice_wf (set_cell i x s).
Proof. unfold slice_wf, set_cell. simpl. by rewrite length_insert. Qed.

(** The element that [append] has just stored is the last one, and a
    write through it changes that element only. *)
Lemma append_last {A : Type} (s : slice A) (x y : A) :
  slice_wf s ->
  let s' := append growcap s [x] in
  index s' (len s' - 1) = Some x
  /\ to_list (set_cell (len s' - 1) y s') = to_list s ++ [y]
  /\ slice_wf (set_cell (len s' - 1) y s').
Proof.
  intros Hwf s'.
  pose proof (append_wf s [x] Hwf) as Hwf'. fold s' in Hwf'.
  pose proof (to_list_append s [x] Hwf) as Hl. fold s' in Hl.
  pose proof (len_append s [x]) as Hn. fold s' in Hn. simpl in Hn.
  pose proof (to_list_length s Hwf) as Hls.
  replace (len s' - 1)%nat with (len s) by lia.
  split; [|split; [|by apply set_cell_wf]].
  - unfold index. rewrite decide_True by lia.
    rewrite <- (lookup_take_lt _ (len s')) by lia.
    fold (to_list s'). rewrite Hl, lookup_app_r by lia.
    by rewrite Hls, Nat.sub_diag.
  - unfold to_list at 1. simpl. rewrite take_insert_lt by lia.
    fold (to_list s'). rewrite Hl, insert_app_r_alt by lia.
    by rewrite Hls, Nat.sub_diag.
Qed.

Lemma spawnSpire_spec inp g tf bf :
  topSpireFactory g = Some tf -> bottomSpireFactory g = Some bf ->
  slice_wf (spires g) ->
  exists g',
    spawnSpire inp g = Some g' /\ slice_wf (spires g')
    /\ to_list (spires g')
       = to_list (spires g)
         ++ (if distanceTravelled g >? spireSpawnThreshold g
             then [GenerateSprite inp
                     (if Z.rem (randIntn2 inp) 2 =? 0 then tf else bf)]
             else [])
    /\ spireSpawnThreshold g'
       = if distanceTravelled g >? spireSpawnThreshold g
         then wrap64 (spireSpawnThreshold g + 600)
         else spireSpawnThreshold g.
Proof.
  intros Htf Hbf Hwf. unfold spawnSpire.
  destruct (distanceTravelled g >? spireSpawnThreshold g).
  - rewrite Htf, Hbf. simpl.
    destruct (Z.rem (randIntn2 inp) 2 =? 0); simpl;
      (eexists; split; [done|]; simpl;
       split; [by apply append_wf|]; split; [by apply to_list_append|done]).
  - exists g. by rewrite app_nil_r.
Qed.

Lemma spawnAsteroid_spec inp g f :
  asteroidFactory g = Some f -> slice_wf (asteroids g) ->
  exists g',
    spawnAsteroid inp g = Some g' /\ slice_wf (asteroids g')
    /\ to_list (asteroids g')
       = to_list (asteroids g)
         ++ (if distanceTravelled g >? asteroidSpawnThreshold g
             then [Sprite_ApplyImpulse (GenerateSprite inp f)
                     (float_of_int (randIntn10 inp) - 15)%Q
                     (float_of_int (randIntn6 inp) - 3)%Q]
             else [])
    /\ asteroidSpawnThreshold g'
       = if distanceTravelled g >? asteroidSpawnThreshold g
         then wrap64 (asteroidSpawnThreshold g + 200)
         else asteroidSpawnThreshold g.
Proof.
  intros Hf Hwf. unfold spawnAsteroid.
  destruct (distanceTravelled g >? asteroidSpawnThreshold g).
  - rewrite Hf. simpl.
    destruct (append_last (asteroids g) (GenerateSprite inp f)
                (Sprite_ApplyImpulse (GenerateSprite inp f)
                   (float_of_int (randIntn10 inp) - 15)%Q
                   (float_of_int (randIntn6 inp) - 3)%Q) Hwf)
      as (Hi & Hl & Hwf').
    rewrite Hi. simpl. eexists. split; [done|]. simpl. done.
  - exists g. by rewrite app_nil_r.
Qed.

Lemma spawnStar_spec inp g f :
  starFactory g = Some f -> slice_wf (stars g) ->
  exists g',
    spawnStar inp g = Some g' /\ slice_wf (stars g')
    /\ to_list (stars g')
       = to_list (stars g)
         ++ (if distanceTravelled g >? starSpawnThreshold g
             then [GenerateSprite inp f] else [])
    /\ starSpawnThreshold g'
       = if distanceTravelled g >? starSpawnThreshold g
         then wrap64 (starSpawnThreshold g + 2000)
         else starSpawnThreshold g.
Proof.
  intros Hf Hwf. unfold spawnStar.
  destruct (distanceTravelled g >? starSpawnThreshold g).
  - rewrite Hf. simpl. eexists. split; [done|]. simpl.
    split; [by apply append_wf|]. split; [by apply to_list_append|done].
  - exists g. by rewrite app_nil_r.
Qed.

Lemma omap_kept_unexpired (now : Z) (l : list TransientSprite) :
  omap (kept (fun e => (TransientSprite_Update e now, negb (IsExpired e)))) l
  = (fun e => TransientSprite_Update e now)
      <$> filter (fun e => IsExpired e = false) l.
Proof.
  induction l as [|e l IH]; [done|].
  assert (Hc : forall f : TransientSprite -> option TransientSprite,
             omap f (e :: l)
             = match f e with Some y => y :: omap f l | None => omap f l end)
    by done.
  rewrite Hc, IH, filter_cons. unfold kept. simpl.
  by destruct (IsExpired e).
Qed.

Lemma sweepExplosions_spec g :
  slice_wf (asteroidExplosions g) ->
  exists g',
    sweepExplosions g = Some g'
    /\ g' = set_asteroidExplosions (asteroidExplosions g') g
    /\ slice_wf (asteroidExplosions g')
    /\ cap (asteroidExplosions g') = cap (asteroidExplosions g)
    /\ to_list (asteroidExplosions g')
       = (fun e => TransientSprite_Update e (gameTime g))
           <$> filter (fun e => IsExpired e = false)
                 (to_list (asteroidExplosions g)).
Proof.
  intros Hwf. unfold sweepExplosions.
  destruct (filterInPlace_spec
              (fun e => (TransientSprite_Update e (gameTime g),
                         negb (IsExpired e)))
              (asteroidExplosions g) Hwf) as (t & Hrun & Hl & Hwf' & Hcap).
  rewrite Hrun. simpl. eexists. split; [done|]. simpl.
  split; [by destruct g|]. split; [done|]. split; [done|].
  by rewrite Hl, omap_kept_unexpired.
Qed.

Lemma updateSpires_ok g :
  slice_wf (spires g) ->
  exists g', updateSpires g = Some g' /\ slice_wf (spires g').
Proof.
  intros Hwf. unfold updateSpires.
  match goal with
  | |- context [filterInPlace _ ?st ?s] =>
      destruct (filterInPlace_spec st s Hwf) as (t & Hrun & _ & Hwf' & _)
  end.
  rewrite Hrun. simpl. eauto.
Qed.

Lemma updateAsteroids_ok g :
  slice_wf (asteroids g) ->
  exists g', updateAsteroids g = Some g' /\ slice_wf (asteroids g').
Proof.
  intros Hwf. unfold updateAsteroids.
  match goal with
  | |- context [filterInPlace _ ?st ?s] =>
      destruct (filterInPlace_spec st s Hwf) as (t & Hrun & _ & Hwf' & _)
  end.
  rewrite Hrun. simpl. eauto.
Qed.

Lemma updateStars_ok g :
  slice_wf (stars g) ->
  exists g', updateStars g = Some g' /\ slice_wf (stars g').
Proof.
  intros Hwf. unfold updateStars.
  match goal with
  | |- context [filterInPlace _ ?st ?s] =>
      destruct (filterInPlace_spec st s Hwf) as (t & Hrun & _ & Hwf' & _)
  end.
  rewrite Hrun. simpl. eauto.
Qed.

Lemma beforeGround_ok inp g :
  is_Some (ship g) -> exists gb, beforeGround inp g = Some gb.
Proof.
  intros [s Hs]. pose proof (advanceCounters_frame g) as Fc.
  unfold beforeGround, shipMovement. rewrite Fc. simpl. rewrite Hs. simpl.
  unfold checkShieldOn. simpl.
  match goal with |- context [if ?c then _ else _] => destruct c end;
    simpl; eauto.
Qed.

Lemma beforeCollisions_ok inp g :
  is_Some (ship g) ->
  ground_ok (topGroundTiles g) -> ground_ok (bottomGroundTiles g) ->
  slices_ok g ->
  exists gd, beforeCollisions inp g = Some gd /\ slices_ok gd.
Proof.
  intros Hs Ht Hb (Hw1 & Hw2 & Hw3 & Hw4).
  destruct (beforeGround_ok inp g Hs) as (gb & Hgb).
  pose proof (beforeGround_core _ _ _ Hgb) as Hcore.
  apply core_fields in Hcore as (_ & _ & _ & _ & _ & _ & Htb & Hbb & _).
  destruct (advanceCounters_tiles g) as (Hta & Hba & _).
  rewrite Hta in Htb. rewrite Hba in Hbb.
  assert (Fb : gb = set_shield (shield gb) (set_ship (ship gb)
                                              (advanceCounters g))).
  { revert Hgb. unfold beforeGround.
    destruct (shipMovement inp (advanceCounters g)) as [g1|] eqn:H1; [|done].
    simpl. intros H2. apply shipMovement_frame in H1.
    apply checkShieldOn_frame in H2. rewrite H2, H1. done. }
  pose proof (advanceCounters_frame g) as Fc.
  destruct (updateGround_ok gb) as (gc & Hgc & Fc' & _);
    [by rewrite Htb|by rewrite Hbb|].
  unfold beforeCollisions. rewrite Hgb. simpl. rewrite Hgc. simpl.
  destruct (updateSpires_ok gc) as (g4 & H4 & Hw4').
  { rewrite Fc', Fb, Fc. done. }
  rewrite H4. simpl. pose proof (updateSpires_frame _ _ H4) as F4.
  destruct (updateAsteroids_ok g4) as (g5 & H5 & Hw5').
  { rewrite F4, Fc', Fb, Fc. done. }
  rewrite H5. simpl. pose proof (updateAsteroids_frame _ _ H5) as F5.
  destruct (updateStars_ok g5) as (g6 & H6 & Hw6').
  { rewrite F5, F4, Fc', Fb, Fc. done. }
  rewrite H6. pose proof (updateStars_frame _ _ H6) as F6.
  exists g6. split; [done|]. unfold slices_ok.
  split; [rewrite F6, F5; done|]. split; [rewrite F6; done|].
  split; [|done]. rewrite F6, F5, F4, Fc', Fb, Fc. done.
Qed.

(** What follows checkCollisions returns; each of the three spawns adds
    at most one sprite, at the end of its collection. *)
Lemma afterCollisions_spec inp g tf bf af sf :
  topSpireFactory g = Some tf -> bottomSpireFactory g = Some bf ->
  asteroidFactory g = Some af -> starFactory g = Some sf ->
  slices_ok g ->
  exists g',
    afterCollisions inp g = Some g' /\ slices_ok g'
    /\ to_list (spires g')
       = to_list (spires g)
         ++ (if distanceTravelled g >? spireSpawnThreshold g
             then [GenerateSprite inp
                     (if Z.rem (randIntn2 inp) 2 =? 0 then tf else bf)]
             else [])
    /\ to_list (asteroids g')
       = to_list (asteroids g)
         ++ (if distanceTravelled g >? asteroidSpawnThreshold g
             then [Sprite_ApplyImpulse (GenerateSprite inp af)
                     (float_of_int (randIntn10 inp) - 15)%Q
                     (float_of_int (randIntn6 inp) - 3)%Q]
             else [])
    /\ to_list (stars g')
       = to_list (stars g)
         ++ (if distanceTravelled g >? starSpawnThreshold g
             then [GenerateSprite inp sf] else [])
    /\ spireSpawnThreshold g'
       = (if distanceTravelled g >? spireSpawnThreshold g
          then wrap64 (spireSpawnThreshold g + 600)
          else spireSpawnThreshold g)
    /\ asteroidSpawnThreshold g'
       = (if distanceTravelled g >? asteroidSpawnThreshold g
          then wrap64 (asteroidSpawnThreshold g + 200)
          else asteroidSpawnThreshold g)
    /\ starSpawnThreshold g'
       = (if distanceTravelled g >? starSpawnThreshold g
          then wrap64 (starSpawnThreshold g + 2000)
          else starSpawnThreshold g)
    /\ to_list (asteroidExplosions g')
       = (fun e => TransientSprite_Update e (gameTime g))
           <$> filter (fun e => IsExpired e = false)
                 (to_list (asteroidExplosions g)).
Proof.
  intros Htf Hbf Haf Hsf (Hw1 & Hw2 & Hw3 & Hw4).
  destruct (spawnSpire_spec inp g tf bf Htf Hbf Hw1)
    as (g1 & H1 & Hwf1 & Hl1 & Ht1).
  pose proof (spawnSpire_frame _ _ _ H1) as F1.
  destruct (spawnAsteroid_spec inp g1 af) as (g2 & H2 & Hwf2 & Hl2 & Ht2);
    [by rewrite F1|by rewrite F1|].
  pose proof (spawnAsteroid_frame _ _ _ H2) as F2.
  destruct (spawnStar_spec inp g2 sf) as (g3 & H3 & Hwf3 & Hl3 & Ht3);
    [by rewrite F2, F1|by rewrite F2, F1|].
  pose proof (spawnStar_frame _ _ _ H3) as F3.
  destruct (sweepExplosions_spec g3) as (g4 & H4 & F4 & Hwf4 & _ & Hl4);
    [by rewrite F3, F2, F1|].
  unfold afterCollisions. rewrite H1. simpl. rewrite H2. simpl.
  rewrite H3. simpl. rewrite H4. simpl.
  eexists. split; [done|]. unfold slices_ok. simpl.
  assert (E1 : spires g4 = spires g1) by (rewrite F4, F3, F2; done).
  assert (E2 : asteroids g4 = asteroids g2) by (rewrite F4, F3; done).
  assert (E3 : stars g4 = stars g3) by (rewrite F4; done).
  assert (D1 : distanceTravelled g1 = distanceTravelled g)
    by (rewrite F1; done).
  assert (D2 : distanceTravelled g2 = distanceTravelled g)
    by (rewrite F2, F1; done).
  assert (A1 : asteroids g1 = asteroids g) by (rewrite F1; done).
  assert (A2 : asteroidSpawnThreshold g1 = asteroidSpawnThreshold g)
    by (rewrite F1; done).
  assert (S2 : stars g2 = stars g) by (rewrite F2, F1; done).
  assert (S3 : starSpawnThreshold g2 = starSpawnThreshold g)
    by (rewrite F2, F1; done).
  assert (X3 : asteroidExplosions g3 = asteroidExplosions g)
    by (rewrite F3, F2, F1; done).
  assert (G3 : gameTime g3 = gameTime g)
    by (unfold gameTime; rewrite F3, F2, F1; done).
  assert (T1 : spireSpawnThreshold g4 = spireSpawnThreshold g1)
    by (rewrite F4, F3, F2; done).
  assert (T2 : asteroidSpawnThreshold g4 = asteroidSpawnThreshold g2)
    by (rewrite F4, F3; done).
  assert (T3 : starSpawnThreshold g4 = starSpawnThreshold g3)
    by (rewrite F4; done).
  rewrite E1, E2, E3, T1, T2, T3, Hl1, Hl2, Hl3, Ht1, Ht2, Ht3, Hl4.
  rewrite D1, D2, A1, A2, S2, S3, X3, G3.
  repeat (split; [done|]). done.
Qed.

(** *** Invariants of the reachable states, continued *)

Lemma static_fields g :
  configured g ->
  topSpireFactory g
  = Some (mkSpriteFactory [topSpire]
            (screenWidth + 150) (screenWidth + 150) 0 (-200))
  /\ bottomSpireFactory g
     = Some (mkSpriteFactory [bottomSpire]
               (screenWidth + 150) (screenWidth + 150)
               (wrap64 (wrap64 (screenHeight - snd (imageSize topSpire))
                        + 200))
               (wrap64 (screenHeight - snd (imageSize topSpire))))
  /\ asteroidFactory g
     = Some (mkSpriteFactory [asteroid1; asteroid2; asteroid3; asteroid4]
               (screenWidth + 100) (screenWidth + 100)
               (screenHeight - 100) 100)
  /\ starFactory g
     = Some (mkSpriteFactory [starImage]
               (screenWidth + 100) (screenWidth + 100)
               (screenHeight - 100) 100)
  /\ boostSeconds g = 0.
Proof. unfold configured, static. simpl. intros [= -> -> -> -> ->]. done. Qed.

Lemma beforeCollisions_static inp g gd :
  beforeCollisions inp g = Some gd ->
  static gd = static g /\ asteroidExplosions gd = asteroidExplosions g
  /\ mode gd = mode g /\ frameCount gd = frameCount g
  /\ distanceTravelled gd = distanceTravelled (advanceCounters g)
  /\ spireSpawnThreshold gd = spireSpawnThreshold g
  /\ asteroidSpawnThreshold gd = asteroidSpawnThreshold g
  /\ starSpawnThreshold gd = starSpawnThreshold g
  /\ speedIncreaseThreshold gd = speedIncreaseThreshold (advanceCounters g).
Proof.
  intros Hd. apply beforeCollisions_frame in Hd.
  pose proof (advanceCounters_frame g) as Fc.
  rewrite Hd. simpl. repeat split; try done; rewrite Fc; done.
Qed.

Lemma checkCollisions_static inp g g' :
  checkCollisions inp g = Some g' ->
  static g' = static g /\ spires g' = spires g /\ ship g' = ship g
  /\ frameCount g' = frameCount g
  /\ distanceTravelled g' = distanceTravelled g
  /\ spireSpawnThreshold g' = spireSpawnThreshold g
  /\ asteroidSpawnThreshold g' = asteroidSpawnThreshold g
  /\ starSpawnThreshold g' = starSpawnThreshold g
  /\ speedIncreaseThreshold g' = speedIncreaseThreshold g.
Proof.
  intros He. apply checkCollisions_frame in He. rewrite He. done.
Qed.

(** The parts of a Game-mode frame played from a state that has a ship,
    the factories, and well-formed slices and rows of tiles. *)
Lemma updateGame_ok inp g :
  is_Some (ship g) -> configured g ->
  ground_ok (topGroundTiles g) -> ground_ok (bottomGroundTiles g) ->
  slices_ok g ->
  exists gd,
    beforeCollisions inp g = Some gd /\ slices_ok gd /\ configured gd
    /\ forall ge,
         checkCollisions inp gd = Some ge ->
         slices_ok ge /\ configured ge
         /\ exists g', afterCollisions inp ge = Some g' /\ slices_ok g'.
Proof.
  intros Hs Hc Ht Hb Hw.
  destruct (beforeCollisions_ok inp g Hs Ht Hb Hw) as (gd & Hd & Hwd).
  exists gd. split; [done|]. split; [done|].
  destruct (beforeCollisions_static _ _ _ Hd) as (Sd & _).
  assert (Hcd : configured gd) by (unfold configured; by rewrite Sd).
  split; [done|]. intros ge He.
  destruct (checkCollisions_static _ _ _ He) as (Se & Hsp & _).
  assert (Hce : configured ge) by (unfold configured; by rewrite Se).
  destruct Hwd as (Hw1 & Hw2 & Hw3 & Hw4).
  destruct (checkCollisions_destroying inp gd ge Hw2 Hw3 He)
    as (ga & Hga & Hstars).
  pose proof (starCollisions_frame _ _ Hstars) as Fs.
  destruct (starCollisions_wf _ _ Hstars) as [Hw4' _].
  { destruct Hga as (Fa & _). unfold obstacle_frame in Fa.
    rewrite Fa. done. }
  assert (Hwe : slices_ok ge).
  { unfold slices_ok. rewrite Hsp.
    destruct Hga as (_ & Hwa & Hwx & _).
    split; [done|]. split; [by rewrite Fs|].
    split; [by rewrite Fs|done]. }
  split; [done|]. split; [done|].
  destruct (static_fields ge Hce) as (Htf & Hbf & Haf & Hsf & _).
  destruct (afterCollisions_spec inp ge _ _ _ _ Htf Hbf Haf Hsf Hwe)
    as (g' & Ha & Hw' & _).
  by exists g'.
Qed.

Lemma Update_ship inp g g' :
  Update inp g = Some g' -> is_Some (ship g) -> is_Some (ship g').
Proof.
  unfold Update. intros Hrun [s Hs]. destruct (mode g).
  - destruct (keySpaceJustPressed inp); inversion Hrun; subst; simpl; eauto.
  - apply updateGame_static in Hrun as [_ ->].
    unfold shipMovement. rewrite Hs. simpl. eauto.
  - destruct (keyRJustPressed inp); [|inversion Hrun; subst; eauto].
    destruct (resetGame_spec g) as (t & b & Hreset & _).
    rewrite Hreset in Hrun. inversion Hrun; subst. simpl. eauto.
Qed.

Lemma reachable_state_ok g :
  reachable g -> is_Some (ship g) /\ configured g /\ slices_ok g.
Proof.
  induction 1 as [g Hnew|g inp g' Hr (IHs & IHc & IHw) Hstep].
  - unfold newGame, init in Hnew.
    destruct (resetGame_spec zeroGame) as (t & b & Hrun & _).
    rewrite Hrun in Hnew. inversion Hnew; subst. simpl.
    split; [eauto|]. split; [done|].
    unfold slices_ok. simpl. auto using nil_slice_wf.
  - split; [by eapply Update_ship|].
    destruct (reachable_ground_ok g Hr) as [Ht Hb].
    unfold Update in Hstep. destruct (mode g).
    + destruct (keySpaceJustPressed inp); by inversion Hstep; subst.
    + destruct (updateGame_ok inp g IHs IHc Ht Hb IHw)
        as (gd & Hd & _ & _ & Hrest).
      unfold updateGame in Hstep. rewrite Hd in Hstep. simpl in Hstep.
      destruct (checkCollisions inp gd) as [ge|] eqn:He; [|done].
      simpl in Hstep.
      destruct (Hrest ge eq_refl) as (_ & Hce & g'' & Ha & Hw').
      rewrite Ha in Hstep. inversion Hstep; subst g''. split; [|done].
      apply afterCollisions_frame in Ha.
      unfold configured in *. rewrite <- Hce, Ha. done.
    + destruct (keyRJustPressed inp); [|by inversion Hstep; subst].
      destruct (resetGame_spec g) as (t & b & Hrun & _).
      rewrite Hrun in Hstep. inversion Hstep; subst. simpl.
      destruct (static_fields g IHc) as (_ & _ & _ & _ & Hbs).
      split; [unfold configured; rewrite Hbs; done|].
      unfold slices_ok. simpl. auto using nil_slice_wf.
Qed.

(** X1.  In every reachable state the ship is not nil, the four sprite
    factories are those that the initialize functions build, and the
    boost duration field [boostSeconds] is 0: no frame writes them. *)
Theorem configuration_is_constant (g : Game) :
  reachable g ->
  is_Some (ship g)
  /\ topSpireFactory g
     = Some (mkSpriteFactory [topSpire]
               (screenWidth + 150) (screenWidth + 150) 0 (-200))
  /\ bottomSpireFactory g
     = Some (mkSpriteFactory [bottomSpire]
               (screenWidth + 150) (screenWidth + 150)
               (wrap64 (wrap64 (screenHeight - snd (imageSize topSpire))
                        + 200))
               (wrap64 (screenHeight - snd (imageSize topSpire))))
  /\ asteroidFactory g
     = Some (mkSpriteFactory [asteroid1; asteroid2; asteroid3; asteroid4]
               (screenWidth + 100) (screenWidth + 100)
               (screenHeight - 100) 100)
  /\ starFactory g
     = Some (mkSpriteFactory [starImage]
               (screenWidth + 100) (screenWidth + 100)
               (screenHeight - 100) 100)
  /\ boostSeconds g = 0.
Proof.
  intros Hr. destruct (reachable_state_ok g Hr) as (Hs & Hc & _).
  split; [done|]. by apply static_fields.
Qed.

(** X2.  A frame played from a reachable state panics only inside
    checkCollisions.  In Title and GameOver mode Update returns.  In Game
    mode everything that precedes checkCollisions returns; if
    checkCollisions returns, so does the rest of the frame; and Update
    panics exactly when checkCollisions does. *)
Theorem frame_panics_only_in_collisions (inp : Input) (g : Game) :
  reachable g ->
  match mode g with
  | ModeGame =>
      exists gd,
        beforeCollisions inp g = Some gd
        /\ match checkCollisions inp gd with
           | Some ge =>
               exists g',
                 afterCollisions inp ge = Some g' /\ Update inp g = Some g'
           | None => Update inp g = None
           end
  | _ => is_Some (Update inp g)
  end.
Proof.
  intros Hr. destruct (reachable_state_ok g Hr) as (Hs & Hc & Hw).
  destruct (reachable_ground_ok g Hr) as [Ht Hb].
  unfold Update. destruct (mode g).
  - destruct (keySpaceJustPressed inp); eauto.
  - destruct (updateGame_ok inp g Hs Hc Ht Hb Hw)
      as (gd & Hd & _ & _ & Hrest).
    exists gd. split; [done|]. unfold updateGame. rewrite Hd. simpl.
    destruct (checkCollisions inp gd) as [ge|] eqn:He; [|done].
    destruct (Hrest ge eq_refl) as (_ & _ & g' & Ha & _).
    exists g'. by rewrite Ha.
  - destruct (keyRJustPressed inp); [|eauto].
    destruct (resetGame_spec g) as (t & b & Hrun & _).
    rewrite Hrun. simpl. eauto.
Qed.

(** X3.  The game ends only on a collision: if a Game-mode frame played
    from a reachable state leaves the mode at GameOver, then in the state
    in which checkCollisions was entered the ship overlapped a top tile, a
    bottom tile, a spire or an asteroid. *)
Theorem game_over_only_on_collision (inp : Input) (g g' : Game) :
  reachable g -> mode g = ModeGame ->
  Update inp g = Some g' -> mode g' = ModeGameOver ->
  exists gd, beforeCollisions inp g = Some gd /\ shipHits gd.
Proof.
  intros Hr Hmode Hrun Hover.
  destruct (reachable_state_ok g Hr) as (Hs & Hc & Hw).
  destruct (reachable_ground_ok g Hr) as [Ht Hb].
  destruct (updateGame_ok inp g Hs Hc Ht Hb Hw)
    as (gd & Hd & (_ & Hwa & Hwx & _) & _).
  exists gd. split; [done|].
  unfold Update in Hrun. rewrite Hmode in Hrun.
  unfold updateGame in Hrun. rewrite Hd in Hrun. simpl in Hrun.
  destruct (checkCollisions inp gd) as [ge|] eqn:He; [|done].
  simpl in Hrun.
  apply afterCollisions_core in Hrun as (Hm' & _).
  destruct (checkCollisions_destroying inp gd ge Hwa Hwx He)
    as (ga & Hga & Hstars).
  apply starCollisions_frame in Hstars.
  destruct (beforeCollisions_static _ _ _ Hd) as (_ & _ & Hmd & _).
  destruct Hga as (_ & _ & _ & _ & _ & _ & _ & _ & [Hm|[_ Hhit]]);
    [|done].
  rewrite Hm' in Hover. rewrite Hstars in Hover. simpl in Hover. congruence.
Qed.

Lemma checkCollisions_mode inp g g' :
  checkCollisions inp g = Some g' ->
  mode g' = mode g \/ mode g' = ModeGameOver.
Proof.
  intros Hrun. pose proof Hrun as Hf. apply checkCollisions_frame in Hf.
  revert Hrun. unfold checkCollisions.
  set (P := fun t : Game => mode t = mode g \/ mode t = ModeGameOver).
  assert (Hobs : forall os t t',
            P t -> obstacleCollisions inp os t = Some t' -> P t').
  { intros os t t' Ht. unfold obstacleCollisions.
    apply (for_each_inv P); [|done].
    intros o u u' _ Hu. destruct (ship u) as [s|]; [|done]. simpl.
    intros H. apply asteroidsAgainst_frame in H. unfold P.
    rewrite H. simpl. destruct (Sprite_IsColliding s o); simpl; auto. }
  destruct (obstacleCollisions inp _ g) as [g1|] eqn:H1; [|done]. simpl.
  destruct (obstacleCollisions inp _ g1) as [g2|] eqn:H2; [|done]. simpl.
  destruct (obstacleCollisions inp _ g2) as [g3|] eqn:H3; [|done]. simpl.
  destruct (asteroidCollisions inp g3) as [g4|] eqn:H4; [|done]. simpl.
  intros H5. apply starCollisions_frame in H5.
  assert (P1 : P g1) by (eapply Hobs; [|exact H1]; by left).
  assert (P2 : P g2) by (eapply Hobs; [exact P1|exact H2]).
  assert (P3 : P g3) by (eapply Hobs; [exact P2|exact H3]).
  assert (P4 : P g4).
  { revert H4. unfold asteroidCollisions, for_range.
    apply (for_each_inv P); [|done].
    intros i u u' _ Hu.
    destruct (arr (asteroids u) !! i) as [a|]; [|done]. simpl.
    assert (Hd : forall v, match shield u with
                           | Some sh =>
                               if Sprite_IsColliding sh a
                               then destroyAsteroid inp i a u
                               else Some u
                           | None => Some u
                           end = Some v -> P v).
    { intros v. destruct (shield u) as [sh|]; [|by intros [= <-]].
      destruct (Sprite_IsColliding sh a); [|by intros [= <-]].
      intros H. apply destroyAsteroid_frame in H. unfold P.
      by rewrite H. }
    destruct (match shield u with Some _ => _ | None => _ end) as [v|];
      [|done].
    specialize (Hd v eq_refl). simpl.
    destruct (ship v) as [s|]; [|done]. simpl. intros [= <-].
    unfold P. destruct (Sprite_IsColliding s a); simpl; auto. }
  unfold P in P4. rewrite H5. simpl. done.
Qed.

(** X4.  The mode changes along Title -> Game -> GameOver -> Title only:
    a frame in Title mode ends in Title or Game mode, a frame in Game mode
    in Game or GameOver mode, a frame in GameOver mode in GameOver or
    Title mode. *)
Theorem mode_transitions (inp : Input) (g g' : Game) :
  Update inp g = Some g' ->
  match mode g with
  | ModeTitle => mode g' = ModeTitle \/ mode g' = ModeGame
  | ModeGame => mode g' = ModeGame \/ mode g' = ModeGameOver
  | ModeGameOver => mode g' = ModeGameOver \/ mode g' = ModeTitle
  end.
Proof.
  unfold Update. destruct (mode g) eqn:Hmode.
  - destruct (keySpaceJustPressed inp); intros [= <-]; simpl; auto.
  - unfold updateGame.
    destruct (beforeCollisions inp g) as [gd|] eqn:Hd; [|done]. simpl.
    destruct (checkCollisions inp gd) as [ge|] eqn:He; [|done]. simpl.
    intros Ha. apply afterCollisions_core in Ha as (-> & _).
    destruct (beforeCollisions_static _ _ _ Hd) as (_ & _ & Hmd & _).
    destruct (checkCollisions_mode _ _ _ He) as [->| ->]; [|by right].
    left. congruence.
  - destruct (keyRJustPressed inp); [|intros [= <-]; auto].
    destruct (resetGame g) as [g1|]; [|done]. simpl.
    intros [= <-]. simpl. auto.
Qed.

(** X5.  Every asteroid that checkCollisions destroys leaves one
    explosion.  When checkCollisions returns, the asteroids it keeps are
    asteroids it found, in their order; the number of asteroids and
    explosions together is the same as before; and the explosions listed
    before are followed by new ones, each created at the position of an
    asteroid of the frame, at the current game time, with a lifetime of
    100 ms, not expired, moving left at the game speed. *)
Theorem destroyed_asteroids_explode (inp : Input) (g g' : Game) :
  slice_wf (asteroids g) -> slice_wf (asteroidExplosions g) ->
  checkCollisions inp g = Some g' ->
  sublist (to_list (asteroids g')) (to_list (asteroids g))
  /\ (len (asteroids g') + len (asteroidExplosions g')
      = len (asteroids g) + len (asteroidExplosions g))%nat
  /\ exists new,
       to_list (asteroidExplosions g')
       = to_list (asteroidExplosions g) ++ new
       /\ Forall (explosionOf g) new.
Proof.
  intros Hwa Hwx Hrun.
  destruct (checkCollisions_destroying inp g g' Hwa Hwx Hrun)
    as (ga & Hga & Hstars).
  apply starCollisions_frame in Hstars.
  destruct Hga as (_ & _ & _ & _ & Hsum & _ & Hsub & Hnew & _).
  rewrite Hstars. simpl. done.
Qed.

(** *** The parts of a completed frame *)

Lemma game_frame_parts inp g g' :
  reachable g -> mode g = ModeGame -> Update inp g = Some g' ->
  exists gd ge,
    beforeCollisions inp g = Some gd /\ checkCollisions inp gd = Some ge
    /\ afterCollisions inp ge = Some g'
    /\ slices_ok gd /\ slices_ok ge /\ configured ge.
Proof.
  intros Hr Hmode Hrun.
  destruct (reachable_state_ok g Hr) as (Hs & Hc & Hw).
  destruct (reachable_ground_ok g Hr) as [Ht Hb].
  destruct (updateGame_ok inp g Hs Hc Ht Hb Hw)
    as (gd & Hd & Hwd & _ & Hrest).
  unfold Update in Hrun. rewrite Hmode in Hrun.
  unfold updateGame in Hrun. rewrite Hd in Hrun. simpl in Hrun.
  destruct (checkCollisions inp gd) as [ge|] eqn:He; [|done].
  simpl in Hrun. destruct (Hrest ge eq_refl) as (Hwe & Hce & _).
  by exists gd, ge.
Qed.

Lemma filter_Forall {A : Type} (P : A -> Prop) `{!forall x, Decision (P x)}
    (l : list A) :
  Forall P l -> filter P l = l.
Proof.
  induction 1 as [|x l Hx _ IH]; [done|].
  by rewrite filter_cons, decide_True, IH.
Qed.

(** X6.  The explosions after a Game-mode frame played from a reachable
    state: the explosions listed before the frame that had not expired,
    followed by the explosions of the asteroids destroyed in the frame,
    each updated once with the game time of the frame.  An explosion is
    tested before it is updated, so one that expires in this update is
    still listed, and leaves in the next frame. *)
Theorem explosions_after_frame (inp : Input) (g g' : Game) :
  reachable g -> mode g = ModeGame -> Update inp g = Some g' ->
  exists gd new,
    beforeCollisions inp g = Some gd
    /\ Forall (explosionOf gd) new
    /\ to_list (asteroidExplosions g')
       = (fun e => TransientSprite_Update e (gameTime g))
           <$> (filter (fun e => IsExpired e = false)
                  (to_list (asteroidExplosions g)) ++ new).
Proof.
  intros Hr Hmode Hrun.
  destruct (game_frame_parts inp g g' Hr Hmode Hrun)
    as (gd & ge & Hd & He & Ha & (_ & Hwa & Hwx & _) & Hwe & Hce).
  destruct (checkCollisions_destroying inp gd ge Hwa Hwx He)
    as (ga & Hga & Hstars).
  apply starCollisions_frame in Hstars.
  destruct Hga as (_ & _ & _ & _ & _ & _ & _ & (new & Hnew & Hall) & _).
  exists gd, new. split; [done|]. split; [done|].
  destruct (static_fields ge Hce) as (Htf & Hbf & Haf & Hsf & _).
  destruct (afterCollisions_spec inp ge _ _ _ _ Htf Hbf Haf Hsf Hwe)
    as (g'' & Ha' & _ & _ & _ & _ & _ & _ & _ & Hl).
  rewrite Ha in Ha'. inversion Ha'; subst g''. rewrite Hl.
  destruct (beforeCollisions_static _ _ _ Hd) as (_ & Hx & _ & Hfd & _).
  destruct (checkCollisions_static _ _ _ He) as (_ & _ & _ & Hfe & _).
  assert (Hxe : asteroidExplosions ge = asteroidExplosions ga)
    by (rewrite Hstars; done).
  unfold gameTime. rewrite Hfe, Hfd, Hxe, Hnew, Hx, filter_app.
  rewrite (filter_Forall _ new); [done|].
  eapply Forall_impl; [exact Hall|]. intros e (a & _ & _ & _ & Hexp & _).
  done.
Qed.

(** X7.  The shield follows the ship.  In the state in which
    checkCollisions is entered there is a shield exactly when the boost is
    active; it has the shield image and lies 17 pixels left of and
    15 pixels above the ship as shipMovement has just placed it. *)
Theorem shield_follows_ship (inp : Input) (g gd : Game) :
  beforeCollisions inp g = Some gd ->
  exists s,
    ship gd = Some s
    /\ isBoosting gd = isBoosting (advanceCounters g)
    /\ shield gd
       = if isBoosting gd
         then Some (mkSprite shieldImage (wrap64 (X s - 17))
                      (wrap64 (Y s - 15)) 0 0 0)
         else None.
Proof.
  unfold beforeCollisions, beforeGround.
  destruct (shipMovement inp (advanceCounters g)) as [g1|] eqn:H1; [|done].
  simpl.
  destruct (checkShieldOn g1) as [g2|] eqn:H2; [|done]. simpl.
  destruct (updateGround g2) as [g3|] eqn:H3; [|done]. simpl.
  destruct (updateSpires g3) as [g4|] eqn:H4; [|done]. simpl.
  destruct (updateAsteroids g4) as [g5|] eqn:H5; [|done]. simpl.
  intros H6.
  pose proof (shipMovement_frame _ _ _ H1) as F1.
  pose proof (checkShieldOn_frame _ _ H2) as F2.
  apply updateGround_frame in H3. apply updateSpires_frame in H4.
  apply updateAsteroids_frame in H5. apply updateStars_frame in H6.
  assert (E1 : ship gd = ship g1) by (rewrite H6, H5, H4, H3, F2; done).
  assert (E2 : shield gd = shield g2) by (rewrite H6, H5, H4, H3; done).
  assert (E3 : isBoosting gd = isBoosting g1)
    by (rewrite H6, H5, H4, H3, F2; done).
  assert (E4 : isBoosting g1 = isBoosting (advanceCounters g))
    by (rewrite F1; done).
  rewrite E1, E2, E3. clear F2. revert H2. unfold checkShieldOn.
  destruct (isBoosting g1).
  - destruct (ship g1) as [s|]; [|done]. simpl. intros [= <-].
    exists s. by rewrite <- E4.
  - intros [= <-]. simpl.
    assert (Hs : is_Some (ship g1)).
    { revert H1. unfold shipMovement.
      destruct (ship (advanceCounters g)); [|done]. simpl.
      intros [= <-]. simpl. eauto. }
    destruct Hs as [s ->]. exists s. by rewrite <- E4.
Qed.

(** X8.  The spawns of a Game-mode frame played from a reachable state.
    With [ge] the state that checkCollisions returns and [d] the distance
    after the frame: a spire is appended exactly when [d] exceeds the
    spire threshold, produced by the top factory when the draw of
    [rand.Intn(2)] is even and by the bottom factory otherwise; an
    asteroid is appended exactly when [d] exceeds the asteroid threshold,
    after the impulse [(rand.Intn(10) - 15, rand.Intn(6) - 3)] has been
    applied to it; a star is appended exactly when [d] exceeds the star
    threshold.  A threshold that fired grows by 600, 200 and 2000
    respectively; the others keep their value. *)
Theorem spawns_on_thresholds (inp : Input) (g g' : Game) :
  reachable g -> mode g = ModeGame -> Update inp g = Some g' ->
  exists ge tf bf af sf,
    (gd ← beforeCollisions inp g; checkCollisions inp gd) = Some ge
    /\ topSpireFactory g = Some tf /\ bottomSpireFactory g = Some bf
    /\ asteroidFactory g = Some af /\ starFactory g = Some sf
    /\ to_list (spires g')
       = to_list (spires ge)
         ++ (if distanceTravelled g' >? spireSpawnThreshold g
             then [GenerateSprite inp
                     (if Z.rem (randIntn2 inp) 2 =? 0 then tf else bf)]
             else [])
    /\ to_list (asteroids g')
       = to_list (asteroids ge)
         ++ (if distanceTravelled g' >? asteroidSpawnThreshold g
             then [Sprite_ApplyImpulse (GenerateSprite inp af)
                     (float_of_int (randIntn10 inp) - 15)%Q
                     (float_of_int (randIntn6 inp) - 3)%Q]
             else [])
    /\ to_list (stars g')
       = to_list (stars ge)
         ++ (if distanceTravelled g' >? starSpawnThreshold g
             then [GenerateSprite inp sf] else [])
    /\ spireSpawnThreshold g'
       = (if distanceTravelled g' >? spireSpawnThreshold g
          then wrap64 (spireSpawnThreshold g + 600)
          else spireSpawnThreshold g)
    /\ asteroidSpawnThreshold g'
       = (if distanceTravelled g' >? asteroidSpawnThreshold g
          then wrap64 (asteroidSpawnThreshold g + 200)
          else asteroidSpawnThreshold g)
    /\ starSpawnThreshold g'
       = (if distanceTravelled g' >? starSpawnThreshold g
          then wrap64 (starSpawnThreshold g + 2000)
          else starSpawnThreshold g).
Proof.
  intros Hr Hmode Hrun.
  destruct (game_frame_parts inp g g' Hr Hmode Hrun)
    as (gd & ge & Hd & He & Ha & _ & Hwe & Hce).
  destruct (reachable_state_ok g Hr) as (_ & Hc & _).
  destruct (static_fields g Hc) as (Htf0 & Hbf0 & Haf0 & Hsf0 & _).
  destruct (static_fields ge Hce) as (Htf & Hbf & Haf & Hsf & _).
  destruct (afterCollisions_spec inp ge _ _ _ _ Htf Hbf Haf Hsf Hwe)
    as (g'' & Ha' & _ & Hl1 & Hl2 & Hl3 & Ht1 & Ht2 & Ht3 & _).
  rewrite Ha in Ha'. inversion Ha'; subst g''.
  apply afterCollisions_core in Ha as (_ & Hdist & _).
  destruct (beforeCollisions_static _ _ _ Hd)
    as (_ & _ & _ & _ & _ & Td1 & Td2 & Td3 & _).
  destruct (checkCollisions_static _ _ _ He)
    as (_ & _ & _ & _ & _ & Te1 & Te2 & Te3 & _).
  rewrite Te1, Td1 in Hl1, Ht1. rewrite Te2, Td2 in Hl2, Ht2.
  rewrite Te3, Td3 in Hl3, Ht3. rewrite <- Hdist in Hl1, Hl2, Hl3.
  rewrite <- Hdist in Ht1, Ht2, Ht3.
  eexists ge, _, _, _, _. rewrite Hd. simpl.
  split; [exact He|]. split; [exact Htf0|]. split; [exact Hbf0|].
  split; [exact Haf0|]. split; [exact Hsf0|].
  split; [exact Hl1|]. split; [exact Hl2|]. split; [exact Hl3|].
  split; [exact Ht1|]. split; [exact Ht2|]. exact Ht3.
Qed.

(** X9.  The game clock runs in Game mode only.  A completed frame leaves
    the frame counter alone in Title mode and in GameOver mode without
    the restart key, sets it to 0 on restart, and adds one to it in Game
    mode, whether or not the frame ends the game; the game time
    [frameCount * time.Second / 60] then grows by a sixtieth of a second,
    rounded to the nanosecond. *)
Theorem game_clock (inp : Input) (g g' : Game) :
  Update inp g = Some g' ->
  frameCount g'
  = match mode g with
    | ModeTitle => frameCount g
    | ModeGame => wrap64 (frameCount g + 1)
    | ModeGameOver => if keyRJustPressed inp then 0 else frameCount g
    end
  /\ (mode g = ModeGame -> 0 <= frameCount g < 9000000000 ->
      16666666 <= gameTime g' - gameTime g <= 16666667).
Proof.
  intros Hrun.
  assert (Hf : frameCount g'
               = match mode g with
                 | ModeTitle => frameCount g
                 | ModeGame => wrap64 (frameCount g + 1)
                 | ModeGameOver =>
                     if keyRJustPressed inp then 0 else frameCount g
                 end).
  { revert Hrun. unfold Update. destruct (mode g).
    - destruct (keySpaceJustPressed inp); by intros [= <-].
    - unfold updateGame.
      destruct (beforeCollisions inp g) as [gd|] eqn:Hd; [|done]. simpl.
      destruct (checkCollisions inp gd) as [ge|] eqn:He; [|done]. simpl.
      intros Ha.
      apply afterCollisions_core
        in Ha as (_ & _ & _ & _ & _ & _ & _ & _ & ->).
      destruct (beforeCollisions_static _ _ _ Hd) as (_ & _ & _ & <- & _).
      by destruct (checkCollisions_static _ _ _ He) as (_ & _ & _ & -> & _).
    - destruct (keyRJustPressed inp); [|by intros [= <-]].
      destruct (resetGame g) as [g1|] eqn:Hreset; [|done]. simpl.
      intros [= <-]. simpl.
      by apply resetGame_counters
        in Hreset as (_ & _ & _ & _ & _ & _ & _ & _ & _ & _ & Hfc & _). }
  split; [done|]. intros Hmode Hrange. rewrite Hmode in Hf.
  unfold gameTime. rewrite Hf. unfold Second.
  rewrite (wrap64_id (frameCount g + 1)) by (unfold int_min, int_max; lia).
  rewrite !wrap64_id by (unfold int_min, int_max; lia).
  rewrite !Z.quot_div_nonneg by lia.
  pose proof (Z.div_mod (frameCount g * 1000000000) 60 ltac:(lia)).
  pose proof (Z.mod_pos_bound (frameCount g * 1000000000) 60 ltac:(lia)).
  pose proof (Z.div_mod ((frameCount g + 1) * 1000000000) 60 ltac:(lia)).
  pose proof (Z.mod_pos_bound ((frameCount g + 1) * 1000000000) 60
                ltac:(lia)).
  lia.
Qed.

(** *** Thresholds *)

Lemma advanceCounters_threshold g :
  speedIncreaseThreshold (advanceCounters g)
  = if distanceTravelled (advanceCounters g) >? speedIncreaseThreshold g
    then wrap64 (speedIncreaseThreshold g + speedIncreaseThreshold g)
    else speedIncreaseThreshold g.
Proof.
  rewrite advanceCounters_distance. unfold advanceCounters. simpl.
  destruct (_ >? speedIncreaseThreshold g); simpl;
    destruct (isBoosting g); simpl; try done; by destruct (_ >? Second * 5).
Qed.

Lemma spawnSpire_threshold inp g g' :
  spawnSpire inp g = Some g' ->
  spireSpawnThreshold g'
  = if distanceTravelled g >? spireSpawnThreshold g
    then wrap64 (spireSpawnThreshold g + 600)
    else spireSpawnThreshold g.
Proof.
  unfold spawnSpire.
  destruct (distanceTravelled g >? spireSpawnThreshold g);
    [|by intros [= <-]].
  destruct (Z.rem (randIntn2 inp) 2 =? 0).
  - destruct (topSpireFactory g); [|done]. simpl. by intros [= <-].
  - destruct (bottomSpireFactory g); [|done]. simpl. by intros [= <-].
Qed.

Lemma spawnAsteroid_threshold inp g g' :
  spawnAsteroid inp g = Some g' ->
  asteroidSpawnThreshold g'
  = if distanceTravelled g >? asteroidSpawnThreshold g
    then wrap64 (asteroidSpawnThreshold g + 200)
    else asteroidSpawnThreshold g.
Proof.
  unfold spawnAsteroid.
  destruct (distanceTravelled g >? asteroidSpawnThreshold g);
    [|by intros [= <-]].
  destruct (asteroidFactory g); [|done]. simpl.
  destruct (index _ _); [|done]. simpl. by intros [= <-].
Qed.

Lemma spawnStar_threshold inp g g' :
  spawnStar inp g = Some g' ->
  starSpawnThreshold g'
  = if distanceTravelled g >? starSpawnThreshold g
    then wrap64 (starSpawnThreshold g + 2000)
    else starSpawnThreshold g.
Proof.
  unfold spawnStar.
  destruct (distanceTravelled g >? starSpawnThreshold g);
    [|by intros [= <-]].
  destruct (starFactory g); [|done]. simpl. by intros [= <-].
Qed.

(** The four thresholds after a Game-mode frame, with [d] the distance
    after the frame. *)
Lemma updateGame_thresholds inp g g' :
  updateGame inp g = Some g' ->
  let d := distanceTravelled g' in
  spireSpawnThreshold g'
  = (if d >? spireSpawnThreshold g
     then wrap64 (spireSpawnThreshold g + 600) else spireSpawnThreshold g)
  /\ asteroidSpawnThreshold g'
     = (if d >? asteroidSpawnThreshold g
        then wrap64 (asteroidSpawnThreshold g + 200)
        else asteroidSpawnThreshold g)
  /\ starSpawnThreshold g'
     = (if d >? starSpawnThreshold g
        then wrap64 (starSpawnThreshold g + 2000)
        else starSpawnThreshold g)
  /\ speedIncreaseThreshold g'
     = (if d >? speedIncreaseThreshold g
        then wrap64 (speedIncreaseThreshold g + speedIncreaseThreshold g)
        else speedIncreaseThreshold g).
Proof.
  unfold updateGame.
  destruct (beforeCollisions inp g) as [gd|] eqn:Hd; [|done]. simpl.
  destruct (checkCollisions inp gd) as [ge|] eqn:He; [|done]. simpl.
  intros Ha.
  destruct (beforeCollisions_static _ _ _ Hd)
    as (_ & _ & _ & _ & Dd & Td1 & Td2 & Td3 & Td4).
  destruct (checkCollisions_static _ _ _ He)
    as (_ & _ & _ & _ & De & Te1 & Te2 & Te3 & Te4).
  pose proof (afterCollisions_frame _ _ _ Ha) as Fa.
  revert Ha. unfold afterCollisions.
  destruct (spawnSpire inp ge) as [g1|] eqn:H1; [|done]. simpl.
  destruct (spawnAsteroid inp g1) as [g2|] eqn:H2; [|done]. simpl.
  destruct (spawnStar inp g2) as [g3|] eqn:H3; [|done]. simpl.
  destruct (sweepExplosions g3) as [g4|] eqn:H4; [|done]. simpl.
  intros [= <-]. simpl.
  pose proof (spawnSpire_frame _ _ _ H1) as F1.
  pose proof (spawnAsteroid_frame _ _ _ H2) as F2.
  pose proof (spawnStar_frame _ _ _ H3) as F3.
  pose proof (sweepExplosions_frame _ _ H4) as F4.
  apply spawnSpire_threshold in H1. apply spawnAsteroid_threshold in H2.
  apply spawnStar_threshold in H3.
  assert (D4 : distanceTravelled g4 = distanceTravelled ge)
    by (rewrite F4, F3, F2, F1; done).
  assert (D1 : distanceTravelled g1 = distanceTravelled ge)
    by (rewrite F1; done).
  assert (D2 : distanceTravelled g2 = distanceTravelled ge)
    by (rewrite F2, F1; done).
  assert (A1 : asteroidSpawnThreshold g1 = asteroidSpawnThreshold ge)
    by (rewrite F1; done).
  assert (S2 : starSpawnThreshold g2 = starSpawnThreshold ge)
    by (rewrite F2, F1; done).
  assert (T1 : spireSpawnThreshold g4 = spireSpawnThreshold g1)
    by (rewrite F4, F3, F2; done).
  assert (T2 : asteroidSpawnThreshold g4 = asteroidSpawnThreshold g2)
    by (rewrite F4, F3; done).
  assert (T3 : starSpawnThreshold g4 = starSpawnThreshold g3)
    by (rewrite F4; done).
  assert (T4 : speedIncreaseThreshold g4 = speedIncreaseThreshold ge)
    by (rewrite F4, F3, F2, F1; done).
  rewrite D4, T1, T2, T3, T4, H1, H2, H3, D1, D2, A1, S2.
  rewrite Te1, Te2, Te3, Te4, Td1, Td2, Td3, Td4, De, Dd.
  repeat (split; [done|]). apply advanceCounters_threshold.
Qed.

(** X10.  The thresholds advance in fixed steps.  In every reachable
    state the spire threshold is a multiple of 600 and the asteroid
    threshold a multiple of 200, both at least one step; the star
    threshold is 50 plus a multiple of 2000; and the speed threshold is
    500 doubled some number of times, all in [int] arithmetic. *)
Theorem thresholds_arithmetic (g : Game) :
  reachable g ->
  exists a b c d : nat,
    spireSpawnThreshold g = wrap64 (600 * (1 + Z.of_nat a))
    /\ asteroidSpawnThreshold g = wrap64 (200 * (1 + Z.of_nat b))
    /\ starSpawnThreshold g = wrap64 (50 + 2000 * Z.of_nat c)
    /\ speedIncreaseThreshold g = wrap64 (500 * 2 ^ Z.of_nat d).
Proof.
  assert (Hinit : forall g0 g1, resetGame g0 = Some g1 ->
            spireSpawnThreshold g1 = wrap64 (600 * (1 + Z.of_nat 0))
            /\ asteroidSpawnThreshold g1 = wrap64 (200 * (1 + Z.of_nat 0))
            /\ starSpawnThreshold g1 = wrap64 (50 + 2000 * Z.of_nat 0)
            /\ speedIncreaseThreshold g1 = wrap64 (500 * 2 ^ Z.of_nat 0)).
  { intros g0 g1 Hreset.
    apply resetGame_counters in Hreset
      as (_ & _ & _ & -> & _ & _ & _ & -> & -> & -> & _).
    by vm_compute. }
  induction 1 as [g Hnew|g inp g' _ (a & b & c & d & Ha & Hb & Hc & Hd) Hstep].
  - exists 0%nat, 0%nat, 0%nat, 0%nat. by apply (Hinit zeroGame).
  - unfold Update in Hstep. destruct (mode g).
    + exists a, b, c, d.
      destruct (keySpaceJustPressed inp); by inversion Hstep; subst.
    + destruct (updateGame_thresholds _ _ _ Hstep) as (-> & -> & -> & ->).
      exists (if distanceTravelled g' >? spireSpawnThreshold g
              then S a else a),
        (if distanceTravelled g' >? asteroidSpawnThreshold g
         then S b else b),
        (if distanceTravelled g' >? starSpawnThreshold g then S c else c),
        (if distanceTravelled g' >? speedIncreaseThreshold g
         then S d else d).
      rewrite Ha, Hb, Hc, Hd.
      repeat split;
        match goal with |- context [if ?x then _ else _] => destruct x end;
        try done; rewrite ?wrap64_add_l, ?wrap64_add_r, ?wrap64_add_l;
        f_equal; rewrite ?Nat2Z.inj_succ, ?Z.pow_succ_r; lia.
    + destruct (keyRJustPressed inp);
        [|exists a, b, c, d; by inversion Hstep; subst].
      destruct (resetGame g) as [g1|] eqn:Hreset; [|done].
      simpl in Hstep. inversion Hstep; subst.
      exists 0%nat, 0%nat, 0%nat, 0%nat. simpl. by apply (Hinit g).
Qed.

(** *** The ship *)

(** X11.  In every reachable state the ship has the ship image, no
    horizontal velocity, a vertical velocity that is a whole number of
    quarters of a pixel per frame, and a rotation of [YVelocity / 96]
    quarter turns ([YVelocity / 96 * math.Pi / 2]). *)
Theorem ship_velocity_in_quarters (g : Game) :
  reachable g ->
  exists (s : Sprite) (k : Z),
    ship g = Some s
    /\ Image s = shipImage /\ XVelocity s = 0%Q
    /\ (YVelocity s == k # 4)%Q
    /\ (Rotation s == YVelocity s / 96 / 2)%Q.
Proof.
  assert (Hinit : forall g0 g1, resetGame g0 = Some g1 ->
            exists (s : Sprite) (k : Z),
              ship g1 = Some s
              /\ Image s = shipImage /\ XVelocity s = 0%Q
              /\ (YVelocity s == k # 4)%Q
              /\ (Rotation s == YVelocity s / 96 / 2)%Q).
  { intros g0 g1 Hreset.
    destruct (resetGame_spec g0) as (t & b & Hrun & _).
    rewrite Hrun in Hreset. inversion Hreset; subst. simpl.
    eexists _, 0. split; [done|]. simpl. done. }
  induction 1 as [g Hnew|g inp g' _ (s & k & Hs & Hi & Hx & Hy & Hrot) Hstep].
  - by apply (Hinit zeroGame).
  - unfold Update in Hstep. destruct (mode g).
    + exists s, k.
      destruct (keySpaceJustPressed inp); by inversion Hstep; subst.
    + apply updateGame_static in Hstep as [_ ->].
      unfold shipMovement. rewrite Hs. simpl.
      destruct (mouseLeftPressed inp || keySpacePressed inp).
      * eexists _, (k - 1). split; [done|]. simpl.
        split; [done|]. split; [done|]. split; [|done].
        rewrite Hy. unfold Qeq. simpl. lia.
      * eexists _, (k + 1). split; [done|]. simpl.
        split; [done|]. split; [done|]. split; [|done].
        rewrite Hy. unfold Qeq. simpl. lia.
    + destruct (keyRJustPressed inp);
        [|exists s, k; by inversion Hstep; subst].
      destruct (resetGame g) as [g1|] eqn:Hreset; [|done].
      simpl in Hstep. inversion Hstep; subst. simpl. by apply (Hinit g).
Qed.

(** *** The layout of the ground *)

Lemma groundLoop_exact (g0 : Game) (fuel n : nat) (t b : slice Sprite) :
  Z.of_nat n <= 1030 -> 1031 <= Z.of_nat fuel + Z.of_nat n ->
  (Z.of_nat n - 1) * imageWidth < screenWidth + imageWidth * 2 ->
  slice_wf t -> slice_wf b ->
  to_list t = (fun k => topTile (tileX k g0) g0) <$> seqZ 0 (Z.of_nat n) ->
  to_list b = (fun k => bottomTile (tileX k g0) g0) <$> seqZ 0 (Z.of_nat n) ->
  exists (m : nat) (t' b' : slice Sprite),
    groundLoop fuel (Z.of_nat n)
      (set_bottomGroundTiles b (set_topGroundTiles t g0))
    = Some (set_bottomGroundTiles b' (set_topGroundTiles t' g0))
    /\ (Z.of_nat m - 1) * imageWidth < screenWidth + imageWidth * 2
       <= Z.of_nat m * imageWidth
    /\ Z.of_nat m <= 1030
    /\ to_list t'
       = (fun k => topTile (tileX k g0) g0) <$> seqZ 0 (Z.of_nat m)
    /\ to_list b'
       = (fun k => bottomTile (tileX k g0) g0) <$> seqZ 0 (Z.of_nat m).
Proof.
  revert n t b.
  induction fuel as [|fuel IH]; intros n t b Hn Hfuel Hmin Hwt Hwb Ht Hb;
    [lia|].
  simpl.
  assert (Hw : wrap64 (imageWidth * 2) = imageWidth * 2)
    by (apply wrap64_id; unfold int_min, int_max; lia).
  assert (Hi : wrap64 (Z.of_nat n * imageWidth) = Z.of_nat n * imageWidth)
    by (apply wrap64_id; unfold int_min, int_max; nia).
  assert (Hs : wrap64 (screenWidth + imageWidth * 2)
               = screenWidth + imageWidth * 2)
    by (apply wrap64_id; unfold int_min, int_max, screenWidth; lia).
  rewrite Hw, Hi, Hs.
  destruct (Z.of_nat n * imageWidth <? screenWidth + imageWidth * 2) eqn:Hc.
  - apply Z.ltb_lt in Hc.
    assert (Hn' : Z.of_nat n < 1030) by (unfold screenWidth in Hc; nia).
    replace (wrap64 (Z.of_nat n + 1)) with (Z.of_nat (S n))
      by (rewrite wrap64_id; unfold int_min, int_max; lia).
    destruct (IH (S n)
                (append growcap t [topTile (tileX (Z.of_nat n) g0) g0])
                (append growcap b [bottomTile (tileX (Z.of_nat n) g0) g0]))
      as (m & t' & b' & Hrun & Hm & Hend & Ht' & Hb');
      try lia; try (by apply append_wf).
    + rewrite to_list_append, Ht, seqZ_S, fmap_app by done. done.
    + rewrite to_list_append, Hb, seqZ_S, fmap_app by done. done.
    + exists m, t', b'. split; [exact Hrun|]. done.
  - apply Z.ltb_ge in Hc. exists n, t, b. split; [done|].
    split; [lia|]. split; [lia|]. done.
Qed.

(** The rows that resetGame lays: [m] tiles each, the least number that
    reaches two tile widths past the right edge of the screen, tile [k] at
    [X = k * imageWidth]. *)
Lemma resetGame_layout (g : Game) :
  exists (m : nat) (t b : slice Sprite),
    resetGame g = Some (initialState (mode g) (boostSeconds g) t b)
    /\ (Z.of_nat m - 1) * imageWidth < screenWidth + imageWidth * 2
       <= Z.of_nat m * imageWidth
    /\ to_list t = initialTop <$> seqZ 0 (Z.of_nat m)
    /\ to_list b = initialBottom <$> seqZ 0 (Z.of_nat m).
Proof.
  unfold resetGame, initializeGround.
  assert (Hfuel : 1031 <= Z.of_nat groundFuel + Z.of_nat 0)
    by (by vm_compute).
  generalize dependent groundFuel. intros fuel Hfuel.
  match goal with
  | |- context [groundLoop fuel 0 (set_bottomGroundTiles _
                                     (set_topGroundTiles _ ?g0))] =>
      destruct (groundLoop_exact g0 fuel 0 nil_slice nil_slice)
        as (m & t & b & Hrun & Hm & Hle & Ht & Hb);
      try lia; try apply nil_slice_wf; try done
  end.
  { pose proof imageWidth_ok. unfold screenWidth. simpl. lia. }
  change (Z.of_nat 0) with 0 in Hrun.
  rewrite Hrun. clear Hrun. simpl. exists m, t, b.
  split; [done|]. split; [done|].
  assert (Hx : forall k, k ∈ seqZ 0 (Z.of_nat m) ->
            wrap64 (wrap64 (imageWidth * k) - 0) = imageWidth * k).
  { intros k Hk. apply elem_of_seqZ in Hk. rewrite Z.sub_0_r.
    assert (Hr : int_min <= imageWidth * k <= int_max)
      by (unfold int_min, int_max; nia).
    by rewrite !(wrap64_id (imageWidth * k)). }
  rewrite Ht, Hb. split.
  - apply list_fmap_ext. intros i k Hk. apply list_elem_of_lookup_2 in Hk.
    unfold topTile, tileX, initialTop. simpl. by rewrite Hx.
  - apply list_fmap_ext. intros i k Hk. apply list_elem_of_lookup_2 in Hk.
    unfold bottomTile, tileX, initialBottom. simpl. by rewrite Hx.
Qed.

Lemma initial_rows_aligned (m : Z) :
  rows_aligned (initialTop <$> seqZ 0 m) (initialBottom <$> seqZ 0 m).
Proof.
  unfold rows_aligned. split; [|split].
  - change (map X (initialTop <$> seqZ 0 m))
      with (X <$> (initialTop <$> seqZ 0 m)).
    change (map X (initialBottom <$> seqZ 0 m))
      with (X <$> (initialBottom <$> seqZ 0 m)).
    by rewrite <- !list_fmap_compose.
  - apply Forall_fmap, Forall_forall. done.
  - apply Forall_fmap, Forall_forall. done.
Qed.

Lemma map_X_moveTile v l1 l2 :
  map X l1 = map X l2 ->
  map X (map (moveTile v) l1) = map X (map (moveTile v) l2).
Proof.
  revert l2. induction l1 as [|a l1 IH]; intros [|b l2] H; try done.
  simpl in H. injection H as Hab Hl. cbn [map].
  f_equal; [by rewrite !moveTile_X, Hab|by apply IH].
Qed.

Lemma map_X_lookup (l1 l2 : list Sprite) i a b :
  map X l1 = map X l2 -> l1 !! i = Some a -> l2 !! i = Some b -> X a = X b.
Proof.
  intros Hl Ha Hb.
  assert (H : map X l1 !! i = Some (X a))
    by (change (map X l1) with (X <$> l1); by rewrite list_lookup_fmap, Ha).
  rewrite Hl in H. change (map X l2) with (X <$> l2) in H.
  rewrite list_lookup_fmap, Hb in H. simpl in H. congruence.
Qed.

(** updateGround keeps the rows aligned. *)
Lemma row_updated_aligned (v : Q) (g : Game) (t b t' b' : slice Sprite) :
  slice_wf t -> slice_wf b ->
  rows_aligned (to_list t) (to_list b) ->
  row_updated v (fun x => topTile x g) t t' ->
  row_updated v (fun x => bottomTile x g) b b' ->
  rows_aligned (to_list t') (to_list b').
Proof.
  intros Hwt Hwb (Hx & Ht & Hb) (_ & _ & ft & lt & Hft & Hlt & Hlt')
    (_ & _ & fb & lb & Hfb & Hlb & Hlb').
  pose proof (map_X_moveTile v _ _ Hx) as Hmx.
  assert (Hlen : len t = len b).
  { rewrite <- (to_list_length t), <- (to_list_length b) by done.
    apply (f_equal length) in Hx. by rewrite !length_map in Hx. }
  rewrite <- Hlen in Hlb.
  pose proof (map_X_lookup _ _ _ _ _ Hmx Hft Hfb) as Hf.
  pose proof (map_X_lookup _ _ _ _ _ Hmx Hlt Hlb) as Hl.
  assert (Hmt : Forall (fun s => Image s = floorImage /\ Rotation s = 1%Q)
                  (map (moveTile v) (to_list t))).
  { change (map (moveTile v) (to_list t))
      with (moveTile v <$> to_list t).
    apply Forall_fmap. eapply Forall_impl; [exact Ht|]. done. }
  assert (Hmb : Forall (fun s => Image s = floorImage /\ Rotation s = 0%Q)
                  (map (moveTile v) (to_list b))).
  { change (map (moveTile v) (to_list b))
      with (moveTile v <$> to_list b).
    apply Forall_fmap. eapply Forall_impl; [exact Hb|]. done. }
  rewrite Hlt', Hlb', <- Hf, <- Hl. unfold rows_aligned.
  destruct (X ft <=? wrap64 (- imageWidth)); [|done].
  split; [|split].
  - rewrite !map_app, <- !skipn_map, Hmx. done.
  - apply Forall_app. split; [by apply Forall_drop|].
    by apply Forall_singleton.
  - apply Forall_app. split; [by apply Forall_drop|].
    by apply Forall_singleton.
Qed.

(** X12.  The two rows of ground tiles stay aligned.  In every reachable
    state the top and bottom rows have their tiles at the same [X], index
    by index; every tile has the floor image; the top tiles are turned by
    [math.Pi] and the bottom tiles are not. *)
Theorem ground_rows_aligned (g : Game) :
  reachable g ->
  rows_aligned (to_list (topGroundTiles g)) (to_list (bottomGroundTiles g)).
Proof.
  assert (Hinit : forall g0 g1, resetGame g0 = Some g1 ->
            rows_aligned (to_list (topGroundTiles g1))
              (to_list (bottomGroundTiles g1))).
  { intros g0 g1 Hreset.
    destruct (resetGame_layout g0) as (m & t & b & Hrun & _ & Ht & Hb).
    rewrite Hrun in Hreset. inversion Hreset; subst. simpl.
    rewrite Ht, Hb. apply initial_rows_aligned. }
  induction 1 as [g Hnew|g inp g' Hr IH Hstep].
  - by apply (Hinit zeroGame).
  - destruct (reachable_ground_ok g Hr) as [Ht Hb].
    unfold Update in Hstep. destruct (mode g).
    + destruct (keySpaceJustPressed inp); by inversion Hstep; subst.
    + destruct (updateGame_phases _ _ _ Hstep)
        as (gb & gc & gd & Hgb & Hc & _ & Hcb & Hcd & _ & _ & ge & He & Ha).
      apply afterCollisions_core
        in Ha as (_ & _ & _ & _ & _ & _ & -> & -> & _).
      apply checkCollisions_core in He as (_ & -> & -> & _).
      apply core_fields in Hcd as (_ & _ & _ & _ & _ & _ & -> & -> & _).
      apply core_fields in Hcb as (_ & _ & _ & _ & _ & _ & Htb & Hbb & _).
      destruct (advanceCounters_tiles g) as (Hta & Hba & _).
      rewrite Hta in Htb. rewrite Hba in Hbb.
      destruct (updateGround_ok gb) as (gc' & Hc' & _ & Hut & Hub & _);
        [by rewrite Htb|by rewrite Hbb|].
      rewrite Hc in Hc'. inversion Hc'; subst gc'.
      rewrite Htb in Hut. rewrite Hbb in Hub.
      apply (row_updated_aligned (- speed gb)%Q gb (topGroundTiles g)
               (bottomGroundTiles g)); auto; apply Ht || apply Hb.
    + destruct (keyRJustPressed inp); [|by inversion Hstep; subst].
      destruct (resetGame g) as [g1|] eqn:Hreset; [|done].
      simpl in Hstep. inversion Hstep; subst. simpl. by apply (Hinit g).
Qed.

(** X13.  A new game.  newGame returns a state in Title mode in which
    every counter has the initial value of resetGame, the four
    collections are nil, and each row of ground holds [m] tiles, tile [k]
    at [X = k * imageWidth]: [m] is the least number of tiles that reaches
    two tile widths past the right edge of the screen. *)
Theorem new_game_layout :
  exists (m : nat) (t b : slice Sprite),
    newGame = Some (initialState ModeTitle 0 t b)
    /\ (Z.of_nat m - 1) * imageWidth < screenWidth + imageWidth * 2
       <= Z.of_nat m * imageWidth
    /\ to_list t = initialTop <$> seqZ 0 (Z.of_nat m)
    /\ to_list b = initialBottom <$> seqZ 0 (Z.of_nat m).
Proof. unfold newGame, init. apply (resetGame_layout zeroGame). Qed.

(** *** Frames in which nothing is destroyed or collected *)

Lemma gameOverIf_orb (b c : bool) (g : Game) :
  (if c then set_mode ModeGameOver (gameOverIf b g) else gameOverIf b g)
  = gameOverIf (b || c) g.
Proof. by destruct b, c. Qed.

Lemma gameOverIf_fields (b : bool) (g : Game) :
  ship (gameOverIf b g) = ship g /\ shield (gameOverIf b g) = shield g
  /\ asteroids (gameOverIf b g) = asteroids g
  /\ stars (gameOverIf b g) = stars g
  /\ topGroundTiles (gameOverIf b g) = topGroundTiles g
  /\ bottomGroundTiles (gameOverIf b g) = bottomGroundTiles g
  /\ spires (gameOverIf b g) = spires g.
Proof. by destruct b. Qed.

Lemma slice_cell {A : Type} (s : slice A) (i : nat) :
  slice_wf s -> (i < len s)%nat ->
  exists x, arr s !! i = Some x /\ to_list s !! i = Some x /\ x ∈ to_list s.
Proof.
  intros [H1 H2] Hi.
  destruct (lookup_lt_is_Some_2 (arr s) i) as [x Hx]; [lia|].
  assert (Hl : to_list s !! i = Some x)
    by (unfold to_list; by rewrite lookup_take_lt).
  exists x. split; [done|]. split; [done|].
  by apply (list_elem_of_lookup_2 _ i).
Qed.

Lemma asteroidsAgainst_quiet inp o g b :
  slice_wf (asteroids g) ->
  (forall a, a ∈ to_list (asteroids g) -> Sprite_IsColliding a o = false) ->
  asteroidsAgainst inp o (gameOverIf b g) = Some (gameOverIf b g).
Proof.
  intros Hwf Hno. unfold asteroidsAgainst, for_range.
  destruct (gameOverIf_fields b g) as (_ & _ & Ha & _). rewrite Ha.
  apply for_each_skip. intros i Hi. apply elem_of_seq in Hi. rewrite Ha.
  destruct (slice_cell (asteroids g) i Hwf) as (a & Hcell & _ & Hin); [lia|].
  rewrite Hcell. simpl. by rewrite (Hno a Hin).
Qed.

Lemma obstacleCollisions_quiet inp os g s b :
  ship g = Some s -> slice_wf (asteroids g) ->
  (forall a o, a ∈ to_list (asteroids g) -> o ∈ os ->
               Sprite_IsColliding a o = false) ->
  obstacleCollisions inp os (gameOverIf b g)
  = Some (gameOverIf (b || existsb (Sprite_IsColliding s) os) g).
Proof.
  intros Hs Hwf. unfold obstacleCollisions. revert b.
  induction os as [|o os IH]; intros b Hno; simpl.
  - by rewrite orb_false_r.
  - destruct (gameOverIf_fields b g) as (Hsb & _). rewrite Hsb, Hs. simpl.
    rewrite gameOverIf_orb, asteroidsAgainst_quiet; [|done|].
    + rewrite IH, orb_assoc; [done|].
      intros a o' Ha Ho'. apply Hno; [done|by right].
    + intros a Ha. apply Hno; [done|by left].
Qed.

Lemma asteroidCollisions_quiet_loop inp g s (k i : nat) (b : bool) :
  ship g = Some s -> slice_wf (asteroids g) ->
  (forall sh a, shield g = Some sh -> a ∈ to_list (asteroids g) ->
                Sprite_IsColliding sh a = false) ->
  (i + k <= len (asteroids g))%nat ->
  for_each
    (fun i g =>
       asteroid ← arr (asteroids g) !! i;
       g ← match shield g with
           | Some sh =>
               if Sprite_IsColliding sh asteroid
               then destroyAsteroid inp i asteroid g
               else Some g
           | None => Some g
           end;
       s ← ship g;
       Some (if Sprite_IsColliding s asteroid then set_mode ModeGameOver g
             else g))
    (seq i k) (gameOverIf b g)
  = Some (gameOverIf
            (b || existsb (Sprite_IsColliding s)
                    (take k (drop i (to_list (asteroids g))))) g).
Proof.
  intros Hs Hwf Hno. revert i b.
  induction k as [|k IH]; intros i b Hik; simpl.
  - by rewrite orb_false_r.
  - destruct (gameOverIf_fields b g) as (Hsb & Hshb & Hab & _).
    destruct (slice_cell (asteroids g) i Hwf) as (a & Hcell & Hl & Hin);
      [lia|].
    rewrite Hab, Hcell, Hshb. simpl.
    assert (Hsh : match shield g with
                  | Some sh =>
                      if Sprite_IsColliding sh a
                      then destroyAsteroid inp i a (gameOverIf b g)
                      else Some (gameOverIf b g)
                  | None => Some (gameOverIf b g)
                  end = Some (gameOverIf b g)).
    { destruct (shield g) as [sh|] eqn:Hshield; [|done].
      by rewrite (Hno sh a). }
    rewrite Hsh. simpl. rewrite Hsb, Hs. simpl.
    rewrite gameOverIf_orb, IH by lia.
    rewrite (drop_S _ _ _ Hl). simpl. by rewrite orb_assoc.
Qed.

Lemma starCollisions_quiet g s b :
  ship g = Some s -> slice_wf (stars g) ->
  (forall st, st ∈ to_list (stars g) -> Sprite_IsColliding s st = false) ->
  starCollisions (gameOverIf b g) = Some (gameOverIf b g).
Proof.
  intros Hs Hwf Hno. unfold starCollisions, for_range.
  destruct (gameOverIf_fields b g) as (Hsb & _ & _ & Hst & _). rewrite Hst.
  apply for_each_skip. intros i Hi. apply elem_of_seq in Hi.
  rewrite Hst, Hsb, Hs.
  destruct (slice_cell (stars g) i Hwf) as (a & Hcell & _ & Hin); [lia|].
  rewrite Hcell. simpl. by rewrite (Hno a Hin).
Qed.

(** X14.  A frame in which nothing is destroyed or collected.  If, when
    checkCollisions is entered, no asteroid overlaps a tile, a spire or
    the shield and no star overlaps the ship, then checkCollisions returns
    and writes at most the mode: the mode becomes GameOver exactly when
    the ship overlaps a tile, a spire or an asteroid, and every other
    field is as before. *)
Theorem collisions_without_removal (inp : Input) (g : Game) (s : Sprite) :
  ship g = Some s -> slice_wf (asteroids g) -> slice_wf (stars g) ->
  (forall a o,
     a ∈ to_list (asteroids g) ->
     o ∈ to_list (topGroundTiles g) ++ to_list (bottomGroundTiles g)
         ++ to_list (spires g) ->
     Sprite_IsColliding a o = false) ->
  (forall sh a,
     shield g = Some sh -> a ∈ to_list (asteroids g) ->
     Sprite_IsColliding sh a = false) ->
  (forall st, st ∈ to_list (stars g) -> Sprite_IsColliding s st = false) ->
  checkCollisions inp g
  = Some (if existsb (Sprite_IsColliding s)
               (to_list (topGroundTiles g) ++ to_list (bottomGroundTiles g)
                ++ to_list (spires g) ++ to_list (asteroids g))
          then set_mode ModeGameOver g else g).
Proof.
  intros Hs Hwa Hws Hobs Hsh Hst. unfold checkCollisions.
  change (obstacleCollisions inp (to_list (topGroundTiles g)) g)
    with (obstacleCollisions inp (to_list (topGroundTiles g))
            (gameOverIf false g)).
  rewrite (obstacleCollisions_quiet inp _ g s false Hs Hwa).
  2:{ intros a o Ha Ho. apply Hobs; [done|].
      apply elem_of_app. by left. }
  simpl.
  match goal with
  | |- context [gameOverIf ?b g] =>
      destruct (gameOverIf_fields b g) as (_ & _ & _ & _ & _ & Hb1 & _)
  end.
  rewrite Hb1, (obstacleCollisions_quiet inp _ g s _ Hs Hwa).
  2:{ intros a o Ha Ho. apply Hobs; [done|].
      apply elem_of_app. right. apply elem_of_app. by left. }
  simpl.
  match goal with
  | |- context [spires (gameOverIf ?b g)] =>
      destruct (gameOverIf_fields b g) as (_ & _ & _ & _ & _ & _ & Hb2)
  end.
  rewrite Hb2, (obstacleCollisions_quiet inp _ g s _ Hs Hwa).
  2:{ intros a o Ha Ho. apply Hobs; [done|].
      apply elem_of_app. right. apply elem_of_app. by right. }
  simpl. unfold asteroidCollisions, for_range.
  match goal with
  | |- context [len (asteroids (gameOverIf ?b g))] =>
      destruct (gameOverIf_fields b g) as (_ & _ & Hb3 & _)
  end.
  rewrite Hb3.
  rewrite (asteroidCollisions_quiet_loop inp g s _ 0 _ Hs Hwa Hsh) by lia.
  simpl. rewrite drop_0, take_ge by (rewrite to_list_length; done).
  rewrite (starCollisions_quiet g s _ Hs Hws Hst).
  unfold gameOverIf. by rewrite !existsb_app, !orb_assoc.
Qed.

(** *** The speed is a whole number *)

Lemma inject_Z_add (n m : Z) : (inject_Z n + inject_Z m)%Q = inject_Z (n + m).
Proof. unfold Qplus, inject_Z. simpl. f_equal. lia. Qed.

Lemma inject_Z_sub (n m : Z) : (inject_Z n - inject_Z m)%Q = inject_Z (n - m).
Proof. unfold Qminus, Qplus, Qopp, inject_Z. simpl. f_equal. lia. Qed.

Lemma whole_speed_same (g g' : Game) :
  boostFactor g' = boostFactor g -> speed g' = speed g ->
  whole_speed g -> whole_speed g'.
Proof. unfold whole_speed. by intros -> ->. Qed.

Lemma advanceCounters_whole g :
  whole_speed g -> whole_speed (advanceCounters g).
Proof.
  intros (Hbf & n & Hn). unfold advanceCounters, whole_speed. simpl.
  destruct (_ >? speedIncreaseThreshold g); simpl;
    destruct (isBoosting g); simpl;
    try destruct (_ >? Second * 5); simpl; rewrite ?Hbf, Hn;
    (split; [done|]);
    change 1%Q with (inject_Z 1); change 2%Q with (inject_Z 2);
    rewrite ?inject_Z_add, ?inject_Z_sub; eauto.
Qed.

Lemma starCollisions_whole g g' :
  starCollisions g = Some g' -> whole_speed g -> whole_speed g'.
Proof.
  unfold starCollisions, for_range. intros Hrun Hok. revert Hrun.
  apply (for_each_inv whole_speed); [|done].
  intros i t t' _ Ht. pose proof Ht as (Hbf & n & Hn).
  destruct (arr (stars t) !! i) as [a|]; [|done]. simpl.
  destruct (ship t) as [s|]; [|done]. simpl.
  destruct (Sprite_IsColliding s a); [|by intros [= <-]].
  destruct (remove_at growcap (stars t) i); [|done]. simpl.
  intros [= <-]. unfold whole_speed. simpl. rewrite Hbf, Hn.
  split; [done|]. change 2%Q with (inject_Z 2). rewrite inject_Z_add. eauto.
Qed.

Lemma updateGame_whole inp g g' :
  updateGame inp g = Some g' -> whole_speed g -> whole_speed g'.
Proof.
  unfold updateGame.
  destruct (beforeCollisions inp g) as [gd|] eqn:Hd; [|done]. simpl.
  destruct (checkCollisions inp gd) as [ge|] eqn:He; [|done]. simpl.
  intros Ha Hok.
  apply afterCollisions_core in Ha as (_ & _ & Hs & Hbf & _).
  apply (whole_speed_same ge); [done|done|].
  destruct (checkCollisions_phases _ _ _ He) as (ga & Hf & _ & Hstars).
  apply (starCollisions_whole ga); [done|].
  apply beforeCollisions_frame in Hd.
  apply (whole_speed_same (advanceCounters g));
    [| |by apply advanceCounters_whole].
  - unfold obstacle_frame in Hf. rewrite Hf, Hd. done.
  - unfold obstacle_frame in Hf. rewrite Hf, Hd. done.
Qed.

Lemma reachable_whole g : reachable g -> whole_speed g.
Proof.
  assert (Hinit : forall g0 g1, resetGame g0 = Some g1 -> whole_speed g1).
  { intros g0 g1 Hreset.
    apply resetGame_counters in Hreset as (_ & _ & Hs & _ & Hbf & _).
    split; [done|]. by exists 1. }
  induction 1 as [g Hnew|g inp g' _ IH Hstep].
  - by apply (Hinit zeroGame).
  - unfold Update in Hstep. destruct (mode g).
    + destruct (keySpaceJustPressed inp); by inversion Hstep; subst.
    + by eapply updateGame_whole.
    + destruct (keyRJustPressed inp); [|by inversion Hstep; subst].
      destruct (resetGame g) as [g1|] eqn:Hreset; [|done].
      simpl in Hstep. inversion Hstep; subst.
      destruct (Hinit g g1 Hreset) as (Hbf & n & Hn).
      split; [done|]. by exists n.
Qed.

(** X15.  The speed is a whole number.  In every reachable state the
    speed is the float of an integer [n >= 1], so [int(g.speed)] loses
    nothing: a Game-mode frame adds exactly [n] to the distance
    travelled. *)
Theorem speed_is_whole (g : Game) :
  reachable g ->
  exists n : Z,
    1 <= n /\ speed g = inject_Z n
    /\ forall inp g',
         mode g = ModeGame -> Update inp g = Some g' ->
         distanceTravelled g' = wrap64 (distanceTravelled g + n).
Proof.
  intros Hr. destruct (reachable_whole g Hr) as (_ & n & Hn).
  destruct (reachable_counters_ok g Hr) as [(_ & Hs & _) _].
  exists n. split; [|split; [done|]].
  - rewrite Hn in Hs. unfold Qle in Hs. simpl in Hs. lia.
  - intros inp g' Hmode Hrun. unfold Update in Hrun. rewrite Hmode in Hrun.
    rewrite (updateGame_distance _ _ _ Hrun), Hn.
    unfold int_of_float, truncate. simpl.
    by rewrite Z.quot_1_r, wrap64_add_r.
Qed.

(** *** How long the shield lasts *)

Lemma beforeCollisions_shield_Some inp g gd :
  beforeCollisions inp g = Some gd ->
  is_Some (shield gd) <-> isBoosting (advanceCounters g) = true.
Proof.
  intros Hd. pose proof (beforeCollisions_frame _ _ _ Hd) as Fd.
  revert Hd. unfold beforeCollisions, beforeGround.
  destruct (shipMovement inp (advanceCounters g)) as [g1|] eqn:H1; [|done].
  simpl.
  destruct (checkShieldOn g1) as [g2|] eqn:H2; [|done]. simpl.
  destruct (updateGround g2) as [g3|] eqn:H3; [|done]. simpl.
  destruct (updateSpires g3) as [g4|] eqn:H4; [|done]. simpl.
  destruct (updateAsteroids g4) as [g5|] eqn:H5; [|done]. simpl.
  intros H6.
  apply shipMovement_frame in H1.
  apply updateGround_frame in H3. apply updateSpires_frame in H4.
  apply updateAsteroids_frame in H5. apply updateStars_frame in H6.
  assert (E2 : shield gd = shield g2) by (rewrite H6, H5, H4, H3; done).
  assert (E4 : isBoosting g1 = isBoosting (advanceCounters g))
    by (rewrite H1; done).
  rewrite E2, <- E4. clear H1 E4. revert H2. unfold checkShieldOn.
  destruct (isBoosting g1).
  - destruct (ship g1) as [s|]; [|done]. simpl. intros [= <-]. simpl.
    split; eauto.
  - intros [= <-]. simpl. split; [by intros [? ?]|done].
Qed.

(** X16.  The shield lasts five seconds of game time.  In the frame
    with frame counter [f] of a boost that started in frame [f0], the
    shield is up when checkCollisions is entered exactly when at most
    300 frames have passed since [f0]. *)
Theorem shield_lasts_300_frames (inp : Input) (g gd : Game) (f0 : Z) :
  isBoosting g = true ->
  lastBoostTime g = Z.quot (wrap64 (f0 * Second)) 60 ->
  0 <= f0 <= frameCount g -> frameCount g <= 9000000000 ->
  beforeCollisions inp g = Some gd ->
  is_Some (shield gd) <-> frameCount g - f0 <= 300.
Proof.
  intros Hb Hlast Hf0 Hmax Hd.
  rewrite (beforeCollisions_shield_Some _ _ _ Hd).
  destruct (advanceCounters_boost g Hb) as [-> _].
  unfold gameTime. rewrite Hlast.
  rewrite (boost_expires_after_300_frames f0 (frameCount g)) by done.
  destruct (frameCount g - f0 >? 300) eqn:Hc; simpl.
  - split; [done|]. lia.
  - split; [|done]. lia.
Qed.

(** *** The speed never falls below a floor *)

Lemma floor_ok_same (S : Q) (g g' : Game) :
  boostFactor g' = boostFactor g -> speed g' = speed g ->
  isBoosting g' = isBoosting g -> floor_ok S g -> floor_ok S g'.
Proof. unfold floor_ok. by intros -> -> ->. Qed.

Lemma advanceCounters_floor S g :
  floor_ok S g -> floor_ok S (advanceCounters g).
Proof.
  intros (Hbf & Hs & Hb). unfold advanceCounters. simpl.
  destruct (wrap64 (distanceTravelled g + int_of_float (speed g))
            >? speedIncreaseThreshold g); simpl;
    (destruct (isBoosting g) eqn:Hboost; simpl;
     [specialize (Hb eq_refl);
      match goal with |- context [if ?c then _ else _] => destruct c end|]);
    unfold floor_ok; simpl; rewrite ?Hbf;
    (split; [done|]; split; [lra|]; intros Hx; try congruence; lra).
Qed.

Lemma starCollisions_floor S g g' :
  starCollisions g = Some g' -> floor_ok S g -> floor_ok S g'.
Proof.
  unfold starCollisions, for_range. intros Hrun Hok. revert Hrun.
  apply (for_each_inv (floor_ok S)); [|done].
  intros i t t' _ Ht. pose proof Ht as (Hbf & Hs & Hb).
  destruct (arr (stars t) !! i) as [a|]; [|done]. simpl.
  destruct (ship t) as [s|]; [|done]. simpl.
  destruct (Sprite_IsColliding s a); [|by intros [= <-]].
  destruct (remove_at growcap (stars t) i); [|done]. simpl.
  intros [= <-]. unfold floor_ok. simpl. rewrite Hbf.
  split; [done|]. split; [|intros _]; lra.
Qed.

Lemma updateGame_floor S inp g g' :
  updateGame inp g = Some g' -> floor_ok S g -> floor_ok S g'.
Proof.
  unfold updateGame.
  destruct (beforeCollisions inp g) as [gd|] eqn:Hd; [|done]. simpl.
  destruct (checkCollisions inp gd) as [ge|] eqn:He; [|done]. simpl.
  intros Ha Hok.
  apply afterCollisions_core in Ha as (_ & _ & Hs & Hbf & Hb & _).
  apply (floor_ok_same S ge); [done|done|done|].
  destruct (checkCollisions_phases _ _ _ He) as (ga & Hf & _ & Hstars).
  apply (starCollisions_floor S ga); [done|].
  apply beforeCollisions_frame in Hd. unfold obstacle_frame in Hf.
  apply (floor_ok_same S (advanceCounters g));
    [| | |by apply advanceCounters_floor]; rewrite Hf, Hd; done.
Qed.

(** X17.  The speed never falls below a floor.  Along frames that do not
    restart the game, from a reachable state: if the speed is at least
    [S], and at least [S + 2] while a boost is active, then this holds
    after every later frame.  A boost gives its factor back once, at
    expiry, however many stars were collected during it: with [S] the
    speed at the time a star is collected during an active boost, the
    speed never returns below [S]. *)
Theorem speed_never_falls_below_floor (S : Q) (g g' : Game) :
  reachable g -> frames g g' ->
  (S <= speed g)%Q -> (isBoosting g = true -> S + 2 <= speed g)%Q ->
  (S <= speed g')%Q /\ (isBoosting g' = true -> S + 2 <= speed g')%Q.
Proof.
  intros Hr Hrun. revert Hr.
  induction Hrun as [g|g inp g1 g2 Hstep Hkey _ IH];
    intros Hr Hs Hb; [done|].
  assert (Hr1 : reachable g1) by (by eapply reachable_step).
  destruct (reachable_counters_ok g Hr) as [(Hbf & _) _].
  assert (Hok : floor_ok S g1).
  { unfold Update in Hstep. destruct (mode g).
    - unfold floor_ok.
      destruct (keySpaceJustPressed inp); by inversion Hstep; subst.
    - by apply (updateGame_floor S inp g).
    - rewrite Hkey in Hstep by done. by inversion Hstep; subst. }
  destruct Hok as (_ & Hs1 & Hb1). by apply IH.
Qed.

(** *** One asteroid destroyed *)

Lemma destroyAsteroid_Some inp g i a :
  slice_wf (asteroids g) -> (i < len (asteroids g))%nat ->
  exists s1,
    remove_at growcap (asteroids g) i = Some s1
    /\ destroyAsteroid inp i a g
       = Some (set_asteroids s1
                 (set_asteroidExplosions
                    (append growcap (asteroidExplosions g)
                       [createAsteroidExplosion inp g a]) g)).
Proof.
  intros Hwf Hi.
  destruct (remove_at growcap (asteroids g) i) as [s1|] eqn:Hrm;
    [|rewrite remove_at_Some in Hrm by done; done].
  exists s1. split; [done|]. unfold destroyAsteroid. simpl. by rewrite Hrm.
Qed.

(** The cells that the range loop reads after the removal of cell [i]
    hold asteroids of the list other than the one removed. *)
Lemma removed_cells {A : Type} (s s1 : slice A) (i j : nat) :
  slice_wf s -> remove_at growcap s i = Some s1 ->
  (i < j < len s)%nat ->
  exists j' x,
    j' <> i /\ to_list s !! j' = Some x /\ arr s1 !! j = Some x.
Proof.
  intros Hwf Hrm Hj. rewrite (remove_at_lookup _ _ _ j Hwf Hrm).
  rewrite decide_False by lia.
  destruct (decide (j < len s - 1)%nat).
  - destruct (slice_cell s (S j) Hwf) as (x & Hx & Hl & _); [lia|].
    exists (S j), x. split; [lia|done].
  - destruct (slice_cell s j Hwf) as (x & Hx & Hl & _); [lia|].
    exists j, x. split; [lia|done].
Qed.

(** X18.  One asteroid against one obstacle.  If exactly one asteroid of
    the collection overlaps the tile or spire [o], the loop over the
    asteroids returns, that asteroid leaves the collection, the others
    stay in their order, and one explosion, created for it, is appended
    to the explosions; nothing else changes. *)
Theorem obstacle_destroys_asteroid (inp : Input) (o : Sprite) (g : Game)
    (a : Sprite) (i : nat) :
  slice_wf (asteroids g) -> slice_wf (asteroidExplosions g) ->
  to_list (asteroids g) !! i = Some a -> Sprite_IsColliding a o = true ->
  (forall j b, j <> i -> to_list (asteroids g) !! j = Some b ->
               Sprite_IsColliding b o = false) ->
  exists g',
    asteroidsAgainst inp o g = Some g'
    /\ to_list (asteroids g') = delete i (to_list (asteroids g))
    /\ to_list (asteroidExplosions g')
       = to_list (asteroidExplosions g) ++ [createAsteroidExplosion inp g a]
    /\ asteroid_frame g g'.
Proof.
  intros Hwf Hwx Ha Hhit Hothers.
  assert (Hi : (i < len (asteroids g))%nat).
  { apply lookup_lt_Some in Ha. rewrite to_list_length in Ha; done. }
  assert (Ha' : arr (asteroids g) !! i = Some a)
    by (unfold to_list in Ha; by rewrite lookup_take_lt in Ha).
  destruct (destroyAsteroid_Some inp g i a Hwf Hi) as (s1 & Hrm & Hd).
  destruct (remove_at_to_list _ _ _ Hwf Hrm) as (Hl1 & _).
  exists (set_asteroids s1
            (set_asteroidExplosions
               (append growcap (asteroidExplosions g)
                  [createAsteroidExplosion inp g a]) g)).
  split; [|split; [exact Hl1|split]].
  - unfold asteroidsAgainst, for_range.
    replace (len (asteroids g)) with (i + S (len (asteroids g) - S i))%nat
      at 1 by lia.
    rewrite seq_app, for_each_app. simpl.
    rewrite for_each_skip; simpl.
    2:{ intros j Hj. apply elem_of_seq in Hj.
        destruct (slice_cell (asteroids g) j Hwf) as (b & Hb & Hlb & _);
          [lia|].
        rewrite Hb. simpl. rewrite (Hothers j b); [done|lia|done]. }
    rewrite Ha'. simpl. rewrite Hhit, Hd.
    apply for_each_skip. intros j Hj. apply elem_of_seq in Hj. simpl.
    destruct (removed_cells (asteroids g) s1 i j Hwf Hrm)
      as (j' & b & Hne & Hlb & Hb); [lia|].
    rewrite Hb. simpl. by rewrite (Hothers j' b).
  - simpl. by rewrite to_list_append.
  - unfold asteroid_frame. by destruct g.
Qed.

(** The loop of asteroidCollisions over cells none of which overlaps the
    shield: only the mode can change. *)
Lemma asteroidCollisions_cells inp g s (k i : nat) (b : bool) :
  ship g = Some s ->
  (forall j, (i <= j < i + k)%nat ->
     exists c, arr (asteroids g) !! j = Some c
       /\ forall sh, shield g = Some sh -> Sprite_IsColliding sh c = false) ->
  exists b',
    for_each
      (fun i g =>
         asteroid ← arr (asteroids g) !! i;
         g ← match shield g with
             | Some sh =>
                 if Sprite_IsColliding sh asteroid
                 then destroyAsteroid inp i asteroid g
                 else Some g
             | None => Some g
             end;
         s ← ship g;
         Some (if Sprite_IsColliding s asteroid then set_mode ModeGameOver g
               else g))
      (seq i k) (gameOverIf b g)
    = Some (gameOverIf b' g).
Proof.
  intros Hs. revert i b.
  induction k as [|k IH]; intros i b Hcells; simpl; [by exists b|].
  destruct (gameOverIf_fields b g) as (Hsb & Hshb & Hab & _).
  destruct (Hcells i) as (c & Hc & Hno); [lia|].
  rewrite Hab, Hc, Hshb. simpl.
  assert (Hsh : match shield g with
                | Some sh =>
                    if Sprite_IsColliding sh c
                    then destroyAsteroid inp i c (gameOverIf b g)
                    else Some (gameOverIf b g)
                | None => Some (gameOverIf b g)
                end = Some (gameOverIf b g)).
  { destruct (shield g) as [sh|] eqn:Hshield; [|done]. by rewrite (Hno sh). }
  rewrite Hsh. simpl. rewrite Hsb, Hs. simpl. rewrite gameOverIf_orb.
  apply IH. intros j Hj. apply Hcells. lia.
Qed.

(** X19.  One asteroid against the shield.  If a shield is up and exactly
    one asteroid of the collection overlaps it, the loop over the
    asteroids returns, that asteroid leaves the collection, the others
    stay in their order, and one explosion, created for it, is appended
    to the explosions; besides these two collections only the mode can
    change. *)
Theorem shield_destroys_asteroid (inp : Input) (g : Game)
    (s sh a : Sprite) (i : nat) :
  ship g = Some s -> shield g = Some sh ->
  slice_wf (asteroids g) -> slice_wf (asteroidExplosions g) ->
  to_list (asteroids g) !! i = Some a -> Sprite_IsColliding sh a = true ->
  (forall j b, j <> i -> to_list (asteroids g) !! j = Some b ->
               Sprite_IsColliding sh b = false) ->
  exists g',
    asteroidCollisions inp g = Some g'
    /\ to_list (asteroids g') = delete i (to_list (asteroids g))
    /\ to_list (asteroidExplosions g')
       = to_list (asteroidExplosions g) ++ [createAsteroidExplosion inp g a]
    /\ obstacle_frame g g'.
Proof.
  intros Hs Hsh Hwf Hwx Ha Hhit Hothers.
  assert (Hi : (i < len (asteroids g))%nat).
  { apply lookup_lt_Some in Ha. rewrite to_list_length in Ha; done. }
  assert (Ha' : arr (asteroids g) !! i = Some a)
    by (unfold to_list in Ha; by rewrite lookup_take_lt in Ha).
  (* the cells before [i] *)
  destruct (asteroidCollisions_cells inp g s i 0 false Hs) as (b1 & Hpre).
  { intros j Hj.
    destruct (slice_cell (asteroids g) j Hwf) as (c & Hc & Hlc & _); [lia|].
    exists c. split; [done|]. intros sh' Hsh'.
    assert (sh' = sh) by congruence. subst sh'.
    apply (Hothers j c); [lia|done]. }
  change (gameOverIf false g) with g in Hpre.
  (* cell [i] *)
  destruct (gameOverIf_fields b1 g) as (Hsb & Hshb & Hab & _).
  destruct (destroyAsteroid_Some inp (gameOverIf b1 g) i a)
    as (s1 & Hrm & Hd); [by rewrite Hab|by rewrite Hab|].
  rewrite Hab in Hrm.
  destruct (remove_at_to_list _ _ _ Hwf Hrm) as (Hl1 & _).
  set (g1 := set_asteroids s1
               (set_asteroidExplosions
                  (append growcap (asteroidExplosions g)
                     [createAsteroidExplosion inp g a]) g)).
  assert (Hg1 : set_asteroids s1
                  (set_asteroidExplosions
                     (append growcap (asteroidExplosions (gameOverIf b1 g))
                        [createAsteroidExplosion inp (gameOverIf b1 g) a])
                     (gameOverIf b1 g))
                = gameOverIf b1 g1) by (by destruct b1).
  rewrite Hg1 in Hd.
  destruct (gameOverIf_fields b1 g1) as (Hsb1 & _).
  assert (Hs1 : ship g1 = Some s) by done.
  (* the cells after [i], shifted by the removal *)
  destruct (asteroidCollisions_cells inp g1 s (len (asteroids g) - S i)
              (S i) (b1 || Sprite_IsColliding s a))
    as (b2 & Hpost); [done| |].
  { intros j Hj. simpl.
    destruct (removed_cells (asteroids g) s1 i j Hwf Hrm)
      as (j' & c & Hne & Hlc & Hc); [lia|].
    exists c. split; [done|]. intros sh' Hsh'.
    assert (sh' = sh) by congruence. subst sh'. by apply (Hothers j' c). }
  exists (gameOverIf b2 g1).
  destruct (gameOverIf_fields b2 g1) as (_ & _ & Hab2 & _).
  split; [|split; [by rewrite Hab2|split]].
  - unfold asteroidCollisions, for_range.
    replace (len (asteroids g)) with (i + S (len (asteroids g) - S i))%nat
      at 1 by lia.
    rewrite seq_app, for_each_app, Hpre. simpl.
    rewrite Hab, Ha', Hshb, Hsh. simpl. rewrite Hhit, Hd. simpl.
    rewrite Hsb1, Hs1. simpl. rewrite gameOverIf_orb. exact Hpost.
  - destruct b2; simpl; by rewrite to_list_append.
  - unfold obstacle_frame. destruct b2; by destruct g.
Qed.

(** ** Stars and the boost in a session *)

(** What is assumed of the sprite library: a velocity that is a whole
    number moves a sprite by that number of pixels, and two sprites that
    collide overlap in [X] (the spec: "bounding-box overlap"). *)
Hypothesis displacement_whole :
  forall n : Z, int_min <= n <= int_max -> displacement (inject_Z n) = n.

Hypothesis colliding_boxes :
  forall a b : Sprite,
    Sprite_IsColliding a b = true ->
    X a < X b + fst (imageSize (Image b))
    /\ X b < X a + fst (imageSize (Image a)).

(** The images: the ship and a star are together at most 400 pixels
    wide. *)
Hypothesis reach_ok : reach <= 400.

Lemma spaced_sublist (l l' : list Sprite) :
  sublist l' l -> spaced l -> spaced l'.
Proof.
  induction 1 as [|x l1 l2 Hsub IH|x l1 l2 Hsub IH]; simpl; [done| |].
  - intros [Hx Hl]. split; [|by apply IH].
    apply Forall_forall. intros b Hb.
    rewrite Forall_forall in Hx. apply Hx.
    by apply (sublist_subseteq _ _ Hsub).
  - intros [_ Hl]. by apply IH.
Qed.

Lemma spaced_snoc (l : list Sprite) (x : Sprite) :
  spaced l -> Forall (fun a => X a + reach <= X x) l -> spaced (l ++ [x]).
Proof.
  induction l as [|a l IH]; simpl; [done|].
  intros [Ha Hl] Hx. apply Forall_cons in Hx as [Hax Hx].
  split; [|by apply IH]. apply Forall_app. split; [done|].
  by apply Forall_singleton.
Qed.

Lemma spaced_moved (move : Sprite -> Sprite) (m : Z) (l : list Sprite) :
  (forall a, a ∈ l -> X (move a) = X a - m) ->
  spaced l -> spaced (map move l).
Proof.
  induction l as [|a l IH]; simpl; [done|].
  intros Hm [Ha Hl]. split.
  - apply Forall_fmap, Forall_forall. intros b Hb. simpl.
    rewrite Forall_forall in Ha. specialize (Ha b Hb).
    rewrite (Hm a), (Hm b); [lia|by right|by left].
  - apply IH; [|done]. intros b Hb. apply Hm. by right.
Qed.

Lemma spaced_lookup (l : list Sprite) (i j : nat) (a b : Sprite) :
  spaced l -> (i < j)%nat -> l !! i = Some a -> l !! j = Some b ->
  X a + reach <= X b.
Proof.
  revert i j. induction l as [|x l IH]; intros i j Hl Hij Ha Hb; [done|].
  destruct Hl as [Hx Hl]. destruct j as [|j]; [lia|]. simpl in Hb.
  destruct i as [|i].
  - simpl in Ha. injection Ha as ->.
    rewrite Forall_forall in Hx. apply Hx.
    by apply (list_elem_of_lookup_2 _ j).
  - simpl in Ha. apply (IH i j); [done|lia|done|done].
Qed.

(** The ship overlaps at most one star of a spaced list. *)
Lemma one_star_in_reach (l : list Sprite) (s a b : Sprite) (i j : nat) :
  spaced l -> Image s = shipImage ->
  Forall (fun x => Image x = starImage) l ->
  l !! i = Some a -> Sprite_IsColliding s a = true ->
  l !! j = Some b -> Sprite_IsColliding s b = true ->
  i = j.
Proof.
  intros Hl Hs Himg Ha Hhita Hb Hhitb.
  pose proof (Forall_lookup_1 _ _ _ _ Himg Ha) as Hia.
  pose proof (Forall_lookup_1 _ _ _ _ Himg Hb) as Hib.
  apply colliding_boxes in Hhita, Hhitb.
  rewrite Hs, Hia in Hhita. rewrite Hs, Hib in Hhitb.
  unfold reach in *.
  destruct (Nat.lt_trichotomy i j) as [Hij|[Hij|Hij]]; [|done|].
  - pose proof (spaced_lookup l i j a b Hl Hij Ha Hb). unfold reach in *. lia.
  - pose proof (spaced_lookup l j i b a Hl Hij Hb Ha). unfold reach in *. lia.
Qed.

(** A list either has an element on which [p] holds or has none. *)
Lemma first_hit {A : Type} (p : A -> bool) (l : list A) :
  (forall x, x ∈ l -> p x = false)
  \/ exists i x, l !! i = Some x /\ p x = true.
Proof.
  induction l as [|x l IH].
  - left. intros x Hx. by apply elem_of_nil in Hx.
  - destruct (p x) eqn:Hp; [right; by exists 0%nat, x|].
    destruct IH as [IH|(i & y & Hy & Hpy)].
    + left. intros y Hy. apply elem_of_cons in Hy as [->|Hy]; auto.
    + right. by exists (S i), y.
Qed.

(** The game time of the frames of a game. *)
Lemma gameTime_eq (g : Game) :
  0 <= frameCount g <= maxFrames + 1 ->
  gameTime g = frameCount g * Second / 60.
Proof.
  intros Hf. unfold gameTime, maxFrames, Second in *.
  rewrite wrap64_id by (unfold int_min, int_max; lia).
  apply Z.quot_div_nonneg; lia.
Qed.

Lemma gameTime_mono (g g' : Game) :
  0 <= frameCount g <= frameCount g' -> frameCount g' <= maxFrames + 1 ->
  0 <= gameTime g <= gameTime g'.
Proof.
  intros Hf Hmax. rewrite !gameTime_eq by lia. unfold Second. split.
  - apply Z.div_pos; lia.
  - apply Z.div_le_mono; lia.
Qed.

(** Lines 124-135 on a whole speed: the speed stays whole, grows by at
    most one, and the speed without the boost does not decrease. *)
Lemma advanceCounters_base (g : Game) (n : Z) :
  speed g = inject_Z n -> boostFactor g = 2%Q -> 1 <= baseSpeed n g ->
  exists n1,
    speed (advanceCounters g) = inject_Z n1
    /\ baseSpeed n g <= baseSpeed n1 (advanceCounters g)
    /\ n1 <= n + 1.
Proof.
  intros Hn Hbf Hb. unfold advanceCounters, baseSpeed in *. simpl.
  destruct (isBoosting g) eqn:Hboost; simpl;
    destruct (_ >? speedIncreaseThreshold g); simpl;
    rewrite ?Hboost; simpl;
    try destruct (_ >? Second * 5); simpl; rewrite ?Hboost, ?Hbf, Hn;
    simpl;
    change 1%Q with (inject_Z 1); change 2%Q with (inject_Z 2);
    rewrite ?inject_Z_add, ?inject_Z_sub;
    eexists; (split; [reflexivity|]); lia.
Qed.

(** The stars in the state in which checkCollisions is entered. *)
Lemma beforeCollisions_stars inp g gd :
  beforeCollisions inp g = Some gd -> slice_wf (stars g) ->
  slice_wf (stars gd)
  /\ to_list (stars gd)
     = filter (fun s => outOfBoundsX < X s)
         (map (moveTile (- speed (advanceCounters g))%Q)
            (to_list (stars g))).
Proof.
  unfold beforeCollisions, beforeGround.
  destruct (shipMovement inp (advanceCounters g)) as [g1|] eqn:H1; [|done].
  simpl.
  destruct (checkShieldOn g1) as [g2|] eqn:H2; [|done]. simpl.
  destruct (updateGround g2) as [g3|] eqn:H3; [|done]. simpl.
  destruct (updateSpires g3) as [g4|] eqn:H4; [|done]. simpl.
  destruct (updateAsteroids g4) as [g5|] eqn:H5; [|done]. simpl.
  intros H6 Hwf.
  apply shipMovement_frame in H1. apply checkShieldOn_frame in H2.
  apply updateGround_frame in H3. apply updateSpires_frame in H4.
  apply updateAsteroids_frame in H5.
  pose proof (advanceCounters_frame g) as Fc.
  assert (Hst : stars g5 = stars g) by (rewrite H5, H4, H3, H2, H1, Fc; done).
  assert (Hsp : speed g5 = speed (advanceCounters g))
    by (rewrite H5, H4, H3, H2, H1; done).
  revert H6. unfold updateStars. rewrite Hst, Hsp.
  destruct (filterInPlace_spec
              (fun s => (moveTile (- speed (advanceCounters g))%Q s,
                         X (moveTile (- speed (advanceCounters g))%Q s)
                         >? outOfBoundsX))
              (stars g) Hwf) as (t & Hrun & Hl & Hwt & _).
  unfold moveTile in Hrun. rewrite Hrun. simpl. intros [= <-]. simpl.
  split; [done|]. by rewrite Hl, omap_kept_filter.
Qed.

(** The ship keeps its image through the frame. *)
Lemma beforeCollisions_ship inp g gd s :
  beforeCollisions inp g = Some gd -> ship g = Some s ->
  exists s', ship gd = Some s' /\ Image s' = Image s.
Proof.
  unfold beforeCollisions, beforeGround.
  destruct (shipMovement inp (advanceCounters g)) as [g1|] eqn:H1; [|done].
  simpl.
  destruct (checkShieldOn g1) as [g2|] eqn:H2; [|done]. simpl.
  destruct (updateGround g2) as [g3|] eqn:H3; [|done]. simpl.
  destruct (updateSpires g3) as [g4|] eqn:H4; [|done]. simpl.
  destruct (updateAsteroids g4) as [g5|] eqn:H5; [|done]. simpl.
  intros H6 Hs.
  apply checkShieldOn_frame in H2.
  apply updateGround_frame in H3. apply updateSpires_frame in H4.
  apply updateAsteroids_frame in H5. apply updateStars_frame in H6.
  pose proof (advanceCounters_frame g) as Fc.
  assert (Hsh : ship gd = ship g1) by (rewrite H6, H5, H4, H3, H2; done).
  rewrite Hsh. revert H1. unfold shipMovement. rewrite Fc. simpl.
  rewrite Hs. simpl. intros [= <-]. simpl. eexists. split; [done|].
  by destruct (mouseLeftPressed inp || keySpacePressed inp).
Qed.

(** The stars after the move and the sweep of updateStars, [m] pixels to
    the left, in a frame that adds [delta] to the distance. *)
Lemma stars_moved (b b1 m delta T d : Z) (l : list Sprite) :
  1 <= b <= b1 -> b1 <= m <= 2 ^ 40 -> 0 <= delta <= b + 2 ->
  spaced l -> Forall (star_ok 0 b T d) l ->
  let l' := filter (fun s => outOfBoundsX < X s)
              (map (moveTile (- inject_Z m)%Q) l) in
  spaced l' /\ Forall (star_ok b1 b1 T (d + delta)) l'.
Proof.
  intros Hb Hm Hdelta Hsp Hok.
  assert (Hmove : forall a, a ∈ l ->
            X (moveTile (- inject_Z m)%Q a) = X a - m).
  { intros a Ha. rewrite Forall_forall in Hok.
    destruct (Hok a Ha) as (_ & Hx & _).
    rewrite moveTile_X. change (- inject_Z m)%Q with (inject_Z (- m)).
    unfold outOfBoundsX, screenWidth in Hx.
    rewrite displacement_whole by (unfold int_min, int_max; lia).
    apply wrap64_id. unfold int_min, int_max. lia. }
  split.
  - apply (spaced_sublist (map (moveTile (- inject_Z m)%Q) l)).
    + apply sublist_filter.
    + by apply (spaced_moved _ m).
  - apply Forall_forall. intros x Hx.
    apply list_elem_of_filter in Hx as [Hgt Hx].
    apply list_elem_of_fmap_1 in Hx as (a & -> & Ha).
    rewrite Forall_forall in Hok.
    destruct (Hok a Ha) as (Hi & Hxa & Hpot).
    rewrite (Hmove a Ha) in Hgt. unfold star_ok.
    rewrite (Hmove a Ha). split; [done|]. split; [lia|].
    destruct Hpot as [Hpot|Hpot]; [left; lia|right; lia].
Qed.

(** The stars after spawnStar. *)
Lemma stars_spawned (lead b T d : Z) (l : list Sprite) (x : Sprite) :
  1 <= b <= lead -> T < d ->
  reach <= b \/ d - T <= b + 2 ->
  Image x = starImage -> X x = screenWidth + 100 ->
  spaced l -> Forall (star_ok lead b T d) l ->
  spaced (l ++ [x]) /\ Forall (star_ok 0 b (T + 2000) d) (l ++ [x]).
Proof.
  intros Hb Hd Hover Hi Hx Hsp Hok. split.
  - apply spaced_snoc; [done|]. apply Forall_forall. intros a Ha.
    rewrite Forall_forall in Hok. destruct (Hok a Ha) as (_ & Hxa & Hpot).
    rewrite Hx. pose proof reach_ok. destruct Hpot; lia.
  - apply Forall_app. split.
    + eapply Forall_impl; [exact Hok|]. intros a (Hia & Hxa & Hpot).
      split; [done|]. split; [lia|]. destruct Hpot; [by left|right; lia].
    + apply Forall_singleton. split; [done|]. rewrite Hx.
      unfold outOfBoundsX, screenWidth. split; [lia|].
      destruct Hover; [by left|right; lia].
Qed.

Lemma star_ok_mono (lead lead' b b' T T' d : Z) (x : Sprite) :
  lead' <= lead -> b <= b' -> T <= T' ->
  star_ok lead b T d x -> star_ok lead' b' T' d x.
Proof.
  intros Hl Hb HT (Hi & Hx & Hpot). split; [done|]. split; [lia|].
  destruct Hpot; [left|right]; lia.
Qed.

Lemma Forall_sublist {A : Type} (P : A -> Prop) (l l' : list A) :
  sublist l' l -> Forall P l -> Forall P l'.
Proof.
  intros Hsub Hl. apply Forall_forall. intros x Hx.
  rewrite Forall_forall in Hl. apply Hl.
  by apply (sublist_subseteq _ _ Hsub).
Qed.

(** The star loop on spaced stars: the one star that the ship overlaps
    leaves the collection and starts the boost. *)
Lemma starCollisions_one (g : Game) (s a : Sprite) (i : nat) :
  ship g = Some s -> Image s = shipImage -> slice_wf (stars g) ->
  spaced (to_list (stars g)) ->
  Forall (fun x => Image x = starImage) (to_list (stars g)) ->
  to_list (stars g) !! i = Some a -> Sprite_IsColliding s a = true ->
  exists g',
    starCollisions g = Some g'
    /\ to_list (stars g') = delete i (to_list (stars g))
    /\ isBoosting g' = true
    /\ lastBoostTime g' = gameTime g
    /\ speed g' = (speed g + boostFactor g)%Q
    /\ star_frame g g'.
Proof.
  intros Hs Hsi Hwf Hsp Himg Ha Hhit.
  apply (starCollisions_single g s a i); try done.
  intros j b Hj Hb. destruct (Sprite_IsColliding s b) eqn:Hhitb; [|done].
  destruct Hj.
  by apply (one_star_in_reach (to_list (stars g)) s b a j i).
Qed.

(** checkCollisions on spaced stars: at most one star is collected. *)
Lemma checkCollisions_stars inp gd ge s n1 :
  checkCollisions inp gd = Some ge ->
  ship gd = Some s -> Image s = shipImage -> slice_wf (stars gd) ->
  spaced (to_list (stars gd)) ->
  Forall (fun x => Image x = starImage) (to_list (stars gd)) ->
  speed gd = inject_Z n1 -> boostFactor gd = 2%Q ->
  exists n2,
    speed ge = inject_Z n2
    /\ baseSpeed n1 gd <= baseSpeed n2 ge /\ n2 <= n1 + 2
    /\ slice_wf (stars ge)
    /\ sublist (to_list (stars ge)) (to_list (stars gd))
    /\ (lastBoostTime ge = lastBoostTime gd
        \/ lastBoostTime ge = gameTime gd).
Proof.
  intros He Hs Hsi Hwf Hsp Himg Hn1 Hbf.
  destruct (checkCollisions_phases _ _ _ He) as (ga & Hf & _ & Hstars).
  unfold obstacle_frame in Hf.
  assert (Hsa : ship ga = Some s) by (rewrite Hf; done).
  assert (Hta : stars ga = stars gd) by (rewrite Hf; done).
  assert (Hna : speed ga = speed gd) by (rewrite Hf; done).
  assert (Hba : boostFactor ga = boostFactor gd) by (rewrite Hf; done).
  assert (Hia : isBoosting ga = isBoosting gd) by (rewrite Hf; done).
  assert (Hla : lastBoostTime ga = lastBoostTime gd) by (rewrite Hf; done).
  assert (Hfa : frameCount ga = frameCount gd) by (rewrite Hf; done).
  rewrite <- Hta in Hwf, Hsp, Himg |- *.
  destruct (starCollisions_wf _ _ Hstars Hwf) as [Hwe Hsub].
  destruct (first_hit (Sprite_IsColliding s) (to_list (stars ga)))
    as [Hnone|(i & a & Ha & Hhit)].
  - pose proof (starCollisions_quiet ga s false Hsa Hwf Hnone) as Hq.
    simpl in Hq. rewrite Hq in Hstars. injection Hstars as <-.
    exists n1. rewrite Hna. split; [done|]. unfold baseSpeed.
    rewrite Hia. split; [lia|]. split; [lia|]. split; [done|].
    split; [done|]. by left.
  - destruct (starCollisions_one ga s a i Hsa Hsi Hwf Hsp Himg Ha Hhit)
      as (g' & Hrun & _ & Hb' & Hl' & Hs' & _).
    rewrite Hrun in Hstars. injection Hstars as <-.
    exists (n1 + 2). rewrite Hs', Hna, Hba, Hn1, Hbf.
    change 2%Q with (inject_Z 2). rewrite inject_Z_add.
    split; [done|]. unfold baseSpeed. rewrite Hb'.
    split; [destruct (isBoosting gd); lia|]. split; [lia|].
    split; [done|]. split; [done|]. right. rewrite Hl'.
    unfold gameTime. by rewrite Hfa.
Qed.

(** The stars after what follows checkCollisions in the frame. *)
Lemma afterCollisions_stars inp g g' f :
  afterCollisions inp g = Some g' ->
  starFactory g = Some f -> slice_wf (stars g) ->
  slice_wf (stars g')
  /\ to_list (stars g')
     = to_list (stars g)
       ++ (if distanceTravelled g >? starSpawnThreshold g
           then [GenerateSprite inp f] else [])
  /\ starSpawnThreshold g'
     = if distanceTravelled g >? starSpawnThreshold g
       then wrap64 (starSpawnThreshold g + 2000)
       else starSpawnThreshold g.
Proof.
  unfold afterCollisions.
  destruct (spawnSpire inp g) as [g1|] eqn:H1; [|done]. simpl.
  destruct (spawnAsteroid inp g1) as [g2|] eqn:H2; [|done]. simpl.
  destruct (spawnStar inp g2) as [g3|] eqn:H3; [|done]. simpl.
  destruct (sweepExplosions g3) as [g4|] eqn:H4; [|done]. simpl.
  intros [= <-] Hf Hwf. simpl.
  apply spawnSpire_frame in H1. apply spawnAsteroid_frame in H2.
  apply sweepExplosions_frame in H4.
  assert (E1 : stars g2 = stars g) by (rewrite H2, H1; done).
  assert (E2 : starFactory g2 = Some f) by (rewrite H2, H1; done).
  assert (E3 : distanceTravelled g2 = distanceTravelled g)
    by (rewrite H2, H1; done).
  assert (E4 : starSpawnThreshold g2 = starSpawnThreshold g)
    by (rewrite H2, H1; done).
  destruct (spawnStar_spec inp g2 f E2) as (g3' & H3' & Hw3 & Hl3 & HT3);
    [by rewrite E1|].
  rewrite H3' in H3. injection H3 as ->.
  rewrite E1, E3, E4 in Hl3. rewrite E3, E4 in HT3.
  assert (E5 : stars g4 = stars g3) by (rewrite H4; done).
  assert (E6 : starSpawnThreshold g4 = starSpawnThreshold g3)
    by (rewrite H4; done).
  by rewrite E5, E6.
Qed.

(** The stars when checkCollisions is entered: every star has moved by
    the speed of the frame, which is at least the speed without the
    boost. *)
Lemma entering_stars inp g gd :
  stars_ok g -> beforeCollisions inp g = Some gd ->
  exists (n n1 : Z) (s : Sprite),
    speed g = inject_Z n /\ 1 <= baseSpeed n g
    /\ n <= baseSpeed n g + 2
    /\ n <= 1 + 3 * frameCount g
    /\ (1998 < baseSpeed n g
        \/ distanceTravelled g <= starSpawnThreshold g)
    /\ speed gd = inject_Z n1 /\ boostFactor gd = 2%Q
    /\ baseSpeed n g <= baseSpeed n1 gd /\ n1 <= n + 1
    /\ distanceTravelled gd = distanceTravelled g + n
    /\ ship gd = Some s /\ Image s = shipImage
    /\ slice_wf (stars gd)
    /\ spaced (to_list (stars gd))
    /\ Forall (star_ok (baseSpeed n1 gd) (baseSpeed n1 gd)
                 (starSpawnThreshold g) (distanceTravelled g + n))
         (to_list (stars gd)).
Proof.
  intros (n & Hn & Hbf & Hb & Hf & Hn3 & Hd & HT & HB & Hlbt
          & (s & Hs & Hsi) & Hwf & Hsp & Hok) Hgd.
  destruct (advanceCounters_base g n Hn Hbf Hb) as (n1 & Hn1 & Hb1 & Hle).
  pose proof (beforeCollisions_frame _ _ _ Hgd) as Fd.
  pose proof (advanceCounters_frame g) as Fc.
  destruct (beforeCollisions_ship _ _ _ _ Hgd Hs) as (s' & Hs' & Hsi').
  destruct (beforeCollisions_stars _ _ _ Hgd Hwf) as (Hwd & Hld).
  assert (Hnd : speed gd = inject_Z n1) by (rewrite Fd; done).
  assert (Hbd : isBoosting gd = isBoosting (advanceCounters g))
    by (rewrite Fd; done).
  assert (Hfd : boostFactor gd = 2%Q) by (rewrite Fd, Fc; done).
  assert (Hbase : baseSpeed n1 gd = baseSpeed n1 (advanceCounters g))
    by (unfold baseSpeed; by rewrite Hbd).
  assert (Hnb : n <= baseSpeed n g + 2 /\ baseSpeed n1 gd <= n1).
  { unfold baseSpeed. destruct (isBoosting g), (isBoosting gd); lia. }
  assert (Hdist : distanceTravelled gd = distanceTravelled g + n).
  { assert (E : distanceTravelled gd
                = distanceTravelled (advanceCounters g))
      by (rewrite Fd; done).
    rewrite E, advanceCounters_distance, Hn.
    unfold int_of_float, truncate. simpl. rewrite Z.quot_1_r.
    unfold maxFrames in *.
    rewrite (wrap64_id n) by (unfold int_min, int_max, baseSpeed in *; lia).
    apply wrap64_id. unfold int_min, int_max, baseSpeed in *. lia. }
  rewrite Hn1 in Hld.
  destruct (stars_moved (baseSpeed n g) (baseSpeed n1 gd) n1 n
              (starSpawnThreshold g) (distanceTravelled g)
              (to_list (stars g))) as [Hsp' Hok'];
    [lia|unfold maxFrames in *; lia|lia|done|done|].
  rewrite <- Hld in Hsp', Hok'.
  exists n, n1, s'. rewrite Hsi' in *.
  repeat (split; [done || lia|]). done.
Qed.

(** A Game-mode frame keeps the stars spaced. *)
Lemma updateGame_stars_ok inp g g' :
  stars_ok g -> configured g ->
  frameCount g < maxFrames -> stars_generated inp g ->
  updateGame inp g = Some g' -> stars_ok g'.
Proof.
  intros Hok Hconf Hmax Hgen Hrun.
  pose proof Hok as (n0 & _ & _ & _ & Hf & _ & Hd & HT & _ & Hlbt & _).
  unfold updateGame in Hrun.
  destruct (beforeCollisions inp g) as [gd|] eqn:Hgd; [|done].
  simpl in Hrun.
  destruct (checkCollisions inp gd) as [ge|] eqn:He; [|done].
  simpl in Hrun.
  destruct (entering_stars inp g gd Hok Hgd)
    as (n & n1 & s & Hn & Hb & Hnb & Hn3 & HB & Hn1 & Hbf1 & Hb1 & Hle
        & Hdist & Hs & Hsi & Hwd & Hsp & Hstars).
  assert (Himg : Forall (fun x => Image x = starImage) (to_list (stars gd))).
  { eapply Forall_impl; [exact Hstars|]. by intros x (? & _). }
  destruct (checkCollisions_stars inp gd ge s n1 He Hs Hsi Hwd Hsp Himg
              Hn1 Hbf1)
    as (n2 & Hn2 & Hb2 & Hle2 & Hwe & Hsub & Hl2).
  destruct (beforeCollisions_static _ _ _ Hgd)
    as (Sd & _ & _ & Hfd & _ & _ & _ & HTd & _).
  destruct (checkCollisions_static _ _ _ He)
    as (Se & _ & Hse & Hfe & Hde & _ & _ & HTe & _).
  pose proof (checkCollisions_core _ _ _ He) as (_ & _ & _ & Hbfe & _).
  assert (Hce : configured ge)
    by (unfold configured in *; by rewrite Se, Sd).
  destruct (static_fields ge Hce) as (_ & _ & _ & Hsf & _).
  destruct (afterCollisions_stars _ _ _ _ Hrun Hsf Hwe)
    as (Hw' & Hl' & HT').
  pose proof (afterCollisions_core _ _ _ Hrun)
    as (_ & Hd' & Hs' & Hbf' & Hb' & Hlb' & _ & _ & Hf').
  pose proof (afterCollisions_frame _ _ _ Hrun) as Fa.
  assert (Hship : ship g' = ship ge) by (rewrite Fa; done).
  assert (Hlbd : lastBoostTime gd = lastBoostTime g).
  { pose proof (beforeCollisions_frame _ _ _ Hgd) as Fd.
    pose proof (advanceCounters_frame g) as Fc. rewrite Fd, Fc. done. }
  assert (Hgtd : gameTime gd = gameTime g)
    by (unfold gameTime; by rewrite Hfd).
  rewrite Hde, HTe, Hdist, HTd in Hl', HT'.
  rewrite Hfe, Hfd in Hf'.
  rewrite wrap64_id in Hf' by (unfold int_min, int_max, maxFrames in *; lia).
  assert (Hbase : baseSpeed n2 g' = baseSpeed n2 ge)
    by (unfold baseSpeed; by rewrite Hb').
  assert (Hgen' : forall x,
            x = GenerateSprite inp
                  (mkSpriteFactory [starImage]
                     (screenWidth + 100) (screenWidth + 100)
                     (screenHeight - 100) 100) ->
            Image x = starImage /\ X x = screenWidth + 100).
  { intros x ->. destruct (static_fields g Hconf) as (_ & _ & _ & Hsg & _).
    destruct (Hgen _ Hsg) as [Hi Hx]. simpl in Hi, Hx.
    apply list_elem_of_singleton in Hi. split; [done|lia]. }
  assert (Hbn : baseSpeed n g <= n /\ baseSpeed n2 ge <= n2)
    by (unfold baseSpeed; destruct (isBoosting g), (isBoosting ge); lia).
  exists n2. rewrite Hs', Hbf', Hbfe, Hd', Hde, Hdist, Hf', Hlb', Hship, Hse.
  rewrite Hbase.
  split; [done|]. split; [done|]. split; [lia|].
  split; [lia|]. split; [lia|].
  split; [unfold maxFrames in *; lia|].
  assert (HTw : wrap64 (starSpawnThreshold g + 2000)
                = starSpawnThreshold g + 2000)
    by (apply wrap64_id; unfold int_min, int_max, maxFrames in *; lia).
  rewrite HTw in HT'.
  split; [rewrite HT'; destruct (_ >? _); lia|].
  split.
  { destruct (Z.gtb_spec (distanceTravelled g + n) (starSpawnThreshold g));
      rewrite HT'; destruct HB; lia. }
  split.
  { destruct (gameTime_mono g g') as [Hg0 Hg1]; [lia|lia|].
    destruct Hl2 as [->| ->]; [rewrite Hlbd|rewrite Hgtd]; lia. }
  split; [eauto|]. split; [done|].
  assert (Hsube : spaced (to_list (stars ge))
                  /\ Forall (star_ok (baseSpeed n1 gd) (baseSpeed n1 gd)
                               (starSpawnThreshold g)
                               (distanceTravelled g + n))
                       (to_list (stars ge))).
  { split; [by apply (spaced_sublist (to_list (stars gd)))|].
    by apply (Forall_sublist _ (to_list (stars gd))). }
  destruct Hsube as [Hspe Hoke]. rewrite Hl', HT'.
  destruct (Z.gtb_spec (distanceTravelled g + n) (starSpawnThreshold g))
    as [Hspawn|Hspawn].
  - destruct (Hgen' _ eq_refl) as [Hi Hx].
    destruct (stars_spawned (baseSpeed n1 gd) (baseSpeed n1 gd)
                (starSpawnThreshold g) (distanceTravelled g + n)
                (to_list (stars ge)) _ ltac:(lia) Hspawn
                ltac:(pose proof reach_ok; lia) Hi Hx Hspe Hoke)
      as [Hsp1 Hok1].
    split; [done|]. eapply Forall_impl; [exact Hok1|].
    intros x. apply star_ok_mono; lia.
  - rewrite app_nil_r. split; [done|].
    eapply Forall_impl; [exact Hoke|].
    intros x. apply star_ok_mono; lia.
Qed.

Lemma resetGame_stars_ok (g0 g1 : Game) :
  resetGame g0 = Some g1 -> stars_ok g1.
Proof.
  intros Hreset. destruct (resetGame_spec g0) as (t & b & Hrun & _).
  rewrite Hrun in Hreset. injection Hreset as <-.
  exists 1. unfold baseSpeed, gameTime, maxFrames. simpl.
  split; [done|]. split; [done|]. split; [lia|]. split; [lia|].
  split; [lia|]. split; [lia|]. split; [lia|]. split; [right; lia|].
  split; [by vm_compute|]. split; [eauto|].
  split; [apply nil_slice_wf|]. split; [done|]. apply Forall_nil_2.
Qed.

Lemma session_reachable (g : Game) : session g -> reachable g.
Proof.
  induction 1 as [g Hnew|g inp g' _ IH _ Hstep].
  - by apply reachable_new.
  - by apply (reachable_step g inp).
Qed.

(** In the states of a session the stars are spaced. *)
Lemma session_stars_ok (g : Game) : session g -> stars_ok g.
Proof.
  induction 1 as [g Hnew|g inp g' Hg IH Hside Hstep].
  - by apply (resetGame_stars_ok zeroGame).
  - apply session_reachable in Hg.
    destruct (reachable_state_ok g Hg) as (_ & Hconf & _).
    unfold Update in Hstep. destruct (mode g).
    + destruct (keySpaceJustPressed inp); injection Hstep as <-; exact IH.
    + destruct (Hside eq_refl) as [Hmax Hgen].
      by apply (updateGame_stars_ok inp g).
    + destruct (keyRJustPressed inp); [|injection Hstep as <-; exact IH].
      destruct (resetGame g) as [g1|] eqn:Hreset; [|done].
      simpl in Hstep. injection Hstep as <-.
      apply resetGame_stars_ok in Hreset.
      exact Hreset.
Qed.

Lemma elem_of_delete {A : Type} (l : list A) (i : nat) (x : A) :
  x ∈ delete i l -> exists j, j <> i /\ l !! j = Some x.
Proof.
  intros Hx. apply list_elem_of_lookup_1 in Hx as [j Hj].
  destruct (decide (j < i)%nat).
  - rewrite list_lookup_delete_lt in Hj by done. exists j. split; [lia|done].
  - rewrite list_lookup_delete_ge in Hj by lia. exists (S j).
    split; [lia|done].
Qed.


End GameLoop.

(** ** A concrete sprite library and concrete frames *)

(** Image sizes, in pixels. *)
Definition exampleSize (img : EbitenImage) : Z * Z :=
  match img with
  | floorImage => (808, 71)
  | shipImage => (99, 75)
  | shieldImage => (133, 108)
  | starImage => (39, 37)
  | topSpire | bottomSpire => (108, 239)
  | _ => (100, 90)
  end.

(** Overlap of the axis-aligned bounding boxes. *)
Definition overlap (a b : Sprite) : bool :=
  (X a <? X b + fst (exampleSize (Image b)))
  && (X b <? X a + fst (exampleSize (Image a)))
  && (Y a <? Y b + snd (exampleSize (Image b)))
  && (Y b <? Y a + snd (exampleSize (Image a))).

(** Growth by doubling. *)
Definition doubling (old needed : nat) : nat := Nat.max needed (2 * old).

Definition addImpulse (s : Sprite) (dx dy : Q) : Sprite :=
  set_YVelocity (YVelocity s + dy)%Q (set_XVelocity (XVelocity s + dx)%Q s).

Definition expire (t : TransientSprite) (now : Z) : TransientSprite :=
  mkTransientSprite (CreatedAtGameTime t) (LifetimeDuration t)
    (LifetimeDuration t <? now - CreatedAtGameTime t)
    (Sprite_Update int_of_float (TSprite t)).

(** A factory that always produces its first image at its least
    coordinates. *)
Definition firstSprite (f : SpriteFactory) : Sprite :=
  mkSprite (hd starImage (Images f)) (MinX f) (MinY f) 0 0 0.

(** Frames with no key down, with the space key, with the restart key. *)
Definition idle : Input :=
  mkInput false false false false 0 3 3 firstSprite (fun _ => 1 # 3)%Q.
Definition space : Input :=
  mkInput true false true false 0 3 3 firstSprite (fun _ => 1 # 3)%Q.
Definition restart : Input :=
  mkInput false true false false 0 3 3 firstSprite (fun _ => 1 # 3)%Q.

Definition play : Input -> Game -> option Game :=
  Update doubling exampleSize int_of_float overlap addImpulse expire.

Definition entering : Input -> Game -> option Game :=
  beforeCollisions doubling exampleSize int_of_float.

Definition colliding : Input -> Game -> option Game :=
  checkCollisions doubling overlap.

(** The result of a run that is known to return. *)
Definition result (r : option Game) : Game :=
  default zeroGame r.

(** The frames of a list of inputs, in order. *)
Fixpoint run (inps : list Input) (g : Game) : option Game :=
  match inps with
  | [] => Some g
  | inp :: inps' => g ← play inp g; run inps' g
  end.

(** The space key in every other frame: the ship's vertical velocity
    stays below one pixel per frame in magnitude. *)
Fixpoint hover (n : nat) : list Input :=
  match n with
  | O => []
  | S n' => (if Nat.even n' then space else idle) :: hover n'
  end.

(** A session in which two asteroids meet the same ground tile.  The
    space key is down in every other frame.  The asteroid factory yields
    its image at [X = MinX = MaxX] and at a height within [MinY .. MaxY];
    the impulse draws are within [rand.Intn(10)] and [rand.Intn(6)].  The
    asteroids spawned in frames 550 and 650 both rise by one pixel per
    frame, the second one flying faster to the left. *)
Definition asteroidAt (y : Z) (f : SpriteFactory) : Sprite :=
  mkSprite (hd starImage (Images f)) (MinX f)
    (match Images f with asteroid1 :: _ => y | _ => MinY f end) 0 0 0.

Definition scripted (i : nat) : Input :=
  mkInput (Nat.even i) false (Nat.even i) false 0
    (if (i <? 600)%nat then 9 else 0)
    (if (i <? 520)%nat then 3 else 2)
    (asteroidAt (if (i <? 520)%nat then 150
                 else if (i <? 600)%nat then 230 else 130))
    (fun _ => 1 # 3)%Q.

(** The ship of a state that has one. *)
Definition shipOf (g : Game) : Sprite :=
  default (mkSprite shipImage 0 0 0 0 0) (ship g).

Definition slice_of {A : Type} (l : list A) : slice A :=
  Slice l (length l) (length l).

(** The state after start-up, and after the space key that starts the
    game. *)
Definition start : Game := result (newGame doubling exampleSize).
Definition playing : Game := result (play space start).

(** Two frames with the space key held. *)
Definition frame1 : Game := result (play space playing).
Definition frame2 : Game := result (play space frame1).

(** The space key held until the ship reaches the top row of tiles: the
    frame played from [climbing] is the one of the crash. *)
Definition climbing : Game :=
  Eval vm_compute in result (run (replicate 49 space) playing).
Definition crashed : Game := result (play space climbing).

(** Hovering until the leading tiles are about to leave the screen. *)
Definition cruising : Game :=
  Eval vm_compute in result (run (hover 653) playing).

(** The state after 710 frames of the scripted session. *)
Definition doomed : Game :=
  Eval vm_compute in result (run (map scripted (seq 0 710)) playing).

(** States with hand-placed sprites. *)
Definition star (x y : Z) : Sprite := mkSprite starImage x y 0 0 0.
Definition asteroid (x y : Z) : Sprite := mkSprite asteroid1 x y 0 0 0.
Definition spire (x y : Z) : Sprite := mkSprite topSpire x y 0 0 0.

Definition twoStars : Game :=
  set_stars (slice_of [star 260 370; star 270 380]) playing.
Definition twoOnTile : Game :=
  set_asteroids (slice_of [asteroid 500 30; asteroid 700 40]) playing.
Definition twoOnShield : Game :=
  set_asteroids (slice_of [asteroid 141 300; asteroid 300 440])
    (set_speed 3 (set_isBoosting true playing)).
Definition grazing : Game :=
  set_ship (Some (mkSprite shipImage 257 100 0 0 0))
    (set_asteroids (slice_of [asteroid 300 60]) playing).
Definition leaving : Game :=
  set_spires (slice_of [spire (-199) 0; spire 300 0])
    (set_asteroids (slice_of [asteroid (-200) 300; asteroid 40 300])
       (set_stars (slice_of [star 500 100; star (-199) 100]) playing)).

(** *** The concrete library meets the assumptions *)

Lemma doubling_ok (c n : nat) : (n <= doubling c n)%nat.
Proof. unfold doubling. lia. Qed.

Lemma exampleWidth_ok : 0 < imageWidth exampleSize <= 2 ^ 31.
Proof. vm_compute. split; [reflexivity|discriminate]. Qed.

Definition reached : Game -> Prop :=
  reachable doubling exampleSize int_of_float overlap addImpulse expire.

Lemma start_reached : reached start.
Proof. apply reachable_new. vm_compute. reflexivity. Qed.

Lemma run_reached (inps : list Input) (g g' : Game) :
  reached g -> run inps g = Some g' -> reached g'.
Proof.
  revert g. induction inps as [|inp inps IH]; intros g Hg Hrun; simpl in Hrun.
  - by inversion Hrun; subst.
  - destruct (play inp g) as [g1|] eqn:Hstep; [|done].
    apply (IH g1); [|done]. by apply (reachable_step _ _ _ _ _ _ g inp).
Qed.

Lemma playing_reached : reached playing.
Proof.
  apply (run_reached [space] start); [apply start_reached|]. by vm_compute.
Qed.

Lemma climbing_reached : reached climbing.
Proof.
  apply (run_reached (replicate 49 space) playing); [apply playing_reached|].
  by vm_compute.
Qed.

Lemma cruising_reached : reached cruising.
Proof.
  apply (run_reached (hover 653) playing); [apply playing_reached|].
  by vm_compute.
Qed.

Lemma doomed_reached : reached doomed.
Proof.
  apply (run_reached (map scripted (seq 0 710)) playing);
    [apply playing_reached|].
  by vm_compute.
Qed.

(** *** Concrete frames *)

(** The frame played from [cruising] recycles the leading tiles. *)
Example cruising_recycles :
  map X (to_list (topGroundTiles cruising)) = [-806; 2; 810; 1618]
  /\ (map X ∘ to_list ∘ topGroundTiles <$> play idle cruising)
     = Some [0; 808; 1616; 2424].
Proof. by vm_compute. Qed.

Lemma speed_at_least_one_witness :
  (1 <= speed cruising)%Q
  /\ boostFactor cruising = 2%Q
  /\ (isBoosting cruising = true -> 3 <= speed cruising)%Q.
Proof.
  apply (speed_at_least_one doubling exampleSize int_of_float overlap
           addImpulse expire).
  apply cruising_reached.
Defined.

Lemma distance_monotone_witness :
  distanceTravelled playing <= distanceTravelled frame2
  /\ distanceTravelled (result (play restart crashed)) = 0.
Proof.
  destruct (distance_monotone doubling exampleSize int_of_float overlap
              addImpulse expire) as [Hrun Hrestart].
  split.
  - apply Hrun; [apply playing_reached|].
    apply (game_run_step _ _ _ _ _ _ playing space frame1);
      [reflexivity|by vm_compute|by vm_compute|].
    apply (game_run_step _ _ _ _ _ _ frame1 space frame2);
      [reflexivity|by vm_compute|by vm_compute|].
    apply game_run_nil.
  - apply (Hrestart restart crashed); [reflexivity|reflexivity|].
    by vm_compute.
Defined.

Lemma ground_ring_buffer_witness :
  exists gc,
    updateGround doubling exampleSize int_of_float
      (result (beforeGround int_of_float idle cruising)) = Some gc
    /\ row_updated exampleSize int_of_float
         (- speed (result (beforeGround int_of_float idle cruising)))%Q
         (fun x => topTile x (result (beforeGround int_of_float idle cruising)))
         (topGroundTiles cruising) (topGroundTiles gc)
    /\ row_updated exampleSize int_of_float
         (- speed (result (beforeGround int_of_float idle cruising)))%Q
         (fun x =>
            bottomTile exampleSize x
              (result (beforeGround int_of_float idle cruising)))
         (bottomGroundTiles cruising) (bottomGroundTiles gc)
    /\ contiguous exampleSize (to_list (topGroundTiles cruising))
    /\ contiguous exampleSize (to_list (bottomGroundTiles cruising))
    /\ contiguous exampleSize (to_list (topGroundTiles gc))
    /\ contiguous exampleSize (to_list (bottomGroundTiles gc)).
Proof.
  apply (ground_ring_buffer doubling exampleSize int_of_float overlap
           addImpulse expire doubling_ok exampleWidth_ok idle cruising).
  - apply cruising_reached.
  - reflexivity.
  - by vm_compute.
Defined.

Lemma leaving_wf :
  slice_wf (spires leaving) /\ slice_wf (asteroids leaving)
  /\ slice_wf (stars leaving).
Proof. unfold slice_wf. simpl. lia. Qed.

Lemma out_of_bounds_removed_witness :
  (exists g', updateSpires doubling int_of_float leaving = Some g'
     /\ swept (moveTile int_of_float (- speed leaving)%Q)
          (to_list (spires leaving)) (to_list (spires g')))
  /\ (exists g', updateAsteroids doubling int_of_float leaving = Some g'
        /\ swept (Sprite_Update int_of_float)
             (to_list (asteroids leaving)) (to_list (asteroids g')))
  /\ (exists g', updateStars doubling int_of_float leaving = Some g'
        /\ swept (moveTile int_of_float (- speed leaving)%Q)
             (to_list (stars leaving)) (to_list (stars g'))).
Proof.
  destruct (out_of_bounds_removed doubling int_of_float leaving)
    as (Hspires & Hasteroids & Hstars).
  destruct leaving_wf as (Hw1 & Hw2 & Hw3).
  split; [exact (Hspires Hw1)|].
  split; [exact (Hasteroids Hw2)|exact (Hstars Hw3)].
Defined.

(** In the frame played from [leaving] the spire at -199 moves to -200
    and leaves, like the asteroid at -200 and the star at -199. *)
Example leaving_swept :
  (map X ∘ to_list ∘ spires <$> updateSpires doubling int_of_float leaving)
  = Some [299]
  /\ (map X ∘ to_list ∘ asteroids
        <$> updateAsteroids doubling int_of_float leaving) = Some [40]
  /\ (map X ∘ to_list ∘ stars <$> updateStars doubling int_of_float leaving)
     = Some [499].
Proof. by vm_compute. Qed.

Lemma ship_vertical_velocity_witness :
  exists g' s',
    shipMovement int_of_float space playing = Some g'
    /\ ship g' = Some s'
    /\ (YVelocity s' == 0 + (1 # 4) - (1 # 2))%Q.
Proof.
  apply (ship_vertical_velocity int_of_float space playing
           (mkSprite shipImage 257 360 0 0 0)).
  reflexivity.
Defined.

Lemma restart_resets_witness :
  exists g',
    play restart crashed = Some g'
    /\ mode g' = ModeTitle
    /\ distanceTravelled g' = 0 /\ speed g' = 1%Q
    /\ speedIncreaseThreshold g' = 500
    /\ spireSpawnThreshold g' = 600 /\ asteroidSpawnThreshold g' = 200
    /\ starSpawnThreshold g' = 50 /\ frameCount g' = 0
    /\ isBoosting g' = false
    /\ spires g' = nil_slice /\ asteroids g' = nil_slice
    /\ stars g' = nil_slice /\ asteroidExplosions g' = nil_slice.
Proof.
  apply (restart_resets doubling exampleSize int_of_float overlap addImpulse
           expire doubling_ok exampleWidth_ok restart crashed);
    reflexivity.
Defined.

Lemma title_and_gameover_frames_witness :
  (exists g',
     play space start = Some g'
     /\ g' = set_mode (mode g') start /\ mode g' = ModeGame)
  /\ play idle crashed = Some crashed.
Proof.
  split.
  - apply (title_and_gameover_frames doubling exampleSize int_of_float
             overlap addImpulse expire space start).
    reflexivity.
  - apply (title_and_gameover_frames doubling exampleSize int_of_float
             overlap addImpulse expire idle crashed); reflexivity.
Defined.

Lemma obstacle_collision_game_over_witness :
  mode crashed = ModeGameOver
  /\ forall inp', keyRJustPressed inp' = false ->
       play inp' crashed = Some crashed.
Proof.
  apply (obstacle_collision_game_over doubling exampleSize int_of_float
           overlap addImpulse expire space climbing
           (result (entering space climbing))
           (result (obstaclePhase doubling overlap space
                      (result (entering space climbing))))
           crashed (shipOf (result (entering space climbing)))).
  - reflexivity.
  - by vm_compute.
  - by vm_compute.
  - by vm_compute.
  - by vm_compute.
  - unfold slice_wf. vm_compute. lia.
  - left.
    exists (nth 0 (to_list (topGroundTiles (result (entering space climbing))))
              (star 0 0)).
    split; [left; vm_compute; apply list_elem_of_here|by vm_compute].
Defined.

(** C2, as stated, fails.  In the frame played from [grazing] the ship
    overlaps an asteroid when checkCollisions is entered; the asteroid
    also overlaps a ground tile and is destroyed by it, and the mode after
    the frame is still Game. *)
Lemma asteroid_overlap_without_game_over :
  exists gd s a g',
    mode grazing = ModeGame
    /\ entering idle grazing = Some gd
    /\ ship gd = Some s
    /\ a ∈ to_list (asteroids gd)
    /\ overlap s a = true
    /\ play idle grazing = Some g'
    /\ mode g' = ModeGame.
Proof.
  exists (result (entering idle grazing)),
    (shipOf (result (entering idle grazing))),
    (asteroid 300 60), (result (play idle grazing)).
  split; [reflexivity|]. split; [by vm_compute|]. split; [by vm_compute|].
  split; [vm_compute; apply list_elem_of_here|].
  split; [by vm_compute|]. split; by vm_compute.
Qed.

(** *** A session in which the ship collects a star *)

(** The concrete library meets what is assumed of the sprite library. *)
Lemma int_of_float_whole (n : Z) :
  int_min <= n <= int_max -> int_of_float (inject_Z n) = n.
Proof.
  intros Hn. unfold int_of_float, truncate. simpl.
  rewrite Z.quot_1_r. by apply wrap64_id.
Qed.

Lemma overlap_boxes (a b : Sprite) :
  overlap a b = true ->
  X a < X b + fst (exampleSize (Image b))
  /\ X b < X a + fst (exampleSize (Image a)).
Proof.
  unfold overlap. intros H.
  apply andb_prop in H as [H _]. apply andb_prop in H as [H _].
  apply andb_prop in H as [H1 H2]. split; by apply Z.ltb_lt.
Qed.

Lemma exampleReach_ok : reach exampleSize <= 400.
Proof. by vm_compute. Qed.

Definition in_session : Game -> Prop :=
  session doubling exampleSize int_of_float overlap addImpulse expire.

(** The star factory of initializeStarFactory, and the check that an
    input generates its stars within the bounds of this factory. *)
Definition theStarFactory : SpriteFactory :=
  mkSpriteFactory [starImage] (screenWidth + 100) (screenWidth + 100)
    (screenHeight - 100) 100.

Definition star_in_bounds (inp : Input) : bool :=
  match Image (GenerateSprite inp theStarFactory) with
  | starImage => X (GenerateSprite inp theStarFactory) =? screenWidth + 100
  | _ => false
  end.

(** The frames of a list of inputs, played as long as the checks of a
    session pass. *)
Fixpoint session_run (inps : list Input) (g : Game) : option Game :=
  match inps with
  | [] => Some g
  | inp :: inps' =>
      if (frameCount g <? maxFrames) && star_in_bounds inp
      then g ← play inp g; session_run inps' g
      else None
  end.

Lemma in_session_reached (g : Game) : in_session g -> reached g.
Proof.
  apply (session_reachable doubling exampleSize int_of_float overlap
           addImpulse expire).
Qed.

Lemma star_in_bounds_generated (inp : Input) (g : Game) :
  reached g -> star_in_bounds inp = true -> stars_generated inp g.
Proof.
  intros Hg Hinp f Hf.
  destruct (reachable_state_ok doubling exampleSize int_of_float overlap
              addImpulse expire doubling_ok exampleWidth_ok g Hg)
    as (_ & Hconf & _).
  destruct (static_fields exampleSize g Hconf) as (_ & _ & _ & Hsf & _).
  rewrite Hsf in Hf. injection Hf as <-.
  unfold star_in_bounds in Hinp. fold theStarFactory. simpl.
  destruct (Image (GenerateSprite inp theStarFactory)); try done.
  apply Z.eqb_eq in Hinp. split; [apply list_elem_of_here|lia].
Qed.

Lemma session_run_in_session (inps : list Input) (g g' : Game) :
  in_session g -> session_run inps g = Some g' -> in_session g'.
Proof.
  revert g. induction inps as [|inp inps IH]; intros g Hg Hrun;
    simpl in Hrun.
  - by injection Hrun as <-.
  - destruct ((frameCount g <? maxFrames) && star_in_bounds inp) eqn:Hok;
      [|done].
    destruct (play inp g) as [g1|] eqn:Hstep; [|done]. simpl in Hrun.
    apply andb_prop in Hok as [Hf Hinp]. apply Z.ltb_lt in Hf.
    apply (IH g1); [|done].
    apply (session_step _ _ _ _ _ _ g inp); [done| |done].
    intros _. split; [done|].
    by apply star_in_bounds_generated; [apply in_session_reached|].
Qed.

(** Frames of a session in which the asteroids fly below the ship, with
    the space key down or not. *)
Definition steer (thrust : bool) : Input :=
  mkInput thrust false thrust false 0 3 3 (asteroidAt 400)
    (fun _ => 1 # 3)%Q.

Fixpoint hovering (n : nat) : list Input :=
  match n with
  | O => []
  | S n' => steer (Nat.even n') :: hovering n'
  end.

(** The ship climbs to the height of the stars and hovers there until
    the first star is two pixels from it. *)
Definition toStar : list Input :=
  replicate 33 (steer true) ++ replicate 33 (steer false) ++ hovering 595.

Definition meeting : Game :=
  Eval vm_compute in result (session_run toStar playing).
Definition met : Game := result (entering (steer false) meeting).
Definition metStars : Game :=
  result (gx ← obstaclePhase doubling overlap (steer false) met;
          asteroidCollisions doubling overlap (steer false) gx).
Definition collected : Game :=
  result (starCollisions doubling overlap metStars).

Lemma playing_in_session : in_session playing.
Proof.
  apply (session_run_in_session [space] start);
    [apply session_new; by vm_compute|by vm_compute].
Qed.

Lemma meeting_in_session : in_session meeting.
Proof.
  apply (session_run_in_session toStar playing);
    [apply playing_in_session|by vm_compute].
Qed.

(** The frame played from [meeting]: the star that the ship overlaps is
    collected, and the speed goes from 2 to 4. *)
Example meeting_collects :
  frameCount meeting = 661
  /\ speed meeting = 2%Q /\ isBoosting meeting = false
  /\ map (fun s => (X s, Y s)) (to_list (stars met)) = [(355, 100)]
  /\ (X (shipOf met), Y (shipOf met)) = (257, 112)
  /\ to_list (stars collected) = []
  /\ speed collected = 4%Q /\ isBoosting collected = true
  /\ play (steer false) meeting
     = afterCollisions doubling addImpulse expire (steer false) collected.
Proof. by vm_compute. Qed.


(** C8: collision resolution panics when two stars overlap the ship, when
    two asteroids overlap the same ground tile, and when two asteroids
    overlap the shield.  In each frame the state in which checkCollisions
    is entered is reached, and checkCollisions does not return.  The last
    frame is the 711th of a session played from the start: the two
    asteroids listed reach the leading top tile together. *)
Theorem collision_resolution_panics :
  (is_Some (entering idle twoStars)
   /\ colliding idle (result (entering idle twoStars)) = None
   /\ play idle twoStars = None)
  /\ (is_Some (entering idle twoOnTile)
      /\ colliding idle (result (entering idle twoOnTile)) = None
      /\ play idle twoOnTile = None)
  /\ (is_Some (entering idle twoOnShield)
      /\ colliding idle (result (entering idle twoOnShield)) = None
      /\ play idle twoOnShield = None)
  /\ (reached doomed
      /\ map (fun a => (X a, Y a)) (to_list (asteroids doomed))
         = [(174, 71); (243, 71)]
      /\ is_Some (entering (scripted 710) doomed)
      /\ colliding (scripted 710) (result (entering (scripted 710) doomed))
         = None
      /\ play (scripted 710) doomed = None).
Proof.
  split; [repeat split; try (by vm_compute); vm_compute; eauto|].
  split; [repeat split; try (by vm_compute); vm_compute; eauto|].
  split; [repeat split; try (by vm_compute); vm_compute; eauto|].
  split; [apply doomed_reached|].
  split; [by vm_compute|].
  split; [vm_compute; eauto|].
  split; by vm_compute.
Qed.

(** ** Concrete frames for the further properties *)

Definition following : Input -> Game -> option Game :=
  afterCollisions doubling addImpulse expire.

(** Hovering until the distance reaches the first star threshold: the
    frame played from [approaching] spawns the first star. *)
Definition approaching : Game :=
  Eval vm_compute in result (run (hover 50) playing).
Definition spawned : Game := result (play idle approaching).

(** The states in which checkCollisions is entered in the frames played
    from [cruising], [grazing] and [twoOnShield], and what it returns
    for [grazing]. *)
Definition cruisingEntered : Game := result (entering idle cruising).
Definition grazingEntered : Game := result (entering idle grazing).
Definition grazingCollided : Game := result (colliding idle grazingEntered).
Definition shielded : Game := result (entering idle twoOnShield).

Lemma approaching_reached : reached approaching.
Proof.
  apply (run_reached (hover 50) playing); [apply playing_reached|].
  by vm_compute.
Qed.

(** Checking that no sprite of a list overlaps another. *)
Lemma overlap_none (s : Sprite) (l : list Sprite) :
  forallb (fun o => negb (overlap s o)) l = true ->
  forall o, o ∈ l -> overlap s o = false.
Proof.
  intros H o Ho. rewrite forallb_forall in H. apply list_elem_of_In in Ho.
  by apply negb_true_iff, H.
Qed.

Lemma overlap_none_among (l1 l2 : list Sprite) :
  forallb (fun a => forallb (fun o => negb (overlap a o)) l2) l1 = true ->
  forall a o, a ∈ l1 -> o ∈ l2 -> overlap a o = false.
Proof.
  intros H a o Ha Ho. rewrite forallb_forall in H.
  apply list_elem_of_In in Ha. by apply (overlap_none a l2); [apply H|].
Qed.

(** The frame played from [approaching] takes the distance from 50 to 51
    and spawns the first star at the right of the screen. *)
Example approaching_spawns :
  distanceTravelled approaching = 50
  /\ to_list (stars approaching) = []
  /\ map (fun s => (X s, Y s)) (to_list (stars spawned)) = [(1128, 100)]
  /\ starSpawnThreshold spawned = 2050.
Proof. by vm_compute. Qed.

(** A new game lays four tiles of 808 pixels in each row. *)
Example start_tiles :
  map X (to_list (topGroundTiles start)) = [0; 808; 1616; 2424]
  /\ map X (to_list (bottomGroundTiles start)) = [0; 808; 1616; 2424].
Proof. by vm_compute. Qed.

Lemma configuration_is_constant_witness :
  is_Some (ship cruising)
  /\ topSpireFactory cruising
     = Some (mkSpriteFactory [topSpire]
               (screenWidth + 150) (screenWidth + 150) 0 (-200))
  /\ bottomSpireFactory cruising
     = Some (mkSpriteFactory [bottomSpire]
               (screenWidth + 150) (screenWidth + 150)
               (wrap64 (wrap64 (screenHeight - snd (exampleSize topSpire))
                        + 200))
               (wrap64 (screenHeight - snd (exampleSize topSpire))))
  /\ asteroidFactory cruising
     = Some (mkSpriteFactory [asteroid1; asteroid2; asteroid3; asteroid4]
               (screenWidth + 100) (screenWidth + 100)
               (screenHeight - 100) 100)
  /\ starFactory cruising
     = Some (mkSpriteFactory [starImage]
               (screenWidth + 100) (screenWidth + 100)
               (screenHeight - 100) 100)
  /\ boostSeconds cruising = 0.
Proof.
  apply (configuration_is_constant doubling exampleSize int_of_float overlap
           addImpulse expire doubling_ok exampleWidth_ok cruising).
  apply cruising_reached.
Defined.

Lemma frame_panics_only_in_collisions_witness :
  (exists gd,
     entering idle cruising = Some gd
     /\ match colliding idle gd with
        | Some ge =>
            exists g',
              following idle ge = Some g' /\ play idle cruising = Some g'
        | None => play idle cruising = None
        end)
  /\ (exists gd,
        entering (scripted 710) doomed = Some gd
        /\ match colliding (scripted 710) gd with
           | Some ge =>
               exists g',
                 following (scripted 710) ge = Some g'
                 /\ play (scripted 710) doomed = Some g'
           | None => play (scripted 710) doomed = None
           end).
Proof.
  split.
  - exact (frame_panics_only_in_collisions doubling exampleSize int_of_float
             overlap addImpulse expire doubling_ok exampleWidth_ok idle
             cruising cruising_reached).
  - exact (frame_panics_only_in_collisions doubling exampleSize int_of_float
             overlap addImpulse expire doubling_ok exampleWidth_ok
             (scripted 710) doomed doomed_reached).
Defined.

Lemma game_over_only_on_collision_witness :
  exists gd, entering space climbing = Some gd /\ shipHits overlap gd.
Proof.
  apply (game_over_only_on_collision doubling exampleSize int_of_float
           overlap addImpulse expire doubling_ok exampleWidth_ok space
           climbing crashed).
  - apply climbing_reached.
  - reflexivity.
  - by vm_compute.
  - by vm_compute.
Defined.

Lemma mode_transitions_witness :
  (mode playing = ModeTitle \/ mode playing = ModeGame)
  /\ (mode crashed = ModeGame \/ mode crashed = ModeGameOver)
  /\ (mode (result (play restart crashed)) = ModeGameOver
      \/ mode (result (play restart crashed)) = ModeTitle).
Proof.
  split; [|split].
  - apply (mode_transitions doubling exampleSize int_of_float overlap
             addImpulse expire space start playing).
    by vm_compute.
  - apply (mode_transitions doubling exampleSize int_of_float overlap
             addImpulse expire space climbing crashed).
    by vm_compute.
  - apply (mode_transitions doubling exampleSize int_of_float overlap
             addImpulse expire restart crashed
             (result (play restart crashed))).
    by vm_compute.
Defined.

Lemma grazingEntered_wf :
  slice_wf (asteroids grazingEntered)
  /\ slice_wf (asteroidExplosions grazingEntered).
Proof. unfold slice_wf. vm_compute. lia. Qed.

Lemma destroyed_asteroids_explode_witness :
  sublist (to_list (asteroids grazingCollided))
    (to_list (asteroids grazingEntered))
  /\ (len (asteroids grazingCollided)
      + len (asteroidExplosions grazingCollided)
      = len (asteroids grazingEntered)
        + len (asteroidExplosions grazingEntered))%nat
  /\ exists new,
       to_list (asteroidExplosions grazingCollided)
       = to_list (asteroidExplosions grazingEntered) ++ new
       /\ Forall (explosionOf grazingEntered) new.
Proof.
  destruct grazingEntered_wf as [Hwa Hwx].
  apply (destroyed_asteroids_explode doubling overlap doubling_ok idle
           grazingEntered grazingCollided Hwa Hwx).
  by vm_compute.
Defined.

(** In the frame played from [grazing] the one asteroid is destroyed by a
    ground tile and leaves one explosion. *)
Example grazing_explodes :
  length (to_list (asteroids grazingEntered)) = 1%nat
  /\ to_list (asteroids grazingCollided) = []
  /\ length (to_list (asteroidExplosions grazingEntered)) = 0%nat
  /\ length (to_list (asteroidExplosions grazingCollided)) = 1%nat.
Proof. by vm_compute. Qed.

Lemma explosions_after_frame_witness :
  exists gd new,
    entering idle cruising = Some gd
    /\ Forall (explosionOf gd) new
    /\ to_list (asteroidExplosions (result (play idle cruising)))
       = (fun e => expire e (gameTime cruising))
           <$> (filter (fun e => IsExpired e = false)
                  (to_list (asteroidExplosions cruising)) ++ new).
Proof.
  apply (explosions_after_frame doubling exampleSize int_of_float overlap
           addImpulse expire doubling_ok exampleWidth_ok idle cruising
           (result (play idle cruising))).
  - apply cruising_reached.
  - reflexivity.
  - by vm_compute.
Defined.

Lemma shield_follows_ship_witness :
  exists s,
    ship shielded = Some s
    /\ isBoosting shielded = isBoosting (advanceCounters twoOnShield)
    /\ shield shielded
       = if isBoosting shielded
         then Some (mkSprite shieldImage (wrap64 (X s - 17))
                      (wrap64 (Y s - 15)) 0 0 0)
         else None.
Proof.
  apply (shield_follows_ship doubling exampleSize int_of_float idle
           twoOnShield shielded).
  by vm_compute.
Defined.

Lemma spawns_on_thresholds_witness :
  exists ge tf bf af sf,
    (gd ← entering idle approaching; colliding idle gd) = Some ge
    /\ topSpireFactory approaching = Some tf
    /\ bottomSpireFactory approaching = Some bf
    /\ asteroidFactory approaching = Some af
    /\ starFactory approaching = Some sf
    /\ to_list (spires spawned)
       = to_list (spires ge)
         ++ (if distanceTravelled spawned >? spireSpawnThreshold approaching
             then [GenerateSprite idle
                     (if Z.rem (randIntn2 idle) 2 =? 0 then tf else bf)]
             else [])
    /\ to_list (asteroids spawned)
       = to_list (asteroids ge)
         ++ (if distanceTravelled spawned
                >? asteroidSpawnThreshold approaching
             then [addImpulse (GenerateSprite idle af)
                     (float_of_int (randIntn10 idle) - 15)%Q
                     (float_of_int (randIntn6 idle) - 3)%Q]
             else [])
    /\ to_list (stars spawned)
       = to_list (stars ge)
         ++ (if distanceTravelled spawned >? starSpawnThreshold approaching
             then [GenerateSprite idle sf] else [])
    /\ spireSpawnThreshold spawned
       = (if distanceTravelled spawned >? spireSpawnThreshold approaching
          then wrap64 (spireSpawnThreshold approaching + 600)
          else spireSpawnThreshold approaching)
    /\ asteroidSpawnThreshold spawned
       = (if distanceTravelled spawned >? asteroidSpawnThreshold approaching
          then wrap64 (asteroidSpawnThreshold approaching + 200)
          else asteroidSpawnThreshold approaching)
    /\ starSpawnThreshold spawned
       = (if distanceTravelled spawned >? starSpawnThreshold approaching
          then wrap64 (starSpawnThreshold approaching + 2000)
          else starSpawnThreshold approaching).
Proof.
  apply (spawns_on_thresholds doubling exampleSize int_of_float overlap
           addImpulse expire doubling_ok exampleWidth_ok idle approaching
           spawned).
  - apply approaching_reached.
  - reflexivity.
  - by vm_compute.
Defined.

Lemma game_clock_witness :
  frameCount frame1 = wrap64 (frameCount playing + 1)
  /\ 16666666 <= gameTime frame1 - gameTime playing <= 16666667.
Proof.
  destruct (game_clock doubling exampleSize int_of_float overlap addImpulse
              expire space playing frame1) as [Hcount Htime].
  - by vm_compute.
  - split; [exact Hcount|]. apply Htime; [by vm_compute|].
    vm_compute. split; [discriminate|reflexivity].
Defined.

Lemma thresholds_arithmetic_witness :
  exists a b c d : nat,
    spireSpawnThreshold cruising = wrap64 (600 * (1 + Z.of_nat a))
    /\ asteroidSpawnThreshold cruising = wrap64 (200 * (1 + Z.of_nat b))
    /\ starSpawnThreshold cruising = wrap64 (50 + 2000 * Z.of_nat c)
    /\ speedIncreaseThreshold cruising = wrap64 (500 * 2 ^ Z.of_nat d).
Proof.
  apply (thresholds_arithmetic doubling exampleSize int_of_float overlap
           addImpulse expire cruising).
  apply cruising_reached.
Defined.

Lemma ship_velocity_in_quarters_witness :
  exists (s : Sprite) (k : Z),
    ship cruising = Some s
    /\ Image s = shipImage /\ XVelocity s = 0%Q
    /\ (YVelocity s == k # 4)%Q
    /\ (Rotation s == YVelocity s / 96 / 2)%Q.
Proof.
  apply (ship_velocity_in_quarters doubling exampleSize int_of_float overlap
           addImpulse expire doubling_ok exampleWidth_ok cruising).
  apply cruising_reached.
Defined.

Lemma ground_rows_aligned_witness :
  rows_aligned (to_list (topGroundTiles cruising))
    (to_list (bottomGroundTiles cruising)).
Proof.
  apply (ground_rows_aligned doubling exampleSize int_of_float overlap
           addImpulse expire doubling_ok exampleWidth_ok cruising).
  apply cruising_reached.
Defined.

Lemma new_game_layout_witness :
  exists (m : nat) (t b : slice Sprite),
    newGame doubling exampleSize
    = Some (initialState exampleSize ModeTitle 0 t b)
    /\ (Z.of_nat m - 1) * imageWidth exampleSize
       < screenWidth + imageWidth exampleSize * 2
       <= Z.of_nat m * imageWidth exampleSize
    /\ to_list t = initialTop exampleSize <$> seqZ 0 (Z.of_nat m)
    /\ to_list b = initialBottom exampleSize <$> seqZ 0 (Z.of_nat m).
Proof.
  apply (new_game_layout doubling exampleSize doubling_ok exampleWidth_ok).
Defined.

Lemma cruisingEntered_wf :
  slice_wf (asteroids cruisingEntered) /\ slice_wf (stars cruisingEntered).
Proof. unfold slice_wf. vm_compute. lia. Qed.

Lemma collisions_without_removal_witness :
  colliding idle cruisingEntered
  = Some (if existsb (overlap (shipOf cruisingEntered))
               (to_list (topGroundTiles cruisingEntered)
                ++ to_list (bottomGroundTiles cruisingEntered)
                ++ to_list (spires cruisingEntered)
                ++ to_list (asteroids cruisingEntered))
          then set_mode ModeGameOver cruisingEntered
          else cruisingEntered).
Proof.
  destruct cruisingEntered_wf as [Hwa Hws].
  apply (collisions_without_removal doubling overlap idle cruisingEntered
           (shipOf cruisingEntered)); [by vm_compute|exact Hwa|exact Hws| | |].
  - apply overlap_none_among. by vm_compute.
  - intros sh a Hsh. vm_compute in Hsh. discriminate.
  - apply overlap_none. by vm_compute.
Defined.

Lemma speed_is_whole_witness :
  exists n : Z,
    1 <= n /\ speed cruising = inject_Z n
    /\ forall inp g',
         mode cruising = ModeGame -> play inp cruising = Some g' ->
         distanceTravelled g' = wrap64 (distanceTravelled cruising + n).
Proof.
  apply (speed_is_whole doubling exampleSize int_of_float overlap addImpulse
           expire cruising).
  apply cruising_reached.
Defined.

Lemma shield_lasts_300_frames_witness :
  is_Some (shield shielded) <-> frameCount twoOnShield - 0 <= 300.
Proof.
  apply (shield_lasts_300_frames doubling exampleSize int_of_float idle
           twoOnShield shielded 0).
  - reflexivity.
  - by vm_compute.
  - by vm_compute.
  - by vm_compute.
  - by vm_compute.
Defined.

(** One asteroid on the shield and one far from it, and the state in
    which checkCollisions is entered. *)
Definition oneOnShield : Game :=
  set_asteroids (slice_of [asteroid 141 300; asteroid 900 440])
    (set_speed 3 (set_isBoosting true playing)).
Definition oneShielded : Game := result (entering idle oneOnShield).

(** The shield of a state that has one. *)
Definition shieldOf (g : Game) : Sprite :=
  default (mkSprite shieldImage 0 0 0 0 0) (shield g).

Lemma speed_never_falls_below_floor_witness :
  (1 <= speed frame2)%Q
  /\ (isBoosting frame2 = true -> 1 + 2 <= speed frame2)%Q.
Proof.
  apply (speed_never_falls_below_floor doubling exampleSize int_of_float
           overlap addImpulse expire 1%Q playing frame2).
  - apply playing_reached.
  - apply (frames_step _ _ _ _ _ _ playing space frame1);
      [by vm_compute|by vm_compute|].
    apply (frames_step _ _ _ _ _ _ frame1 space frame2);
      [by vm_compute|by vm_compute|].
    apply frames_nil.
  - by vm_compute.
  - by vm_compute.
Defined.

Lemma obstacle_destroys_asteroid_witness :
  exists g',
    asteroidsAgainst doubling overlap idle
      (nth 0 (to_list (topGroundTiles grazingEntered)) (star 0 0))
      grazingEntered = Some g'
    /\ to_list (asteroids g')
       = delete 0%nat (to_list (asteroids grazingEntered))
    /\ to_list (asteroidExplosions g')
       = to_list (asteroidExplosions grazingEntered)
         ++ [createAsteroidExplosion idle grazingEntered
               (nth 0 (to_list (asteroids grazingEntered)) (star 0 0))]
    /\ asteroid_frame grazingEntered g'.
Proof.
  destruct grazingEntered_wf as [Hwa Hwx].
  apply (obstacle_destroys_asteroid doubling overlap idle
           (nth 0 (to_list (topGroundTiles grazingEntered)) (star 0 0))
           grazingEntered
           (nth 0 (to_list (asteroids grazingEntered)) (star 0 0)) 0 Hwa Hwx).
  - by vm_compute.
  - by vm_compute.
  - intros j b Hj Hb. destruct j as [|j]; [exfalso; apply Hj; reflexivity|].
    vm_compute in Hb. destruct j; discriminate.
Defined.

Lemma oneShielded_wf :
  slice_wf (asteroids oneShielded)
  /\ slice_wf (asteroidExplosions oneShielded).
Proof. unfold slice_wf. vm_compute. lia. Qed.

Lemma shield_destroys_asteroid_witness :
  exists g',
    asteroidCollisions doubling overlap idle oneShielded = Some g'
    /\ to_list (asteroids g') = delete 0%nat (to_list (asteroids oneShielded))
    /\ to_list (asteroidExplosions g')
       = to_list (asteroidExplosions oneShielded)
         ++ [createAsteroidExplosion idle oneShielded
               (nth 0 (to_list (asteroids oneShielded)) (star 0 0))]
    /\ obstacle_frame oneShielded g'.
Proof.
  destruct oneShielded_wf as [Hwa Hwx].
  apply (shield_destroys_asteroid doubling overlap idle
           oneShielded (shipOf oneShielded) (shieldOf oneShielded)
           (nth 0 (to_list (asteroids oneShielded)) (star 0 0)) 0).
  - by vm_compute.
  - by vm_compute.
  - exact Hwa.
  - exact Hwx.
  - by vm_compute.
  - by vm_compute.
  - intros j b Hj Hb. destruct j as [|j]; [exfalso; apply Hj; reflexivity|].
    destruct j as [|j]; [|vm_compute in Hb; destruct j; discriminate].
    vm_compute in Hb. injection Hb as <-. by vm_compute.
Defined.

(** In the frame played from [oneOnShield] the asteroid on the shield is
    destroyed and the other one stays. *)
Example oneOnShield_destroyed :
  (map (fun a => (X a, Y a)) ∘ to_list ∘ asteroids
     <$> asteroidCollisions doubling overlap idle oneShielded)
  = Some [(900, 440)].
Proof. by vm_compute. Qed.
